(** * Stonehenge: state transitions, capture rule and minimax search

    A shallow embedding of [leyline.py], [stonehenge_state.py],
    [stonehenge.py] and [strategy.py].  Python integers are [Z], Python
    strings are [string], Python lists are [list]; a raised exception is a
    [Raise] result.  The three uses of floating point in the source,
    [math.ceil(0.5 * len(...))], [math.ceil(3 * (b + 1) / 2)] and
    [int(0.5 * (b ** 2 + 5 * b))], are written with integer division.
    This is what the source computes as long as the integers [3 * (b + 1)]
    and [b ** 2 + 5 * b] are at most 2^53 in magnitude, which holds for
    every board length [b] of magnitude at most 2^26 ([exact_length]) and
    so for the lengths 1 to 5 on which a game can be built; beyond it the
    floats of the source round, and from about 1.3e154 on converting
    [b ** 2 + 5 * b] raises [OverflowError], which is not modelled.
    Statements about states of any board length that depend on these
    expressions are made for lengths within that bound. *)

From Stdlib Require Import ZArith String Ascii DecimalString List Lia
  Permutation Bool.
From stdpp Require Import base tactics option list strings gmap.

Set Warnings "-register-all,-clear-no-such-hyp".

Open Scope string_scope.
Open Scope list_scope.
Open Scope stdpp_scope.
Open Scope Z_scope.

(** ** Results of Python computations *)

Inductive exn : Type := ValueError | IndexError | TypeError.

Inductive result (A : Type) : Type :=
| Ret (a : A)
| Raise (e : exn)
| NoFuel.
Arguments Ret {A} a.
Arguments Raise {A} e.
Arguments NoFuel {A}.

Definition bind {A B : Type} (m : result A) (k : A -> result B) : result B :=
  match m with
  | Ret a => k a
  | Raise e => Raise e
  | NoFuel => NoFuel
  end.

Notation "'let*' x ':=' m 'in' k" := (bind m (fun x => k))
  (at level 10, x name, m at level 100, k at level 200).
Notation "'let*' ' p ':=' m 'in' k" := (bind m (fun p => k))
  (at level 10, p pattern, m at level 100, k at level 200).

(** [for x in l: acc = body(acc, x)] *)
Fixpoint for_each {A S : Type} (l : list A) (body : S -> A -> result S)
  (acc : S) : result S :=
  match l with
  | [] => Ret acc
  | x :: l' => let* acc' := body acc x in for_each l' body acc'
  end.

(** [[f(x) for x in l]] *)
Fixpoint comprehension {A B : Type} (f : A -> result B) (l : list A)
  : result (list B) :=
  match l with
  | [] => Ret []
  | x :: l' => let* y := f x in let* ys := comprehension f l' in Ret (y :: ys)
  end.

(** ** Python list primitives *)

(** [range(lo, hi)] *)
Definition py_range (lo hi : Z) : list Z :=
  map (fun k => lo + Z.of_nat k) (seq 0 (Z.to_nat (hi - lo))).

(** [l[i]]: a negative index counts from the end. *)
Definition py_getitem {A : Type} (l : list A) (i : Z) : result A :=
  let len := Z.of_nat (length l) in
  let j := if i <? 0 then len + i else i in
  if (0 <=? j) && (j <? len)
  then match l !! Z.to_nat j with Some x => Ret x | None => Raise IndexError end
  else Raise IndexError.

(** [l[:k]] *)
Definition py_slice_to {A : Type} (l : list A) (k : Z) : list A :=
  if 0 <=? k then take (Z.to_nat k) l
  else take (Z.to_nat (Z.of_nat (length l) + k)) l.

(** [l.count(x)] *)
Definition py_count (x : string) (l : list string) : Z :=
  Z.of_nat (length (List.filter (String.eqb x) l)).

(** The least [i] in [range(len(l))] with [l[i] == x]. *)
Fixpoint index_of (x : string) (l : list string) : option nat :=
  match l with
  | [] => None
  | y :: l' => if String.eqb y x then Some O else S <$> index_of x l'
  end.

(** [l.insert(i, x)] for [0 <= i]; past the end it appends. *)
Definition py_insert {A : Type} (i : nat) (x : A) (l : list A) : list A :=
  take i l ++ x :: drop i l.

(** [l.pop(i)] for [0 <= i]; past the end it raises. *)
Definition py_pop {A : Type} (i : nat) (l : list A) : result (list A) :=
  if (i <? length l)%nat then Ret (delete i l) else Raise IndexError.

(** [l.remove(x)]: drops the first occurrence, raises when there is none. *)
Fixpoint py_remove (x : string) (l : list string) : result (list string) :=
  match l with
  | [] => Raise ValueError
  | y :: l' =>
      if String.eqb y x then Ret l'
      else let* l'' := py_remove x l' in Ret (y :: l'')
  end.

(** [max(l)]: raises on the empty list. *)
Definition py_max (l : list Z) : result Z :=
  match l with
  | [] => Raise ValueError
  | x :: l' => Ret (fold_left Z.max l' x)
  end.

(** [l.index(x)]: position of the first occurrence. *)
Fixpoint py_index (x : Z) (l : list Z) : result nat :=
  match l with
  | [] => Raise ValueError
  | y :: l' => if y =? x then Ret O else let* i := py_index x l' in Ret (S i)
  end.

(** [math.ceil(x / 2)] for an integer [x]. *)
Definition ceil_half (x : Z) : Z := (x + 1) / 2.

(** ** leyline.py *)

(** [value: Union[int, str]]: the number of the leyline, or the captor. *)
Inductive lvalue : Type := VInt (n : Z) | VStr (s : string).

Record Leyline : Type := mkLeyline {
  value : lvalue;
  letters : list string
}.

Definition Leyline_init (v : lvalue) : Leyline := mkLeyline v [].

Definition set_value (v : lvalue) (ley : Leyline) : Leyline :=
  mkLeyline v (letters ley).
Definition set_letters (ls : list string) (ley : Leyline) : Leyline :=
  mkLeyline (value ley) ls.

(** [type(ley.value) == int] *)
Definition is_int (v : lvalue) : bool :=
  match v with VInt _ => true | VStr _ => false end.

(** ** stonehenge_state.py *)

Definition ALPHA : list string :=
  ["A"; "B"; "C"; "D"; "E"; "F"; "G"; "H"; "I"; "J"; "K"; "L"; "M";
   "N"; "O"; "P"; "Q"; "R"; "S"; "T"; "U"; "V"; "W"; "X"; "Y"; "Z"].

Record StonehengeState : Type := mkState {
  p1_turn : bool;
  b_length : Z;
  p1_score : Z;
  p2_score : Z;
  h_lines : list Leyline;
  r_lines : list Leyline;
  l_lines : list Leyline;
  possible_moves : list string
}.

(** [int(0.5 * (b_length ** 2 + 5 * b_length))] is written as the exact
    half of the even integer [b * b + 5 * b]; the source computes the
    same slice of [ALPHA] as long as that integer fits a float, and
    raises [OverflowError], which is not modelled, when it does not. *)
Definition StonehengeState_init (is_p1 : bool) (b : Z) (p1 p2 : Z)
  (h r l : list Leyline) : StonehengeState :=
  let num := (b * b + 5 * b) / 2 in
  mkState is_p1 b p1 p2 h r l (py_slice_to ALPHA num).

Definition set_p1_turn (t : bool) (s : StonehengeState) : StonehengeState :=
  mkState t (b_length s) (p1_score s) (p2_score s)
          (h_lines s) (r_lines s) (l_lines s) (possible_moves s).
Definition set_p1_score (x : Z) (s : StonehengeState) : StonehengeState :=
  mkState (p1_turn s) (b_length s) x (p2_score s)
          (h_lines s) (r_lines s) (l_lines s) (possible_moves s).
Definition set_p2_score (x : Z) (s : StonehengeState) : StonehengeState :=
  mkState (p1_turn s) (b_length s) (p1_score s) x
          (h_lines s) (r_lines s) (l_lines s) (possible_moves s).
Definition set_possible_moves (ms : list string) (s : StonehengeState)
  : StonehengeState :=
  mkState (p1_turn s) (b_length s) (p1_score s) (p2_score s)
          (h_lines s) (r_lines s) (l_lines s) ms.

(** The three families of leylines held by a state. *)
Inductive family : Type := Hoz | RightDiag | LeftDiag.

#[global] Instance family_eq_dec : EqDecision family.
Proof. solve_decision. Defined.

Definition lines (f : family) (s : StonehengeState) : list Leyline :=
  match f with
  | Hoz => h_lines s
  | RightDiag => r_lines s
  | LeftDiag => l_lines s
  end.

Definition set_lines (f : family) (ls : list Leyline) (s : StonehengeState)
  : StonehengeState :=
  match f with
  | Hoz => mkState (p1_turn s) (b_length s) (p1_score s) (p2_score s)
             ls (r_lines s) (l_lines s) (possible_moves s)
  | RightDiag => mkState (p1_turn s) (b_length s) (p1_score s) (p2_score s)
             (h_lines s) ls (l_lines s) (possible_moves s)
  | LeftDiag => mkState (p1_turn s) (b_length s) (p1_score s) (p2_score s)
             (h_lines s) (r_lines s) ls (possible_moves s)
  end.

Definition get_possible_moves (s : StonehengeState) : list string :=
  possible_moves s.

(** [change_leyline(self, ley)]: both the state's score and the leyline
    object are updated, so both are returned. *)
Definition change_leyline (self : StonehengeState) (ley : Leyline)
  : StonehengeState * Leyline :=
  let threshold := ceil_half (Z.of_nat (length (letters ley))) in
  let '(self, ley) :=
    if (threshold <=? py_count "1" (letters ley)) && is_int (value ley)
    then (set_p1_score (p1_score self + 1) self, set_value (VStr "1") ley)
    else (self, ley) in
  if (threshold <=? py_count "2" (letters ley)) && is_int (value ley)
  then (set_p2_score (p2_score self + 1) self, set_value (VStr "2") ley)
  else (self, ley).

(** The two nested loops of [change_letter]: the first leyline of
    [line_list] that holds [move] has its first occurrence replaced
    ([insert(i, player)] then [pop(i + 1)]) and is re-examined by
    [change_leyline]; the [break]s leave every later leyline alone. *)
Fixpoint change_letter_loop (player move : string) (self : StonehengeState)
  (line_list : list Leyline) : result (StonehengeState * list Leyline) :=
  match line_list with
  | [] => Ret (self, [])
  | leyline :: rest =>
      match index_of move (letters leyline) with
      | Some i =>
          let* ls := py_pop (S i) (py_insert i player (letters leyline)) in
          let '(self', leyline') :=
            change_leyline self (set_letters ls leyline) in
          Ret (self', leyline' :: rest)
      | None =>
          let* '(self', rest') := change_letter_loop player move self rest in
          Ret (self', leyline :: rest')
      end
  end.

(** [self.change_letter(move, self.<family>[:])]: the sliced copy shares
    its leyline objects with the state, so the state's family changes. *)
Definition change_letter (f : family) (move : string) (self : StonehengeState)
  : result StonehengeState :=
  let player := if p1_turn self then "1" else "2" in
  let* '(self', ls) := change_letter_loop player move self (lines f self) in
  Ret (set_lines f ls self').

(** [math.ceil(3 * (b_length + 1) / 2)], as the exact integer ceiling:
    this is what the float division of the source gives while
    [3 * (b_length + 1)] is at most 2^53 in magnitude. *)
Definition win_threshold (b : Z) : Z := ceil_half (3 * (b + 1)).

(** The board lengths on which the floating-point expressions of the
    source are exact: [3 * (b + 1)] and [b ** 2 + 5 * b] are below 2^53
    in magnitude, so that neither the division by 2 nor the conversion
    to a float rounds. *)
Definition exact_length (b : Z) : Prop := - 2 ^ 26 <= b <= 2 ^ 26.

Definition make_move (self : StonehengeState) (move : string)
  : result StonehengeState :=
  let ss := StonehengeState_init (p1_turn self) (b_length self)
              (p1_score self) (p2_score self)
              (h_lines self) (r_lines self) (l_lines self) in
  let* ss := change_letter Hoz move ss in
  let* ss := change_letter RightDiag move ss in
  let* ss := change_letter LeftDiag move ss in
  let moves := get_possible_moves self in
  let* moves := py_remove move moves in
  let ss := set_possible_moves moves ss in
  let ss := set_p1_turn (negb (p1_turn ss)) ss in
  let threshold := win_threshold (b_length ss) in
  if (threshold <=? p1_score ss) || (threshold <=? p2_score ss)
  then Ret (set_possible_moves [] ss)
  else Ret ss.

(** ** stonehenge.py *)

Record Stonehenge : Type := mkGame {
  hoz_lines : list Leyline;
  right_lines : list Leyline;
  left_lines : list Leyline;
  current_state : StonehengeState
}.

Definition set_current_state (s : StonehengeState) (g : Stonehenge)
  : Stonehenge :=
  mkGame (hoz_lines g) (right_lines g) (left_lines g) s.

Definition is_over (self : Stonehenge) (state : StonehengeState) : bool :=
  let threshold := win_threshold (b_length state) in
  if (threshold <=? p1_score state) || (threshold <=? p2_score state)
  then true else false.

Definition is_winner (self : Stonehenge) (player : string) : bool :=
  let threshold := win_threshold (b_length (current_state self)) in
  if String.eqb player "p1" && (threshold <=? p1_score (current_state self))
  then true
  else if String.eqb player "p2"
          && (threshold <=? p2_score (current_state self))
  then true
  else false.

(** [range(hi, lo, -1)] *)
Definition py_range_down (hi lo : Z) : list Z :=
  map (fun k => hi - Z.of_nat k) (seq 0 (Z.to_nat (hi - lo))).

(** [p = 0; while p < k: letters.append(a.pop(0)); p += 1] *)
Fixpoint pop_front (k : nat) (a ls : list string)
  : result (list string * list string) :=
  match k with
  | O => Ret (a, ls)
  | S k' =>
      match a with
      | [] => Raise IndexError
      | x :: a' => pop_front k' a' (ls ++ [x])
      end
  end.

Definition generate_hoz (num : Z) : result (list Leyline) :=
  let n := num in
  let* '(_, hoz) :=
    for_each (py_range 1 (n + 2))
      (fun '(a, hoz) i =>
         let ley := Leyline_init (VInt i) in
         let k := if i <=? n then i + 1 else n in
         let* '(a, ls) := pop_front (Z.to_nat k) a (letters ley) in
         Ret (a, hoz ++ [set_letters ls ley]))
      (ALPHA, []) in
  Ret hoz.

(** [for j in range(start, n): ley.letters.append(hl[j].letters[col j])] *)
Definition collect_column (hl : list Leyline) (start n : Z) (col : Z -> Z)
  (ley : Leyline) : result Leyline :=
  for_each (py_range start n)
    (fun ley j =>
       let* row := py_getitem hl j in
       let* x := py_getitem (letters row) (col j) in
       Ret (set_letters (letters ley ++ [x]) ley))
    ley.

Definition generate_right_diag_lines (self_hoz_lines : list Leyline)
  (num : Z) : result (list Leyline) :=
  let n := num in
  let hl := self_hoz_lines in
  let* '(_, rs) :=
    for_each (py_range 1 (n + 2))
      (fun '(start, rs) i =>
         let ley := Leyline_init (VInt i) in
         if i =? 1
         then
           let* ley := collect_column hl start n (fun _ => 0) ley in
           Ret (start, rs ++ [ley])
         else
           let* ley := collect_column hl start n (fun _ => i - 1) ley in
           Ret (start + 1, rs ++ [ley]))
      (0, []) in
  let* '(_, rs) :=
    for_each (py_range 1 (Z.of_nat (length rs)))
      (fun '(counter, rs) i =>
         let* ley := py_getitem rs i in
         let* last := py_getitem hl n in
         let* x := py_getitem (letters last) counter in
         Ret (counter + 1,
              <[Z.to_nat i := set_letters (letters ley ++ [x]) ley]> rs))
      (0, rs) in
  Ret rs.

Definition generate_left_diag_lines (self_hoz_lines : list Leyline)
  (num : Z) : result (list Leyline) :=
  let n := num in
  let hl := self_hoz_lines in
  let* '(_, ls) :=
    for_each (py_range 1 (n + 2))
      (fun '(start, ls) i =>
         let ley := Leyline_init (VInt i) in
         let* ley :=
           for_each (py_range start n)
             (fun ley j =>
                let* row := py_getitem hl j in
                let len := Z.of_nat (length (letters row)) in
                let* x := py_getitem (letters row) (len - i) in
                Ret (set_letters (letters ley ++ [x]) ley))
             ley in
         let start := start + 1 in
         let start := if i =? 1 then 0 else start in
         let ley := set_letters (rev (letters ley)) ley in
         Ret (start, ls ++ [ley]))
      (0, []) in
  let* '(_, ls) :=
    for_each (py_range_down (Z.of_nat (length ls) - 1) 0)
      (fun '(counter, ls) i =>
         let* ley := py_getitem ls i in
         let* last := py_getitem hl n in
         let* x := py_getitem (letters last) counter in
         Ret (counter + 1,
              <[Z.to_nat i := set_letters (x :: letters ley) ley]> ls))
      (0, ls) in
  Ret ls.

(** [Stonehenge(is_p1)], with the board length read from the user passed
    as an argument. *)
Definition Stonehenge_init (is_p1 : bool) (b_length : Z) : result Stonehenge :=
  let* hoz := generate_hoz b_length in
  let* rdiag := generate_right_diag_lines hoz b_length in
  let* ldiag := generate_left_diag_lines hoz b_length in
  Ret (mkGame hoz rdiag ldiag
         (StonehengeState_init is_p1 b_length 0 0 hoz rdiag ldiag)).

(** ** The heuristic of stonehenge_state.py *)

(** [give_copy(move)]: [copy.deepcopy(self).make_move(move)] *)
Definition give_copy (self : StonehengeState) (move : string)
  : result StonehengeState :=
  let s := self in
  make_move s move.

Definition list_states (self : StonehengeState)
  : result (list StonehengeState) :=
  comprehension (give_copy self) (possible_moves self).

Definition check_good_move (self : StonehengeState) (move : string)
  : result bool :=
  let* new_state := give_copy self move in
  let threshold := win_threshold (b_length new_state) in
  Ret ((threshold <=? p1_score new_state)
       || (threshold <=? p2_score new_state)).

(** [any(l)] on a list of booleans *)
Definition py_any (l : list bool) : bool := existsb id l.

(** [all([s.check_good_move(m) for m in s.possible_moves] for s in states)]:
    the generator yields one list per state, [all] tests each list for
    truth, which for a list is being non-empty, and stops at the first
    empty one. *)
Fixpoint all_of_lists (states : list StonehengeState) : result bool :=
  match states with
  | [] => Ret true
  | s :: rest =>
      let* l := comprehension (check_good_move s) (possible_moves s) in
      match l with
      | [] => Ret false
      | _ :: _ => all_of_lists rest
      end
  end.

Definition rough_outcome (self : StonehengeState) : result Z :=
  let threshold := win_threshold (b_length self) in
  if (threshold <=? p1_score self) || (threshold <=? p1_score self)
  then Ret (-1)
  else
    let* goods := comprehension (check_good_move self) (possible_moves self) in
    if py_any goods then Ret 1
    else
      let* states := list_states self in
      let* b := all_of_lists states in
      if b then Ret (-1) else Ret 0.

(** ** Printing a state *)

(** [get_leyline_value(lst)]: the mark of each leyline, [@] while its value
    is its number, the captor's tag after. *)
Definition get_leyline_value (lst : list Leyline) : list string :=
  map (fun ley =>
         match value ley with
         | VInt _ => "@"
         | VStr p => p
         end) lst.

(** [h_l[i].letters[j]] *)
Definition letter_at (h_l : list Leyline) (i j : Z) : result string :=
  let* row := py_getitem h_l i in
  py_getitem (letters row) j.

(** The arguments of a call, evaluated from left to right. *)
Definition py_args {A : Type} (l : list (result A)) : result (list A) :=
  comprehension (fun x => x) l.

(** [t.format(a1, ..., ak)] for a template whose only braces are the fields
    [{}], as in every template of this program: the fields are replaced
    by the arguments in order, an argument that is missing raises
    [IndexError], arguments left over are ignored. *)
Fixpoint py_format (t : string) (args : list string) : result string :=
  match t with
  | EmptyString => Ret EmptyString
  | String c t' =>
      match t' with
      | EmptyString => Ret (String c EmptyString)
      | String d t'' =>
          if Ascii.eqb c "{" && Ascii.eqb d "}"
          then
            match args with
            | [] => Raise IndexError
            | a :: args' =>
                let* out := py_format t'' args' in Ret (a +:+ out)
            end
          else let* out := py_format t' args in Ret (String c out)
      end
  end.

(** [str(n)] for an integer. *)
Definition py_str_int (n : Z) : string :=
  NilZero.string_of_int (Z.to_int n).

(** The line break. *)
Definition nl : string := String (ascii_of_nat 10) EmptyString.

(** The number of fields [{}] of a template. *)
Fixpoint fields (t : string) : nat :=
  match t with
  | EmptyString => O
  | String c t' =>
      match t' with
      | EmptyString => O
      | String d t'' =>
          if Ascii.eqb c "{" && Ascii.eqb d "}"
          then S (fields t'')
          else fields t'
      end
  end.

(** [a in out] for strings: [a] occurs in [out]. *)
Definition shown (a out : string) : Prop :=
  exists pre post, out = pre +:+ a +:+ post.

Definition one_template : string :=
"              {}   {}
             /   /
        {} - {} - {}
             \ / \
          {} - {}   {}
               \
                {}".

Definition one (self : StonehengeState) : result string :=
  let h := get_leyline_value (h_lines self) in
  let r := get_leyline_value (r_lines self) in
  let l := get_leyline_value (l_lines self) in
  let h_l := h_lines self in
  let* args :=
    py_args
      [py_getitem r 0; py_getitem r 1; py_getitem h 0; letter_at h_l 0 0;
        letter_at h_l 0 1; py_getitem h 1; letter_at h_l 1 0;
        py_getitem l 0; py_getitem l 1] in
  py_format one_template args.

Definition two_template : string :=
"                {}   {}
               /   /
          {} - {} - {}   {}
             / \ / \ /
        {} - {} - {} - {}
             \ / \ / \
          {} - {} - {}   {}
               \   \
                {}   {}".

Definition two (self : StonehengeState) : result string :=
  let h := get_leyline_value (h_lines self) in
  let r := get_leyline_value (r_lines self) in
  let l := get_leyline_value (l_lines self) in
  let h_l := h_lines self in
  let* args :=
    py_args
      [py_getitem r 0; py_getitem r 1; py_getitem h 0; letter_at h_l 0 0;
        letter_at h_l 0 1; py_getitem r 2; py_getitem h 1;
        letter_at h_l 1 0; letter_at h_l 1 1; letter_at h_l 1 2;
        py_getitem h 2; letter_at h_l 2 0; letter_at h_l 2 1;
        py_getitem l 0; py_getitem l 2; py_getitem l 1] in
  py_format two_template args.

Definition three_template : string :=
"                        {}   {}
                       /   /
                  {} - {} - {}   {}
                     / \ / \ /
                {} - {} - {} - {}    {}
                    / \ / \ / \ /     
               {} - {} - {} - {} - {}
                    \ / \ / \ / \
                 {} - {} - {} - {}   {}
                       \   \   \
                        {}   {}   {}".

Definition three (self : StonehengeState) : result string :=
  let h := get_leyline_value (h_lines self) in
  let r := get_leyline_value (r_lines self) in
  let l := get_leyline_value (l_lines self) in
  let h_l := h_lines self in
  let* args :=
    py_args
      [py_getitem r 0; py_getitem r 1; py_getitem h 0; letter_at h_l 0 0;
        letter_at h_l 0 1; py_getitem r 2; py_getitem h 1;
        letter_at h_l 1 0; letter_at h_l 1 1; letter_at h_l 1 2;
        py_getitem r 3; py_getitem h 2; letter_at h_l 2 0;
        letter_at h_l 2 1; letter_at h_l 2 2; letter_at h_l 2 3;
        py_getitem h 3; letter_at h_l 3 0; letter_at h_l 3 1;
        letter_at h_l 3 2; py_getitem l 0; py_getitem l 3; py_getitem l 2;
        py_getitem l 1] in
  py_format three_template args.

Definition four_template : string :=
"                               {}   {}
                              /   /
                         {} - {} - {}   {}
                            / \ / \ /
                       {} - {} - {} - {}   {}
                          / \ / \ / \ /     
                    {} - {} - {} - {} - {}   {}
                       / \ / \ / \ / \ /
                  {} - {} - {} - {} - {} - {}
                       \ / \ / \ / \ / \     
                    {} - {} - {} - {} - {}   {}                 
                         \   \   \   \
                          {}   {}   {}   {}".

Definition four (self : StonehengeState) : result string :=
  let h := get_leyline_value (h_lines self) in
  let r := get_leyline_value (r_lines self) in
  let l := get_leyline_value (l_lines self) in
  let h_l := h_lines self in
  let* args :=
    py_args
      [py_getitem r 0; py_getitem r 1; py_getitem h 0; letter_at h_l 0 0;
        letter_at h_l 0 1; py_getitem r 2; py_getitem h 1;
        letter_at h_l 1 0; letter_at h_l 1 1; letter_at h_l 1 2;
        py_getitem r 3; py_getitem h 2; letter_at h_l 2 0;
        letter_at h_l 2 1; letter_at h_l 2 2; letter_at h_l 2 3;
        py_getitem r 4; py_getitem h 3; letter_at h_l 3 0;
        letter_at h_l 3 1; letter_at h_l 3 2; letter_at h_l 3 3;
        letter_at h_l 3 4; py_getitem h 4; letter_at h_l 4 0;
        letter_at h_l 4 1; letter_at h_l 4 2; letter_at h_l 4 3;
        py_getitem l 0; py_getitem l 4; py_getitem l 3; py_getitem l 2;
        py_getitem l 1] in
  py_format four_template args.

Definition five_template : string :=
"                                      {}   {}
                                     /   /
                                {} - {} - {}   {}
                                   / \ / \ /
                              {} - {} - {} - {}   {}
                                 / \ / \ / \ /     
                           {} - {} - {} - {} - {}   {}
                              / \ / \ / \ / \ /
                         {} - {} - {} - {} - {} - {}   {}
                            / \ / \ / \ / \ / \ /
                       {} - {} - {} - {} - {} - {} - {}  
                            \ / \ / \ / \ / \ / \ 
                         {} - {} - {} - {} - {} - {}   {}
                              \   \   \   \   \
                               {}   {}   {}   {}   {}
                         
                       ".

Definition five (self : StonehengeState) : result string :=
  let h := get_leyline_value (h_lines self) in
  let r := get_leyline_value (r_lines self) in
  let l := get_leyline_value (l_lines self) in
  let h_l := h_lines self in
  let* args :=
    py_args
      [py_getitem r 0; py_getitem r 1; py_getitem h 0; letter_at h_l 0 0;
        letter_at h_l 0 1; py_getitem r 2; py_getitem h 1;
        letter_at h_l 1 0; letter_at h_l 1 1; letter_at h_l 1 2;
        py_getitem r 3; py_getitem h 2; letter_at h_l 2 0;
        letter_at h_l 2 1; letter_at h_l 2 2; letter_at h_l 2 3;
        py_getitem r 4; py_getitem h 3; letter_at h_l 3 0;
        letter_at h_l 3 1; letter_at h_l 3 2; letter_at h_l 3 3;
        letter_at h_l 3 4; py_getitem r 5; py_getitem h 4;
        letter_at h_l 4 0; letter_at h_l 4 1; letter_at h_l 4 2;
        letter_at h_l 4 3; letter_at h_l 4 4; letter_at h_l 4 5;
        py_getitem h 5; letter_at h_l 5 0; letter_at h_l 5 1;
        letter_at h_l 5 2; letter_at h_l 5 3; letter_at h_l 5 4;
        py_getitem l 0; py_getitem l 5; py_getitem l 4; py_getitem l 3;
        py_getitem l 2; py_getitem l 1] in
  py_format five_template args.

Definition __str__ (self : StonehengeState) : result string :=
  if b_length self =? 1 then one self
  else if b_length self =? 2 then two self
  else if b_length self =? 3 then three self
  else if b_length self =? 4 then four self
  else five self.

Definition __repr__ (self : StonehengeState) : result string :=
  let* s := __str__ self in
  let s := s +:+ nl in
  let* scores :=
    py_format "p1 {} - {} p2"
      [py_str_int (p1_score self); py_str_int (p2_score self)] in
  let s := s +:+ scores in
  let s := s +:+ nl in
  if p1_turn self
  then Ret (s +:+ "The current player is p1")
  else Ret (s +:+ "The current player is p2").

(** ** strategy.py *)

(** One fuel unit is one frame of the Python call stack. *)
Fixpoint recursive_helper (fuel : nat) (game : Stonehenge) : result Z :=
  match fuel with
  | O => NoFuel
  | S fuel' =>
      if is_over game (current_state game)
      then
        if is_winner game "p2" || is_winner game "p1"
        then Ret (-1)
        else Ret 0
      else
        let moves := get_possible_moves (current_state game) in
        let* games_list :=
          comprehension
            (fun move =>
               let g := game in
               let* s := make_move (current_state g) move in
               Ret (set_current_state s g))
            moves in
        let* scores :=
          comprehension
            (fun c => let* v := recursive_helper fuel' c in Ret (-1 * v))
            games_list in
        py_max scores
  end.

(** [moves[moves_scores.index(max(moves_scores))]] *)
Definition pick_best (moves : list string) (moves_scores : list Z)
  : result string :=
  let* m := py_max moves_scores in
  let* i := py_index m moves_scores in
  py_getitem moves (Z.of_nat i).

Definition recursive_minimax (fuel : nat) (game : Stonehenge)
  : result string :=
  let moves := get_possible_moves (current_state game) in
  let* moves_scores :=
    comprehension
      (fun move =>
         let g := game in
         let* s := make_move (current_state g) move in
         let g := set_current_state s g in
         let* v := recursive_helper fuel g in
         Ret (-1 * v))
      moves in
  pick_best moves moves_scores.

(** A [GameTree] object.  Nodes live in a store and are named by their
    position in it, because the same node object is held by the work
    stack and by its parent's [children] list, and the score written
    through one is read through the other. *)
Record GameTree : Type := mkTree {
  children : list nat;
  score : option Z;
  game : Stonehenge
}.

Definition GameTree_init (g : Stonehenge) : GameTree := mkTree [] None g.

Definition set_score (v : Z) (t : GameTree) : GameTree :=
  mkTree (children t) (Some v) (game t).
Definition add_child (c : nat) (t : GameTree) : GameTree :=
  mkTree (children t ++ [c]) (score t) (game t).

Abbreviation store := (list GameTree).

Definition deref (h : store) (i : nat) : result GameTree :=
  match h !! i with Some t => Ret t | None => Raise IndexError end.

(** The body of [for move in moves] in [iterative_helper]: a node for the
    state after [move] is created, appended to the children of
    [curr_game] and pushed.  The stack [s] is kept top first:
    [s.append(x)] is [x :: s], [s.pop()] drops the head and
    [s[len(s) - 1]] is the head. *)
Definition push_child (curr_game : nat) (g : Stonehenge)
  (st : store * list nat) (move : string) : result (store * list nat) :=
  let '(h, s) := st in
  let* s1 := make_move (current_state g) move in
  let g := set_current_state s1 g in
  let gt1 := length h in
  let h := h ++ [GameTree_init g] in
  let* parent := deref h curr_game in
  Ret (<[curr_game := add_child gt1 parent]> h, gt1 :: s).

(** [-1 * g.score]; multiplying [None] raises. *)
Definition negated_score (h : store) (g : nat) : result Z :=
  let* c := deref h g in
  match score c with
  | Some v => Ret (-1 * v)
  | None => Raise TypeError
  end.

(** One pass through the body of the [while] loop of [iterative_helper]. *)
Definition iterative_step (st : store * list nat)
  : result (store * list nat) :=
  let '(h, s) := st in
  match s with
  | [] => Raise IndexError
  | curr_game :: below =>
      let* node := deref h curr_game in
      if is_over (game node) (current_state (game node))
      then
        let v := if is_winner (game node) "p2" || is_winner (game node) "p1"
                 then -1 else 0 in
        Ret (<[curr_game := set_score v node]> h, below)
      else
        match children node with
        | [] =>
            let moves := get_possible_moves (current_state (game node)) in
            let s := curr_game :: s in
            for_each moves (push_child curr_game (game node)) (h, s)
        | _ :: _ =>
            let* scores := comprehension (negated_score h) (children node) in
            let* m := py_max scores in
            Ret (<[curr_game := set_score m node]> h, below)
        end
  end.

(** [while gt.score is None: ...; return gt.score], one fuel unit per pass. *)
Fixpoint iterative_loop (fuel : nat) (gt : nat) (st : store * list nat)
  : result Z :=
  let* root := deref (fst st) gt in
  match score root with
  | Some v => Ret v
  | None =>
      match fuel with
      | O => NoFuel
      | S fuel' =>
          let* st' := iterative_step st in
          iterative_loop fuel' gt st'
      end
  end.

Definition iterative_helper (fuel : nat) (game : Stonehenge) : result Z :=
  let gt := O in
  iterative_loop fuel gt ([GameTree_init game], [gt]).

Definition iterative_minimax (fuel : nat) (game : Stonehenge)
  : result string :=
  let moves := get_possible_moves (current_state game) in
  let* moves_scores :=
    comprehension
      (fun move =>
         let g := game in
         let* s := make_move (current_state g) move in
         let g := set_current_state s g in
         let* v := iterative_helper fuel g in
         Ret (-1 * v))
      moves in
  pick_best moves moves_scores.

(** [rough_outcome_strategy(game)]: the loop keeps the first move whose
    guessed score is greater than all before it; [best_move] stays [None]
    when there is no move. *)
Definition rough_outcome_strategy (game : Stonehenge)
  : result (option string) :=
  let current_state := current_state game in
  let* '(best_move, _) :=
    for_each (get_possible_moves current_state)
      (fun '(best_move, best_outcome) move =>
         let* new_state := make_move current_state move in
         let* outcome := rough_outcome new_state in
         let guessed_score := outcome * -1 in
         if best_outcome <? guessed_score
         then Ret (Some move, guessed_score)
         else Ret (best_move, best_outcome))
      (None, -2) in
  Ret best_move.

(** What [change_leyline] decides, as a function of the leyline alone. *)
Definition captor (ley : Leyline) : option string :=
  let threshold := ceil_half (Z.of_nat (length (letters ley))) in
  if is_int (value ley)
  then if threshold <=? py_count "1" (letters ley) then Some "1"
       else if threshold <=? py_count "2" (letters ley) then Some "2"
       else None
  else None.

Definition add_score (who : option string) (self : StonehengeState)
  : StonehengeState :=
  match who with
  | None => self
  | Some p =>
      if String.eqb p "1" then set_p1_score (p1_score self + 1) self
      else set_p2_score (p2_score self + 1) self
  end.

Definition capture (who : option string) (ley : Leyline) : Leyline :=
  match who with
  | None => ley
  | Some p => set_value (VStr p) ley
  end.

(** The leyline hit by a move: the first one of the family holding it. *)
Inductive hit (move : string) : list Leyline ->
  list Leyline -> Leyline -> list Leyline -> list string -> list string ->
  Prop :=
| hit_intro pre ley post l1 l2 :
    Forall (fun k => ~ In move (letters k)) pre ->
    letters ley = l1 ++ move :: l2 ->
    ~ In move l1 ->
    hit move (pre ++ ley :: post) pre ley post l1 l2.

(** [make_move] split into its three [change_letter] calls, the removal
    of the move and the final test against the win threshold. *)
Definition finish_move (moves : list string) (ss : StonehengeState)
  : StonehengeState :=
  let ss := set_possible_moves moves ss in
  let ss := set_p1_turn (negb (p1_turn ss)) ss in
  if (win_threshold (b_length ss) <=? p1_score ss)
     || (win_threshold (b_length ss) <=? p2_score ss)
  then set_possible_moves [] ss
  else ss.

(** ** Play sequences and the states a game can reach *)

(** [s.make_move(m1).make_move(m2)...] *)
Fixpoint play (s : StonehengeState) (ms : list string)
  : result StonehengeState :=
  match ms with
  | [] => Ret s
  | m :: ms' => let* s' := make_move s m in play s' ms'
  end.

(** Every state object the class can produce: built by the constructor,
    from any arguments, or returned by [make_move]. *)
Inductive constructed : StonehengeState -> Prop :=
| constructed_init is_p1 b p1 p2 h r l :
    constructed (StonehengeState_init is_p1 b p1 p2 h r l)
| constructed_move s m s' :
    constructed s -> make_move s m = Ret s' -> constructed s'.

(** The states of a game of Stonehenge on a board of length at least 1:
    the state built by [Stonehenge(is_p1)] and all that follow by moves. *)
Inductive reachable : StonehengeState -> Prop :=
| reachable_init is_p1 n g :
    1 <= n -> Stonehenge_init is_p1 n = Ret g -> reachable (current_state g)
| reachable_move s m s' :
    reachable s -> make_move s m = Ret s' -> reachable s'.

(** The test shared by [is_over], [make_move] and [rough_outcome]. *)
Definition over (s : StonehengeState) : bool :=
  (win_threshold (b_length s) <=? p1_score s)
  || (win_threshold (b_length s) <=? p2_score s).

(** A cell is claimed once its letter has been replaced by a player tag. *)
Definition claimed (x : string) : bool :=
  String.eqb x "1" || String.eqb x "2".

Definition cells (ls : list Leyline) : list string := flat_map letters ls.

Definition free_cells (ls : list Leyline) : list string :=
  List.filter (fun x => negb (claimed x)) (cells ls).

Definition claimed_cells (ls : list Leyline) : list string :=
  List.filter claimed (cells ls).

Definition captured (ley : Leyline) : bool := negb (is_int (value ley)).

Definition n_captured (ls : list Leyline) : Z :=
  Z.of_nat (length (List.filter captured ls)).

(** The number of cells of a board of length [b]. *)
Definition total_cells (b : Z) : Z := (b * b + 5 * b) / 2.

(** A leyline in good order: it spans at least one cell, and while it is
    uncaptured no player holds [ceil(len / 2)] of its cells. *)
Definition line_ok (ley : Leyline) : Prop :=
  letters ley <> []
  /\ (is_int (value ley) = true ->
      py_count "1" (letters ley) < ceil_half (Z.of_nat (length (letters ley)))
      /\ py_count "2" (letters ley)
         < ceil_half (Z.of_nat (length (letters ley)))).

(** The invariant of the reachable states. *)
Record wf (s : StonehengeState) : Prop := mkWf {
  wf_size : 1 <= b_length s;
  wf_lines : forall f, Forall line_ok (lines f s);
  wf_count :
    Z.of_nat (length (h_lines s)) + Z.of_nat (length (r_lines s))
    + Z.of_nat (length (l_lines s)) = 3 * (b_length s + 1);
  wf_score :
    p1_score s + p2_score s
    = n_captured (h_lines s) + n_captured (r_lines s)
      + n_captured (l_lines s);
  wf_moves :
    if over s then possible_moves s = []
    else forall f, Permutation (free_cells (lines f s)) (possible_moves s);
  wf_nodup : NoDup (possible_moves s);
  wf_total : Z.of_nat (length (cells (h_lines s))) = total_cells (b_length s)
}.

(** The game [Stonehenge(is_p1)] on a board of length [n], for the
    lengths on which the constructor returns. *)
Definition new_game (is_p1 : bool) (n : Z) : Stonehenge :=
  match Stonehenge_init is_p1 n with
  | Ret g => g
  | _ => mkGame [] [] [] (StonehengeState_init is_p1 n 0 0 [] [] [])
  end.

(** The game [g] after the moves [ms] have been played on it. *)
Definition after (g : Stonehenge) (ms : list string) : Stonehenge :=
  match play (current_state g) ms with
  | Ret s => set_current_state s g
  | _ => g
  end.

(** [ley'] is a later version of [ley] that has kept its owner, if it had
    one. *)
Definition keeps_owner (ley ley' : Leyline) : Prop :=
  forall p, value ley = VStr p -> value ley' = VStr p.

Definition gain (p : string) (c : option string) : Z :=
  match c with
  | Some q => if String.eqb q p then 1 else 0
  | None => 0
  end.

(** A cell after the move [m] by the player [tag]: as it was, or the move
    replaced by the tag. *)
Definition cell_step (m tag x y : string) : Prop :=
  y = x \/ (x = m /\ y = tag).

(** The value of a leyline after a move: as it was, or a number replaced
    by a player's tag. *)
Definition value_step (ley ley' : Leyline) : Prop :=
  value ley' = value ley
  \/ (is_int (value ley) = true
      /\ (value ley' = VStr "1" \/ value ley' = VStr "2")).

Definition tag_of (s : StonehengeState) : string :=
  if p1_turn s then "1" else "2".

(** The contract that the docstring of [rough_outcome_strategy] gives for
    [rough_outcome]: [-1] on a state that is over, else [1] when some move
    wins at once, else [-1] when after every move the other player has a
    move that wins at once, else [0]. *)
Definition documented_rough_outcome (self : StonehengeState) : result Z :=
  if over self then Ret (-1)
  else
    let* goods := comprehension (check_good_move self) (possible_moves self) in
    if py_any goods then Ret 1
    else
      let* states := list_states self in
      let* replies :=
        comprehension
          (fun s =>
             let* l := comprehension (check_good_move s) (possible_moves s) in
             Ret (py_any l))
          states in
      if forallb id replies then Ret (-1) else Ret 0.

(** ** The value of a position, in the words of the specification

    Section 4.3 defines the value of a state for the player about to
    move: [-1] on a terminal state with a winner, [0] on a terminal state
    without one, and on any other state the greatest of [-1 * value] over
    the states that the legal moves lead to. *)
Inductive negamax_value : Stonehenge -> Z -> Prop :=
| negamax_won g :
    is_over g (current_state g) = true ->
    is_winner g "p1" = true \/ is_winner g "p2" = true ->
    negamax_value g (-1)
| negamax_draw g :
    is_over g (current_state g) = true ->
    is_winner g "p1" = false -> is_winner g "p2" = false ->
    negamax_value g 0
| negamax_node g v :
    is_over g (current_state g) = false ->
    (forall m, In m (get_possible_moves (current_state g)) ->
       exists s' w,
         make_move (current_state g) m = Ret s'
         /\ negamax_value (set_current_state s' g) w
         /\ -1 * w <= v) ->
    (exists m s' w,
       In m (get_possible_moves (current_state g))
       /\ make_move (current_state g) m = Ret s'
       /\ negamax_value (set_current_state s' g) w
       /\ v = -1 * w) ->
    negamax_value g v.

(** The best move of the specification: the legal move whose child has the
    greatest negated value, the first such in the order of
    [get_possible_moves()]. *)
Definition best_move (g : Stonehenge) (m : string) : Prop :=
  exists (i : nat) s' w,
    get_possible_moves (current_state g) !! i = Some m
    /\ make_move (current_state g) m = Ret s'
    /\ negamax_value (set_current_state s' g) w
    /\ forall (j : nat) m' s'' w',
         get_possible_moves (current_state g) !! j = Some m' ->
         make_move (current_state g) m' = Ret s'' ->
         negamax_value (set_current_state s'' g) w' ->
         -1 * w' <= -1 * w /\ ((j < i)%nat -> -1 * w' < -1 * w).

(** The moves of a node paired with the values that [recursive_helper]
    gives to the states they lead to. *)
Definition child_values (fuel : nat) (g : Stonehenge) (ws : list Z) : Prop :=
  Forall2
    (fun m w =>
       exists s', make_move (current_state g) m = Ret s'
                  /\ recursive_helper fuel (set_current_state s' g) = Ret w)
    (get_possible_moves (current_state g)) ws.

(** ** Runs of the loop of [iterative_helper] *)

(** The root [gt] has no score yet, so the loop goes on. *)
Definition unscored (h : store) (gt : nat) : Prop :=
  exists root, h !! gt = Some root /\ score root = None.

(** [runs gt k st st']: [k] passes of the loop lead from [st] to [st'],
    the loop condition [gt.score is None] holding before each. *)
Inductive runs (gt : nat) : nat -> store * list nat -> store * list nat
  -> Prop :=
| runs_O st : runs gt O st st
| runs_S k st st1 st2 :
    unscored (fst st) gt ->
    iterative_step st = Ret st1 ->
    runs gt k st1 st2 ->
    runs gt (S k) st st2.

(** What the loop does with a fresh node [c] on top of the stack, when
    [recursive_helper] with [fuel] frames returns [v] on its game: after
    some passes the node is popped with score [v], nothing that was in the
    store before has changed but [c], and the root is still unscored. *)
Definition processes (gt : nat) (fuel : nat) : Prop :=
  forall (g : Stonehenge) (v : Z),
    recursive_helper fuel g = Ret v ->
    forall (h : store) (c : nat) (below : list nat),
      h !! c = Some (GameTree_init g) ->
      c <> gt ->
      unscored h gt ->
      exists (k : nat) (h' : store) (ch : list nat),
        runs gt k (h, c :: below) (h', below)
        /\ h' !! c = Some (mkTree ch (Some v) g)
        /\ (length h <= length h')%nat
        /\ forall i : nat, (i < length h)%nat -> i <> c -> h' !! i = h !! i.

(** ** The object store

    [make_move] works on mutable objects: lists of letters, [Leyline]
    objects, lists of leylines and [StonehengeState] objects, all held by
    reference.  For the claim that a move neither changes nor shares what
    the receiver holds, the same code is written over a store of objects.
    Integers and strings are immutable values and are not in the store.
    A load of an object of an unexpected class raises [TypeError]. *)
Module Store.

Abbreviation loc := positive.

(** The fields of a [StonehengeState] object. *)
Record sfields : Type := mkFields {
  so_turn : bool;
  so_len : Z;
  so_p1 : Z;
  so_p2 : Z;
  so_h : loc;
  so_r : loc;
  so_l : loc;
  so_moves : loc
}.

Inductive obj : Type :=
| OLetters (ls : list string)
| OLeyline (v : lvalue) (lt : loc)
| OLines (xs : list loc)
| OState (st : sfields).

Abbreviation heap := (gmap loc obj).

Definition M (A : Type) : Type := heap -> result (A * heap).

Definition mret {A : Type} (a : A) : M A := fun h => Ret (a, h).

Definition mbind {A B : Type} (m : M A) (k : A -> M B) : M B :=
  fun h => match m h with
           | Ret (a, h') => k a h'
           | Raise e => Raise e
           | NoFuel => NoFuel
           end.

Definition lift {A : Type} (r : result A) : M A :=
  fun h => match r with
           | Ret a => Ret (a, h)
           | Raise e => Raise e
           | NoFuel => NoFuel
           end.

Notation "'let!' x ':=' m 'in' k" := (mbind m (fun x => k))
  (at level 10, x name, m at level 100, k at level 200).
Notation "'let!' ' p ':=' m 'in' k" := (mbind m (fun p => k))
  (at level 10, p pattern, m at level 100, k at level 200).
Notation "m ';;' k" := (mbind m (fun _ => k))
  (at level 100, k at level 200, right associativity).

(** A new object gets an address that is not in use. *)
Definition alloc (o : obj) : M loc :=
  fun h => let l := fresh (dom h) in Ret (l, <[l := o]> h).

Definition load (l : loc) : M obj :=
  fun h => match h !! l with
           | Some o => Ret (o, h)
           | None => Raise TypeError
           end.

Definition store (l : loc) (o : obj) : M unit :=
  fun h => match h !! l with
           | Some _ => Ret (tt, <[l := o]> h)
           | None => Raise TypeError
           end.

Definition load_letters (l : loc) : M (list string) :=
  let! o := load l in
  match o with OLetters ls => mret ls | _ => lift (Raise TypeError) end.

Definition load_leyline (l : loc) : M (lvalue * loc) :=
  let! o := load l in
  match o with OLeyline v lt => mret (v, lt) | _ => lift (Raise TypeError) end.

Definition load_lines (l : loc) : M (list loc) :=
  let! o := load l in
  match o with OLines xs => mret xs | _ => lift (Raise TypeError) end.

Definition load_state (l : loc) : M sfields :=
  let! o := load l in
  match o with OState st => mret st | _ => lift (Raise TypeError) end.

(** [copy.deepcopy]: a copy is made of every list and every [Leyline]
    reached, once each; the memo maps an object already copied to its
    copy, so that sharing inside the copied structure is kept. *)
Definition deepcopy_letters (memo : gmap loc loc) (x : loc)
  : M (loc * gmap loc loc) :=
  match memo !! x with
  | Some y => mret (y, memo)
  | None =>
      let! ls := load_letters x in
      let! y := alloc (OLetters ls) in
      mret (y, <[x := y]> memo)
  end.

Definition deepcopy_leyline (memo : gmap loc loc) (x : loc)
  : M (loc * gmap loc loc) :=
  match memo !! x with
  | Some y => mret (y, memo)
  | None =>
      let! '(v, lt) := load_leyline x in
      let! '(lt', memo) := deepcopy_letters memo lt in
      let! y := alloc (OLeyline v lt') in
      mret (y, <[x := y]> memo)
  end.

Fixpoint deepcopy_elems (memo : gmap loc loc) (xs : list loc)
  : M (list loc * gmap loc loc) :=
  match xs with
  | [] => mret ([], memo)
  | x :: xs' =>
      let! '(y, memo) := deepcopy_leyline memo x in
      let! '(ys, memo) := deepcopy_elems memo xs' in
      mret (y :: ys, memo)
  end.

(** [copy.deepcopy(lines)] for a list of leylines. *)
Definition deepcopy_lines (x : loc) : M loc :=
  let! xs := load_lines x in
  let! '(ys, _) := deepcopy_elems ∅ xs in
  alloc (OLines ys).

(** [lines[:]] and [letters[:]]: a new list with the same elements. *)
Definition slice_lines (x : loc) : M loc :=
  let! xs := load_lines x in alloc (OLines xs).

Definition slice_letters (x : loc) : M loc :=
  let! ls := load_letters x in alloc (OLetters ls).

Definition set_so_turn (t : bool) (st : sfields) : sfields :=
  mkFields t (so_len st) (so_p1 st) (so_p2 st)
           (so_h st) (so_r st) (so_l st) (so_moves st).
Definition set_so_p1 (x : Z) (st : sfields) : sfields :=
  mkFields (so_turn st) (so_len st) x (so_p2 st)
           (so_h st) (so_r st) (so_l st) (so_moves st).
Definition set_so_p2 (x : Z) (st : sfields) : sfields :=
  mkFields (so_turn st) (so_len st) (so_p1 st) x
           (so_h st) (so_r st) (so_l st) (so_moves st).
Definition set_so_moves (m : loc) (st : sfields) : sfields :=
  mkFields (so_turn st) (so_len st) (so_p1 st) (so_p2 st)
           (so_h st) (so_r st) (so_l st) m.

(** [self.<field> = f(self.<field>)] *)
Definition update_state (self : loc) (f : sfields -> sfields) : M unit :=
  let! st := load_state self in store self (OState (f st)).

(** The objects an object holds references to. *)
Definition refs (o : obj) : list loc :=
  match o with
  | OLetters _ => []
  | OLeyline _ lt => [lt]
  | OLines xs => xs
  | OState st => [so_h st; so_r st; so_l st; so_moves st]
  end.

(** [reaches h a b]: [b] is [a] or is held, directly or through other
    objects, by [a]. *)
Inductive reaches (h : heap) : loc -> loc -> Prop :=
| reaches_refl a : reaches h a a
| reaches_step a o b c :
    h !! a = Some o -> In b (refs o) -> reaches h b c -> reaches h a c.

(** The classes of the objects. *)
Inductive kind : Type := KLetters | KLeyline | KLines | KState.

Definition kind_of (o : obj) : kind :=
  match o with
  | OLetters _ => KLetters
  | OLeyline _ _ => KLeyline
  | OLines _ => KLines
  | OState _ => KState
  end.

(** The class each reference of an object is declared to have. *)
Definition fields (o : obj) : list (loc * kind) :=
  match o with
  | OLetters _ => []
  | OLeyline _ lt => [(lt, KLetters)]
  | OLines xs => map (fun x => (x, KLeyline)) xs
  | OState st =>
      [(so_h st, KLines); (so_r st, KLines); (so_l st, KLines);
       (so_moves st, KLetters)]
  end.

Definition has_kind (h : heap) (l : loc) (k : kind) : Prop :=
  exists o, h !! l = Some o /\ kind_of o = k.

(** Every reference in the store leads to an object of the declared
    class. *)
Definition typed (h : heap) : Prop :=
  forall a o b k, h !! a = Some o -> In (b, k) (fields o) -> has_kind h b k.

#[global] Instance kind_eq_dec : EqDecision kind.
Proof. solve_decision. Defined.

(** [typed], as a test that can be run on a given store. *)
Definition typed_b (h : heap) : bool :=
  bool_decide
    (map_Forall
       (fun _ o =>
          Forall (fun bk : loc * kind => kind_of <$> h !! bk.1 = Some bk.2)
            (fields o))
       h).

(** ** Reasoning about the object store *)

(** [m] returns from [h], and [Q] holds of the result and the store. *)
Definition wp {A : Type} (m : M A) (Q : A -> heap -> Prop) (h : heap)
  : Prop :=
  exists a h', m h = Ret (a, h') /\ Q a h'.

(** The same with an exception allowed: [m] returns from [h] with [Q], or
    raises an exception of which [E] holds. *)
Definition wpe {A : Type} (m : M A) (Q : A -> heap -> Prop)
  (E : exn -> Prop) (h : heap) : Prop :=
  match m h with
  | Ret (a, h') => Q a h'
  | Raise e => E e
  | NoFuel => False
  end.

(** [h] has grown out of [h0]: what was in [h0] is as it was, and what
    has been created since holds references to created objects only. *)
Definition grows (h0 h : heap) : Prop :=
  (forall l, l ∈ dom h0 -> h !! l = h0 !! l)
  /\ (forall a o b, a ∉ dom h0 -> h !! a = Some o -> In b (refs o) ->
        b ∉ dom h0).

Definition inv (h0 h : heap) : Prop := grows h0 h /\ typed h.

(** Objects are only added. *)
Definition ext (h h' : heap) : Prop :=
  forall l o, h !! l = Some o -> h' !! l = Some o.

(** Objects keep their class. *)
Definition same_kinds (h h' : heap) : Prop :=
  forall l k, has_kind h l k -> has_kind h' l k.

(** The memo of a deep copy maps objects to created objects of the same
    class. *)
Definition memo_ok (h0 h : heap) (memo : gmap loc loc) : Prop :=
  forall x y, memo !! x = Some y ->
    (y ∉ dom h0) /\ exists k, has_kind h x k /\ has_kind h y k.

End Store.

(** ** [stonehenge_state.py] on the object store *)
Module Heap.

Export Store.

Definition StonehengeState_init (is_p1 : bool) (b : Z) (p1 p2 : Z)
  (h r l : loc) : M loc :=
  let num := (b * b + 5 * b) / 2 in
  let! moves := alloc (OLetters (py_slice_to ALPHA num)) in
  alloc (OState (mkFields is_p1 b p1 p2 h r l moves)).

Definition get_possible_moves (self : loc) : M loc :=
  let! st := load_state self in slice_letters (so_moves st).

Definition change_leyline (self ley : loc) : M unit :=
  let! '(v, lt) := load_leyline ley in
  let! ls := load_letters lt in
  let threshold := ceil_half (Z.of_nat (length ls)) in
  (if (threshold <=? py_count "1" ls) && is_int v
   then store ley (OLeyline (VStr "1") lt);;
        update_state self (fun st => set_so_p1 (so_p1 st + 1) st)
   else mret tt);;
  let! '(v, lt) := load_leyline ley in
  let! ls := load_letters lt in
  if (threshold <=? py_count "2" ls) && is_int v
  then store ley (OLeyline (VStr "2") lt);;
       update_state self (fun st => set_so_p2 (so_p2 st + 1) st)
  else mret tt.

Fixpoint change_letter_loop (self : loc) (player move : string)
  (line_list : list loc) : M unit :=
  match line_list with
  | [] => mret tt
  | leyline :: rest =>
      let! '(_, lt) := load_leyline leyline in
      let! ls := load_letters lt in
      match index_of move ls with
      | Some i =>
          let! ls' := lift (py_pop (S i) (py_insert i player ls)) in
          store lt (OLetters ls');;
          change_leyline self leyline
      | None => change_letter_loop self player move rest
      end
  end.

Definition change_letter (self : loc) (move : string) (line_list : loc)
  : M unit :=
  let! st := load_state self in
  let player := if so_turn st then "1" else "2" in
  let! xs := load_lines line_list in
  change_letter_loop self player move xs.

Definition make_move (self : loc) (move : string) : M loc :=
  let! st := load_state self in
  let! h_lines := deepcopy_lines (so_h st) in
  let! l_lines := deepcopy_lines (so_l st) in
  let! r_lines := deepcopy_lines (so_r st) in
  let! ss := StonehengeState_init (so_turn st) (so_len st) (so_p1 st)
               (so_p2 st) h_lines r_lines l_lines in
  (let! sst := load_state ss in
   let! c := slice_lines (so_h sst) in change_letter ss move c);;
  (let! sst := load_state ss in
   let! c := slice_lines (so_r sst) in change_letter ss move c);;
  (let! sst := load_state ss in
   let! c := slice_lines (so_l sst) in change_letter ss move c);;
  let! moves := get_possible_moves self in
  let! moves := slice_letters moves in
  update_state ss (set_so_moves moves);;
  (let! sst := load_state ss in
   let! ms := load_letters (so_moves sst) in
   let! ms' := lift (py_remove move ms) in
   store (so_moves sst) (OLetters ms'));;
  update_state ss (fun sst => set_so_turn (negb (so_turn sst)) sst);;
  let! sst := load_state ss in
  let threshold := win_threshold (so_len sst) in
  if (threshold <=? so_p1 sst) || (threshold <=? so_p2 sst)
  then
    let! e := alloc (OLetters []) in
    update_state ss (set_so_moves e);;
    mret ss
  else mret ss.

End Heap.

(** ** Pure states and the object store *)
Module Repr.

Import Heap.

(** A state as fresh objects in the store, nothing shared. *)
Fixpoint put_lines (ls : list Leyline) : M (list loc) :=
  match ls with
  | [] => mret []
  | ley :: rest =>
      let! lt := alloc (OLetters (letters ley)) in
      let! x := alloc (OLeyline (value ley) lt) in
      let! xs := put_lines rest in
      mret (x :: xs)
  end.

Definition put_state (s : StonehengeState) : M loc :=
  let! hs := put_lines (h_lines s) in
  let! h := alloc (OLines hs) in
  let! rs := put_lines (r_lines s) in
  let! r := alloc (OLines rs) in
  let! ls := put_lines (l_lines s) in
  let! l := alloc (OLines ls) in
  let! moves := alloc (OLetters (possible_moves s)) in
  alloc (OState (mkFields (p1_turn s) (b_length s) (p1_score s)
                   (p2_score s) h r l moves)).

(** The state that an object of the store stands for. *)
Definition get_leyline (h : heap) (x : loc) : option Leyline :=
  match h !! x with
  | Some (OLeyline v lt) =>
      match h !! lt with
      | Some (OLetters ls) => Some (mkLeyline v ls)
      | _ => None
      end
  | _ => None
  end.

Definition get_lines (h : heap) (x : loc) : option (list Leyline) :=
  match h !! x with
  | Some (OLines xs) => mapM (get_leyline h) xs
  | _ => None
  end.

Definition get_state (h : heap) (x : loc) : option StonehengeState :=
  match h !! x with
  | Some (OState st) =>
      match get_lines h (so_h st), get_lines h (so_r st),
            get_lines h (so_l st), h !! so_moves st with
      | Some hs, Some rs, Some ls, Some (OLetters ms) =>
          Some (mkState (so_turn st) (so_len st) (so_p1 st) (so_p2 st)
                  hs rs ls ms)
      | _, _, _, _ => None
      end
  | _ => None
  end.

(** The leyline objects [xs], with their letter lists [lts], hold the
    leylines [ls]. *)
Inductive holds_lines (h : heap) :
  list loc -> list loc -> list Leyline -> Prop :=
| holds_nil : holds_lines h [] [] []
| holds_cons x lt ley xs lts ls :
    h !! x = Some (OLeyline (value ley) lt) ->
    h !! lt = Some (OLetters (letters ley)) ->
    holds_lines h xs lts ls ->
    holds_lines h (x :: xs) (lt :: lts) (ley :: ls).

(** The list object [x] holds the family [ls], no leyline object and no
    letter list occurring twice in it. *)
Definition holds_family (h : heap) (x : loc) (ls : list Leyline) : Prop :=
  exists xs lts,
    h !! x = Some (OLines xs) /\ holds_lines h xs lts ls
    /\ NoDup (xs ++ lts).

(** The state object [self] holds the state [s]. *)
Definition holds_state (h : heap) (self : loc) (s : StonehengeState) : Prop :=
  exists st,
    h !! self = Some (OState st)
    /\ so_turn st = p1_turn s /\ so_len st = b_length s
    /\ so_p1 st = p1_score s /\ so_p2 st = p2_score s
    /\ holds_family h (so_h st) (h_lines s)
    /\ holds_family h (so_r st) (r_lines s)
    /\ holds_family h (so_l st) (l_lines s)
    /\ h !! so_moves st = Some (OLetters (possible_moves s)).

(** The field of a state object that holds a family. *)
Definition sel (f : family) (st : sfields) : loc :=
  match f with
  | Hoz => so_h st
  | RightDiag => so_r st
  | LeftDiag => so_l st
  end.

(** [add_score] on the fields of a state object. *)
Definition bump (who : option string) (st : sfields) : sfields :=
  match who with
  | None => st
  | Some p =>
      if String.eqb p "1" then set_so_p1 (so_p1 st + 1) st
      else set_so_p2 (so_p2 st + 1) st
  end.

(** The objects that hold one family of a state: the list of leylines,
    the leyline objects and their letter lists. *)
Definition group (st : sfields) (fam : family -> list loc * list loc)
  (f : family) : list loc :=
  sel f st :: (fam f).1 ++ (fam f).2.

(** The objects of a state under construction: the state object and the
    groups of its three families, last copied first. *)
Definition owned (ss : loc) (st : sfields)
  (fam : family -> list loc * list loc) : list loc :=
  ss :: group st fam RightDiag ++ group st fam LeftDiag ++ group st fam Hoz.

(** The state object [ss] under construction holds the scalar fields and
    the families of [s] in objects of its own, all different. *)
Definition holds_copy (h : heap) (ss : loc) (st : sfields)
  (fam : family -> list loc * list loc) (s : StonehengeState) : Prop :=
  h !! ss = Some (OState st)
  /\ so_turn st = p1_turn s /\ so_len st = b_length s
  /\ so_p1 st = p1_score s /\ so_p2 st = p2_score s
  /\ (forall f, h !! sel f st = Some (OLines (fam f).1)
                /\ holds_lines h (fam f).1 (fam f).2 (lines f s))
  /\ NoDup (owned ss st fam).

(** The store that holds the state [s] and nothing else, and the address
    of [s] in it. *)
Definition store_of (s : StonehengeState) : loc * heap :=
  match put_state s ∅ with
  | Ret r => r
  | _ => (1%positive, ∅)
  end.

End Repr.

(** * Facts about the list primitives *)

Section ListFacts.

Lemma bind_Ret_inv {A B : Type} (m : result A) (k : A -> result B) (b : B) :
  bind m k = Ret b -> exists a, m = Ret a /\ k a = Ret b.
Proof. destruct m as [a| |]; simpl; intros H; try discriminate. eauto. Qed.

Lemma index_of_None (x : string) (l : list string) :
  index_of x l = None <-> ~ In x l.
Proof.
  induction l as [|y l IH]; simpl.
  - tauto.
  - destruct (String.eqb_spec y x) as [->|Hne].
    + split; [discriminate | tauto].
    + destruct (index_of x l); simpl.
      * split; [discriminate|]. intros H.
        assert (Hn : ~ In x l) by tauto.
        apply IH in Hn. discriminate.
      * split; [|reflexivity]. intros _ [?|?]; [congruence|].
        now apply (proj1 IH).
Qed.

Lemma index_of_Some (x : string) (l : list string) (i : nat) :
  index_of x l = Some i ->
  exists l1 l2, l = l1 ++ x :: l2 /\ length l1 = i /\ ~ In x l1.
Proof.
  revert i. induction l as [|y l IH]; simpl; intros i H; [discriminate|].
  destruct (String.eqb_spec y x) as [->|Hne].
  - injection H as <-. exists [], l. simpl. tauto.
  - destruct (index_of x l) as [j|] eqn:E; simpl in H; [|discriminate].
    injection H as <-. destruct (IH j eq_refl) as (l1 & l2 & -> & <- & Hn).
    exists (y :: l1), l2. simpl.
    split; [reflexivity | split; [reflexivity | tauto]].
Qed.

Lemma py_pop_insert {A : Type} (l1 l2 : list A) (x p : A) :
  py_pop (S (length l1)) (py_insert (length l1) p (l1 ++ x :: l2))
  = Ret (l1 ++ p :: l2).
Proof.
  unfold py_pop, py_insert.
  rewrite take_app_length, drop_app_length.
  assert (Hlt : (S (length l1) <? length (l1 ++ p :: x :: l2))%nat = true).
  { apply Nat.ltb_lt. rewrite length_app. simpl. lia. }
  rewrite Hlt. clear Hlt. f_equal.
  induction l1 as [|a l1 IH]; simpl; [reflexivity|]. now f_equal.
Qed.

Lemma py_remove_Ret (x : string) (l l' : list string) :
  py_remove x l = Ret l' ->
  exists l1 l2, l = l1 ++ x :: l2 /\ l' = l1 ++ l2 /\ ~ In x l1.
Proof.
  revert l'. induction l as [|y l IH]; simpl; intros l' H; [discriminate|].
  destruct (String.eqb_spec y x) as [->|Hne].
  - injection H as <-. exists [], l. simpl. tauto.
  - apply bind_Ret_inv in H as (l'' & H1 & H2). injection H2 as <-.
    destruct (IH _ H1) as (l1 & l2 & -> & -> & Hn).
    exists (y :: l1), l2. simpl.
    split; [reflexivity | split; [reflexivity | tauto]].
Qed.

Lemma py_remove_In (x : string) (l : list string) :
  In x l -> exists l', py_remove x l = Ret l'.
Proof.
  induction l as [|y l IH]; simpl; intros H; [tauto|].
  destruct (String.eqb_spec y x) as [->|Hne]; [eauto|].
  destruct H as [?|H]; [congruence|].
  destruct (IH H) as [l' ->]. simpl. eauto.
Qed.

Lemma py_remove_not_In (x : string) (l : list string) :
  ~ In x l -> py_remove x l = Raise ValueError.
Proof.
  induction l as [|y l IH]; simpl; intros H; [reflexivity|].
  destruct (String.eqb_spec y x) as [->|Hne]; [tauto|].
  rewrite IH; [reflexivity | tauto].
Qed.

Lemma py_count_app (x : string) (l1 l2 : list string) :
  py_count x (l1 ++ l2) = py_count x l1 + py_count x l2.
Proof. unfold py_count. rewrite List.filter_app, length_app. lia. Qed.

Lemma py_count_cons (x y : string) (l : list string) :
  py_count x (y :: l) = (if String.eqb x y then 1 else 0) + py_count x l.
Proof.
  unfold py_count. simpl. destruct (String.eqb x y); simpl length; lia.
Qed.

Lemma py_count_nonneg (x : string) (l : list string) : 0 <= py_count x l.
Proof. unfold py_count. lia. Qed.

End ListFacts.

(** * The capture rule *)

Lemma change_leyline_captor (self : StonehengeState) (ley : Leyline) :
  change_leyline self ley
  = (add_score (captor ley) self, capture (captor ley) ley).
Proof.
  unfold change_leyline, captor.
  destruct (value ley) as [k|p] eqn:Ev; simpl.
  - destruct (_ <=? py_count "1" _) eqn:E1; simpl.
    + rewrite andb_false_r. reflexivity.
    + rewrite Ev. simpl. rewrite andb_true_r.
      destruct (_ <=? py_count "2" _); reflexivity.
  - rewrite !andb_false_r. rewrite Ev. simpl. rewrite andb_false_r.
    reflexivity.
Qed.

Lemma hit_or_miss (move : string) (ls : list Leyline) :
  Forall (fun k => ~ In move (letters k)) ls
  \/ exists pre ley post l1 l2, hit move ls pre ley post l1 l2.
Proof.
  induction ls as [|ley ls IH].
  - left. constructor.
  - destruct (index_of move (letters ley)) as [i|] eqn:E.
    + right. apply index_of_Some in E as (l1 & l2 & E & _ & Hn).
      exists [], ley, ls, l1, l2. now apply (hit_intro move []).
    + apply index_of_None in E. destruct IH as [IH|IH].
      * left. now constructor.
      * right. destruct IH as (pre & k & post & l1 & l2 & H).
        destruct H as [pre k post l1 l2 Hpre Hk Hn].
        exists (ley :: pre), k, post, l1, l2.
        apply (hit_intro move (ley :: pre)); auto.
Qed.

Lemma change_letter_loop_miss (player move : string) (self : StonehengeState)
  (ls : list Leyline) :
  Forall (fun k => ~ In move (letters k)) ls ->
  change_letter_loop player move self ls = Ret (self, ls).
Proof.
  induction 1 as [|ley ls Hley _ IH]; simpl; [reflexivity|].
  apply index_of_None in Hley. rewrite Hley, IH. reflexivity.
Qed.

Lemma change_letter_loop_hit (player move : string) (self : StonehengeState)
  (ls pre post : list Leyline) (ley : Leyline) (l1 l2 : list string) :
  hit move ls pre ley post l1 l2 ->
  let ley' := set_letters (l1 ++ player :: l2) ley in
  change_letter_loop player move self ls
  = Ret (add_score (captor ley') self,
         pre ++ capture (captor ley') ley' :: post).
Proof.
  intros H. destruct H as [pre ley post l1 l2 Hpre Hley Hn]. simpl.
  induction Hpre as [|k pre Hk _ IH]; simpl.
  - destruct (index_of move (letters ley)) as [i|] eqn:E.
    + apply index_of_Some in E as (m1 & m2 & E & Hi & Hm).
      assert (m1 = l1 /\ m2 = l2) as [-> ->].
      { rewrite Hley in E. clear -E Hn Hm. revert m1 E Hm.
        induction l1 as [|a l1 IH]; intros [|b m1] E Hm; simpl in *.
        - now injection E as ->.
        - injection E as -> _. tauto.
        - injection E as -> _. tauto.
        - injection E as -> E. destruct (IH ltac:(tauto) m1 E ltac:(tauto)).
          now subst. }
      subst i. rewrite Hley, py_pop_insert. simpl.
      rewrite change_leyline_captor. reflexivity.
    + apply index_of_None in E. rewrite Hley in E. exfalso. apply E.
      apply in_or_app. right. now left.
  - apply index_of_None in Hk. rewrite Hk, IH. reflexivity.
Qed.

(** [change_letter_loop] never raises. *)
Lemma change_letter_loop_total (player move : string)
  (self : StonehengeState) (ls : list Leyline) :
  exists self' ls', change_letter_loop player move self ls = Ret (self', ls').
Proof.
  destruct (hit_or_miss move ls) as [H|(pre & ley & post & l1 & l2 & H)].
  - rewrite (change_letter_loop_miss _ _ _ _ H). eauto.
  - rewrite (change_letter_loop_hit player _ self _ _ _ _ _ _ H). eauto.
Qed.

Section FamilyStep.

Lemma set_lines_same (f : family) (s : StonehengeState) :
  set_lines f (lines f s) s = s.
Proof. destruct f, s; reflexivity. Qed.

Lemma lines_set_lines (f : family) (ls : list Leyline) (s : StonehengeState) :
  lines f (set_lines f ls s) = ls.
Proof. destruct f; reflexivity. Qed.

Lemma lines_set_lines_ne (f f' : family) (ls : list Leyline)
  (s : StonehengeState) :
  f' <> f -> lines f' (set_lines f ls s) = lines f' s.
Proof. destruct f, f'; intros H; try reflexivity; congruence. Qed.

Lemma lines_add_score (f : family) (c : option string) (s : StonehengeState) :
  lines f (add_score c s) = lines f s.
Proof.
  destruct c as [p|]; simpl; [|reflexivity].
  destruct (String.eqb p "1"), f; reflexivity.
Qed.

(** The effect of one [change_letter] call, in closed form. *)
Lemma change_letter_spec (f : family) (m : string) (s : StonehengeState) :
  let player := if p1_turn s then "1" else "2" in
  (Forall (fun k => ~ In m (letters k)) (lines f s)
   /\ change_letter f m s = Ret s)
  \/ (exists pre ley post l1 l2,
        hit m (lines f s) pre ley post l1 l2
        /\ let ley' := set_letters (l1 ++ player :: l2) ley in
           change_letter f m s
           = Ret (set_lines f (pre ++ capture (captor ley') ley' :: post)
                    (add_score (captor ley') s))).
Proof.
  intros player. unfold change_letter. fold player.
  destruct (hit_or_miss m (lines f s))
    as [H|(pre & ley & post & l1 & l2 & H)].
  - left. split; [assumption|].
    rewrite (change_letter_loop_miss _ _ _ _ H). simpl.
    now rewrite set_lines_same.
  - right. exists pre, ley, post, l1, l2. split; [assumption|].
    rewrite (change_letter_loop_hit player _ s _ _ _ _ _ _ H). reflexivity.
Qed.

Lemma change_letter_total (f : family) (m : string) (s : StonehengeState) :
  exists s', change_letter f m s = Ret s'.
Proof.
  destruct (change_letter_spec f m s) as [[_ H]|(?&?&?&?&?&_&H)];
    rewrite H; eauto.
Qed.

(** What no [change_letter] call touches. *)
Lemma change_letter_frame (f : family) (m : string) (s s' : StonehengeState) :
  change_letter f m s = Ret s' ->
  p1_turn s' = p1_turn s /\ b_length s' = b_length s
  /\ possible_moves s' = possible_moves s
  /\ (forall f', f' <> f -> lines f' s' = lines f' s).
Proof.
  destruct (change_letter_spec f m s) as [[_ H]|(pre&ley&post&l1&l2&_&H)];
    rewrite H; intros [= <-]; [tauto|].
  match goal with |- context [add_score ?c s] => generalize c end.
  intros c. repeat split.
  - destruct c as [p|], f; simpl; try reflexivity;
      destruct (String.eqb p "1"); reflexivity.
  - destruct c as [p|], f; simpl; try reflexivity;
      destruct (String.eqb p "1"); reflexivity.
  - destruct c as [p|], f; simpl; try reflexivity;
      destruct (String.eqb p "1"); reflexivity.
  - intros f' Hne. rewrite lines_set_lines_ne by assumption.
    apply lines_add_score.
Qed.

End FamilyStep.

Lemma make_move_inv (s : StonehengeState) (m : string) (s' : StonehengeState) :
  make_move s m = Ret s' ->
  exists sh sr sl moves,
    change_letter Hoz m
      (StonehengeState_init (p1_turn s) (b_length s) (p1_score s)
         (p2_score s) (h_lines s) (r_lines s) (l_lines s)) = Ret sh
    /\ change_letter RightDiag m sh = Ret sr
    /\ change_letter LeftDiag m sr = Ret sl
    /\ py_remove m (possible_moves s) = Ret moves
    /\ s' = finish_move moves sl.
Proof.
  unfold make_move. intros H.
  apply bind_Ret_inv in H as (sh & Hh & H).
  apply bind_Ret_inv in H as (sr & Hr & H).
  apply bind_Ret_inv in H as (sl & Hl & H).
  apply bind_Ret_inv in H as (moves & Hm & H).
  exists sh, sr, sl, moves. repeat (split; [assumption|]).
  unfold finish_move. simpl in *.
  destruct (_ || _); now injection H as <-.
Qed.

(** [make_move] raises exactly when the move is not a possible move. *)
Lemma make_move_defined (s : StonehengeState) (m : string) :
  In m (possible_moves s) -> exists s', make_move s m = Ret s'.
Proof.
  intros Hin. unfold make_move.
  destruct (change_letter_total Hoz m
    (StonehengeState_init (p1_turn s) (b_length s) (p1_score s)
       (p2_score s) (h_lines s) (r_lines s) (l_lines s))) as [sh ->].
  simpl. destruct (change_letter_total RightDiag m sh) as [sr ->]. simpl.
  destruct (change_letter_total LeftDiag m sr) as [sl ->]. simpl.
  destruct (py_remove_In m _ Hin) as [moves Hm].
  unfold get_possible_moves. rewrite Hm. simpl.
  destruct (_ || _); eauto.
Qed.

Lemma make_move_undefined (s : StonehengeState) (m : string) :
  ~ In m (possible_moves s) -> make_move s m = Raise ValueError.
Proof.
  intros Hin. unfold make_move.
  destruct (change_letter_total Hoz m
    (StonehengeState_init (p1_turn s) (b_length s) (p1_score s)
       (p2_score s) (h_lines s) (r_lines s) (l_lines s))) as [sh ->].
  simpl. destruct (change_letter_total RightDiag m sh) as [sr ->]. simpl.
  destruct (change_letter_total LeftDiag m sr) as [sl ->]. simpl.
  unfold get_possible_moves. now rewrite (py_remove_not_In m _ Hin).
Qed.

(** * The boards built by [Stonehenge(is_p1)] *)

Section Boards.

Lemma for_each_app {A S : Type} (l1 l2 : list A) (body : S -> A -> result S)
  (acc : S) :
  for_each (l1 ++ l2) body acc
  = (let* a := for_each l1 body acc in for_each l2 body a).
Proof.
  revert acc. induction l1 as [|x l1 IH]; intros acc; simpl; [reflexivity|].
  destruct (body acc x); simpl; auto.
Qed.

Lemma for_each_ext {A S : Type} (l : list A) (body body' : S -> A -> result S)
  (acc : S) :
  (forall a x, In x l -> body a x = body' a x) ->
  for_each l body acc = for_each l body' acc.
Proof.
  revert acc. induction l as [|x l IH]; intros acc H; simpl; [reflexivity|].
  rewrite (H acc x) by now left.
  destruct (body' acc x); simpl; auto. apply IH. intros. apply H. now right.
Qed.

Lemma py_range_split (lo : Z) (k : nat) (hi : Z) :
  lo + Z.of_nat k <= hi ->
  py_range lo hi = py_range lo (lo + Z.of_nat k) ++ py_range (lo + Z.of_nat k) hi.
Proof.
  intros H. unfold py_range.
  replace (Z.to_nat (hi - lo))
    with (k + Z.to_nat (hi - (lo + Z.of_nat k)))%nat by lia.
  replace (Z.to_nat (lo + Z.of_nat k - lo)) with k by lia.
  rewrite seq_app, map_app. f_equal. simpl.
  generalize (Z.to_nat (hi - (lo + Z.of_nat k))) as j. intros j.
  change k with (0 + k)%nat at 1. generalize 0%nat as a.
  induction j as [|j IH]; intros a; simpl.
  - reflexivity.
  - f_equal; [lia|]. apply (IH (S a)).
Qed.

(** The alphabet has 26 letters and the seventh row would need a 27th:
    [a.pop(0)] raises on a board longer than 5. *)
Lemma generate_hoz_too_long (n : Z) :
  6 <= n -> generate_hoz n = Raise IndexError.
Proof.
  intros Hn. unfold generate_hoz.
  rewrite (py_range_split 1 6 (n + 2)) by lia. rewrite for_each_app.
  erewrite (for_each_ext (py_range 1 (1 + Z.of_nat 6))).
  2:{ intros [a hoz] i Hi.
      assert (Hle : (i <=? n) = true).
      { apply Z.leb_le. vm_compute in Hi. intuition lia. }
      rewrite Hle.
      instantiate (1 := fun '(a, hoz) i =>
        let* '(a, ls) := pop_front (Z.to_nat (i + 1)) a
                           (letters (Leyline_init (VInt i))) in
        Ret (a, hoz ++ [set_letters ls (Leyline_init (VInt i))])).
      reflexivity. }
  reflexivity.
Qed.

Lemma Stonehenge_init_length (is_p1 : bool) (n : Z) (g : Stonehenge) :
  1 <= n -> Stonehenge_init is_p1 n = Ret g -> n <= 5.
Proof.
  intros H1 H. destruct (Z_le_gt_dec n 5) as [|Hgt]; [assumption|].
  unfold Stonehenge_init in H. rewrite generate_hoz_too_long in H by lia.
  discriminate.
Qed.

End Boards.

Section InitialState.

Lemma wf_by_computation (s : StonehengeState) :
  (1 <=? b_length s) = true ->
  forallb (fun f =>
    forallb (fun ley =>
      negb (Nat.eqb (length (letters ley)) 0)
      && (negb (is_int (value ley))
          || ((py_count "1" (letters ley)
               <? ceil_half (Z.of_nat (length (letters ley))))
              && (py_count "2" (letters ley)
                  <? ceil_half (Z.of_nat (length (letters ley)))))))
      (lines f s)) [Hoz; RightDiag; LeftDiag] = true ->
  (Z.of_nat (length (h_lines s)) + Z.of_nat (length (r_lines s))
   + Z.of_nat (length (l_lines s)) =? 3 * (b_length s + 1)) = true ->
  (p1_score s + p2_score s
   =? n_captured (h_lines s) + n_captured (r_lines s)
      + n_captured (l_lines s)) = true ->
  over s = false ->
  forallb (fun f =>
    bool_decide (Permutation (free_cells (lines f s)) (possible_moves s)))
    [Hoz; RightDiag; LeftDiag] = true ->
  bool_decide (NoDup (possible_moves s)) = true ->
  (Z.of_nat (length (cells (h_lines s))) =? total_cells (b_length s)) = true ->
  wf s.
Proof.
  intros H1 H2 H3 H4 H5 H6 H7 H8. constructor.
  - now apply Z.leb_le.
  - intros f. apply Forall_forall. intros ley Hin.
    assert (Hf : In f [Hoz; RightDiag; LeftDiag])
      by (destruct f; simpl; tauto).
    rewrite forallb_forall in H2. specialize (H2 f Hf).
    rewrite forallb_forall in H2. apply list_elem_of_In in Hin.
    specialize (H2 ley Hin).
    apply andb_true_iff in H2 as [Hne Hc]. split.
    + intros E. rewrite E in Hne. discriminate.
    + intros Hi. rewrite Hi in Hc. simpl in Hc.
      apply andb_true_iff in Hc as [Ha Hb].
      split; now apply Z.ltb_lt.
  - now apply Z.eqb_eq.
  - now apply Z.eqb_eq.
  - rewrite H5. intros f.
    assert (Hf : In f [Hoz; RightDiag; LeftDiag])
      by (destruct f; simpl; tauto).
    rewrite forallb_forall in H6. specialize (H6 f Hf).
    now apply bool_decide_eq_true_1 in H6.
  - now apply bool_decide_eq_true_1 in H7.
  - now apply Z.eqb_eq.
Qed.

Lemma Stonehenge_init_wf (is_p1 : bool) (n : Z) (g : Stonehenge) :
  1 <= n -> Stonehenge_init is_p1 n = Ret g -> wf (current_state g).
Proof.
  intros H1 H. pose proof (Stonehenge_init_length _ _ _ H1 H) as H5.
  assert (Hn : n = 1 \/ n = 2 \/ n = 3 \/ n = 4 \/ n = 5) by lia.
  destruct is_p1;
    destruct Hn as [->|[->|[->|[->| ->]]]];
    vm_compute in H; injection H as <-;
    apply wf_by_computation; vm_compute; reflexivity.
Qed.

End InitialState.

(** * The invariant is kept by every move *)

Section Invariant.

Lemma cells_app (l1 l2 : list Leyline) : cells (l1 ++ l2) = cells l1 ++ cells l2.
Proof. apply flat_map_app. Qed.

Lemma cells_hit (pre post : list Leyline) (ley : Leyline) :
  cells (pre ++ ley :: post) = cells pre ++ letters ley ++ cells post.
Proof. now rewrite cells_app. Qed.

Lemma n_captured_hit (pre post : list Leyline) (ley : Leyline) :
  n_captured (pre ++ ley :: post)
  = n_captured pre + (if captured ley then 1 else 0) + n_captured post.
Proof.
  unfold n_captured. rewrite List.filter_app, length_app. simpl.
  destruct (captured ley); simpl length; lia.
Qed.

Lemma captor_is_int (ley : Leyline) (p : string) :
  captor ley = Some p -> is_int (value ley) = true /\ (p = "1" \/ p = "2").
Proof.
  unfold captor. destruct (is_int (value ley)); [|discriminate].
  destruct (_ <=? py_count "1" _); [intros [= <-]; auto|].
  destruct (_ <=? py_count "2" _); [intros [= <-]; auto|discriminate].
Qed.

Lemma captor_None (ley : Leyline) :
  captor ley = None -> is_int (value ley) = true ->
  py_count "1" (letters ley) < ceil_half (Z.of_nat (length (letters ley)))
  /\ py_count "2" (letters ley) < ceil_half (Z.of_nat (length (letters ley))).
Proof.
  unfold captor. intros H Hi. rewrite Hi in H.
  destruct (_ <=? py_count "1" _) eqn:E1; [discriminate|].
  destruct (_ <=? py_count "2" _) eqn:E2; [discriminate|].
  apply Z.leb_gt in E1, E2. lia.
Qed.

Lemma score_add_score (c : option string) (s : StonehengeState) :
  p1_score (add_score c s) + p2_score (add_score c s)
  = p1_score s + p2_score s + (if c is Some _ then 1 else 0).
Proof.
  destruct c as [p|]; simpl; [|lia].
  destruct (String.eqb p "1"); simpl; lia.
Qed.

Lemma scores_set_lines (f : family) (ls : list Leyline) (s : StonehengeState) :
  p1_score (set_lines f ls s) = p1_score s
  /\ p2_score (set_lines f ls s) = p2_score s.
Proof. destruct f; split; reflexivity. Qed.

(** One [change_letter] call on a family that holds the unclaimed cell
    [m]: the family keeps its shape, the cell stops being free, and the
    score moves with the number of captured leylines. *)
Lemma change_letter_wf (f : family) (m : string) (s s' : StonehengeState) :
  change_letter f m s = Ret s' ->
  claimed m = false ->
  In m (cells (lines f s)) ->
  Forall line_ok (lines f s) ->
  Forall line_ok (lines f s')
  /\ length (lines f s') = length (lines f s)
  /\ length (cells (lines f s')) = length (cells (lines f s))
  /\ p1_score s' + p2_score s' - n_captured (lines f s')
     = p1_score s + p2_score s - n_captured (lines f s)
  /\ Permutation (free_cells (lines f s)) (m :: free_cells (lines f s')).
Proof.
  intros Hs' Hm Hin Hok.
  destruct (change_letter_spec f m s)
    as [[Hmiss _]|(pre & ley & post & l1 & l2 & Hhit & E)].
  { exfalso. unfold cells in Hin. apply in_flat_map in Hin as (k & Hk & Hin).
    rewrite Forall_forall in Hmiss. apply list_elem_of_In in Hk.
    now apply (Hmiss k Hk). }
  simpl in E. rewrite E in Hs'. injection Hs' as <-.
  set (player := if p1_turn s then "1" else "2") in *.
  assert (Hpl : claimed player = true) by (unfold player; now destruct (p1_turn s)).
  set (ley' := set_letters (l1 ++ player :: l2) ley) in *.
  rewrite lines_set_lines.
  destruct (scores_set_lines f (pre ++ capture (captor ley') ley' :: post)
              (add_score (captor ley') s)) as [-> ->].
  rewrite score_add_score.
  destruct Hhit as [pre ley post l1 l2 Hpre Hley Hn].
  apply Forall_app in Hok as [Hok1 Hok2].
  apply Forall_cons in Hok2 as [Hokl Hok2].
  assert (Hlet : letters (capture (captor ley') ley') = l1 ++ player :: l2).
  { destruct (captor ley'); reflexivity. }
  repeat split.
  - apply Forall_app. split; [assumption|]. apply Forall_cons.
    split; [|assumption]. split.
    + rewrite Hlet. now destruct l1.
    + destruct (captor ley') eqn:Ec; simpl; [discriminate|].
      intros Hi. exact (captor_None ley' Ec Hi).
  - rewrite !length_app. reflexivity.
  - rewrite !cells_hit, !length_app, Hlet, Hley, !length_app. reflexivity.
  - rewrite !n_captured_hit.
    destruct (captor ley') eqn:Ec; simpl.
    + apply captor_is_int in Ec as [Ec _]. unfold captured. simpl in Ec.
      rewrite Ec. simpl. lia.
    + change (captured ley') with (captured ley). lia.
  - unfold free_cells. rewrite !cells_hit, Hlet, Hley.
    rewrite !List.filter_app. cbn [List.filter]. rewrite Hm, Hpl.
    cbn [negb]. rewrite Permutation_middle. apply Permutation_app_head.
    symmetry. rewrite <- !app_assoc. simpl. apply Permutation_middle.
Qed.

Lemma finish_move_fields (moves : list string) (ss : StonehengeState) :
  let s' := finish_move moves ss in
  (forall f, lines f s' = lines f ss)
  /\ p1_score s' = p1_score ss /\ p2_score s' = p2_score ss
  /\ b_length s' = b_length ss /\ p1_turn s' = negb (p1_turn ss)
  /\ possible_moves s' = (if over s' then [] else moves).
Proof.
  unfold finish_move, over. simpl.
  destruct (_ || _) eqn:E; simpl; rewrite ?E;
    (split; [intros []; reflexivity | tauto]).
Qed.

Lemma over_no_moves (s : StonehengeState) (m : string) :
  wf s -> In m (possible_moves s) -> over s = false.
Proof.
  intros Hwf Hin. pose proof (wf_moves s Hwf) as H.
  destruct (over s); [|reflexivity]. rewrite H in Hin. destruct Hin.
Qed.

Lemma free_cells_In (ls : list Leyline) (m : string) :
  In m (free_cells ls) -> In m (cells ls) /\ claimed m = false.
Proof.
  unfold free_cells. rewrite List.filter_In. intros [H1 H2].
  split; [assumption|]. now destruct (claimed m).
Qed.

Theorem make_move_wf (s : StonehengeState) (m : string) (s' : StonehengeState) :
  wf s -> make_move s m = Ret s' -> wf s'.
Proof.
  intros Hwf Hmv.
  destruct (make_move_inv _ _ _ Hmv) as (sh & sr & sl & moves & Hh & Hr & Hl & Hrm & ->).
  apply py_remove_Ret in Hrm as (p1 & p2 & Epm & -> & Hnp).
  assert (Hin : In m (possible_moves s)).
  { rewrite Epm. apply in_or_app. right. now left. }
  pose proof (over_no_moves _ _ Hwf Hin) as Hover.
  pose proof (wf_moves s Hwf) as Hperm. rewrite Hover in Hperm.
  assert (Hfree : forall f, In m (cells (lines f s)) /\ claimed m = false).
  { intros f. apply free_cells_In.
    eapply Permutation_in; [symmetry; apply Hperm | assumption]. }
  set (s0 := StonehengeState_init _ _ _ _ _ _ _) in Hh.
  assert (H0 : forall f, lines f s0 = lines f s) by (intros []; reflexivity).
  destruct (change_letter_frame _ _ _ _ Hh) as (Th & Bh & _ & Fh).
  destruct (change_letter_frame _ _ _ _ Hr) as (Tr & Br & _ & Fr).
  destruct (change_letter_frame _ _ _ _ Hl) as (Tl & Bl & _ & Fl).
  destruct (change_letter_wf Hoz m s0 sh Hh (proj2 (Hfree Hoz)))
    as (Ah1 & Ah2 & Ah3 & Ah4 & Ah5).
  { rewrite H0. apply Hfree. } { rewrite H0. apply (wf_lines s Hwf). }
  destruct (change_letter_wf RightDiag m sh sr Hr (proj2 (Hfree Hoz)))
    as (Ar1 & Ar2 & Ar3 & Ar4 & Ar5).
  { rewrite Fh, H0 by discriminate. apply Hfree. }
  { rewrite Fh, H0 by discriminate. apply (wf_lines s Hwf). }
  destruct (change_letter_wf LeftDiag m sr sl Hl (proj2 (Hfree Hoz)))
    as (Al1 & Al2 & Al3 & Al4 & Al5).
  { rewrite Fr, Fh, H0 by discriminate. apply Hfree. }
  { rewrite Fr, Fh, H0 by discriminate. apply (wf_lines s Hwf). }
  destruct (finish_move_fields (p1 ++ p2) sl) as (Zl & Z1 & Z2 & Zb & Zt & Zm).
  set (s' := finish_move (p1 ++ p2) sl) in *.
  assert (EH : lines Hoz s' = lines Hoz sh).
  { rewrite Zl, Fl, Fr by discriminate. reflexivity. }
  assert (ER : lines RightDiag s' = lines RightDiag sr).
  { rewrite Zl, Fl by discriminate. reflexivity. }
  assert (EL : lines LeftDiag s' = lines LeftDiag sl) by apply Zl.
  rewrite (H0 Hoz) in Ah2, Ah3, Ah4, Ah5.
  rewrite Fh, (H0 RightDiag) in Ar2, Ar3, Ar4, Ar5 by discriminate.
  rewrite Fr, Fh, (H0 LeftDiag) in Al2, Al3, Al4, Al5 by discriminate.
  rewrite <- EH in Ah1, Ah2, Ah3, Ah4, Ah5.
  rewrite <- ER in Ar1, Ar2, Ar3, Ar4, Ar5.
  rewrite <- EL in Al1, Al2, Al3, Al4, Al5.
  simpl in *.
  constructor.
  - rewrite Zb, Bl, Br, Bh. apply (wf_size s Hwf).
  - intros []; assumption.
  - rewrite Zb, Bl, Br, Bh. pose proof (wf_count s Hwf). simpl in *. lia.
  - pose proof (wf_score s Hwf). simpl in *.
    change (p1_score s0) with (p1_score s) in *.
    change (p2_score s0) with (p2_score s) in *. lia.
  - rewrite Zm. destruct (over s'); [reflexivity|].
    intros f. apply (Permutation_cons_inv (a := m)).
    transitivity (free_cells (lines f s)).
    + symmetry. destruct f; assumption.
    + rewrite (Hperm f), Epm. symmetry. apply Permutation_middle.
  - rewrite Zm. destruct (over s'); [constructor|].
    pose proof (wf_nodup s Hwf) as Hnd. rewrite Epm in Hnd.
    apply NoDup_ListNoDup. apply NoDup_ListNoDup in Hnd.
    now apply List.NoDup_remove_1 in Hnd.
  - rewrite Zb, Bl, Br, Bh. pose proof (wf_total s Hwf). simpl in *. lia.
Qed.

Lemma reachable_wf (s : StonehengeState) : reachable s -> wf s.
Proof.
  induction 1 as [is_p1 n g Hn Hg | s m s' _ IH Hm].
  - exact (Stonehenge_init_wf _ _ _ Hn Hg).
  - exact (make_move_wf _ _ _ IH Hm).
Qed.

End Invariant.

(** * Terminal states *)

Section Terminal.

Lemma is_over_over (g : Stonehenge) (s : StonehengeState) :
  is_over g s = over s.
Proof. unfold is_over, over. now destruct (_ || _). Qed.

Lemma over_iff (s : StonehengeState) :
  over s = true
  <-> win_threshold (b_length s) <= p1_score s
      \/ win_threshold (b_length s) <= p2_score s.
Proof. unfold over. rewrite orb_true_iff, !Z.leb_le. tauto. Qed.

Lemma make_move_In (s : StonehengeState) (m : string) (s' : StonehengeState) :
  make_move s m = Ret s' -> In m (possible_moves s).
Proof.
  intros H. destruct (in_dec string_dec m (possible_moves s)) as [|Hn];
    [assumption|].
  rewrite (make_move_undefined _ _ Hn) in H. discriminate.
Qed.

(** The fields of the state returned by [make_move] that do not depend on
    the capture rule. *)
Lemma make_move_fields (s : StonehengeState) (m : string)
  (s' : StonehengeState) :
  make_move s m = Ret s' ->
  b_length s' = b_length s
  /\ p1_turn s' = negb (p1_turn s)
  /\ exists moves,
       py_remove m (possible_moves s) = Ret moves
       /\ possible_moves s' = (if over s' then [] else moves).
Proof.
  intros H.
  destruct (make_move_inv _ _ _ H)
    as (sh & sr & sl & moves & Hh & Hr & Hl & Hrm & ->).
  destruct (change_letter_frame _ _ _ _ Hh) as (Th & Bh & _ & _).
  destruct (change_letter_frame _ _ _ _ Hr) as (Tr & Br & _ & _).
  destruct (change_letter_frame _ _ _ _ Hl) as (Tl & Bl & _ & _).
  destruct (finish_move_fields moves sl) as (_ & _ & _ & Zb & Zt & Zm).
  simpl in *. rewrite Zb, Zt, Bl, Br, Bh, Tl, Tr, Th. eauto.
Qed.

(** The states of a game have the board length it was built with. *)
Lemma reachable_length (s : StonehengeState) :
  reachable s -> 1 <= b_length s <= 5.
Proof.
  induction 1 as [is_p1 n g Hn Hg | s m s' _ IH Hm].
  - pose proof (Stonehenge_init_length _ _ _ Hn Hg) as H5.
    unfold Stonehenge_init in Hg.
    apply bind_Ret_inv in Hg as (hz & _ & Hg).
    apply bind_Ret_inv in Hg as (rd & _ & Hg).
    apply bind_Ret_inv in Hg as (ld & _ & Hg).
    injection Hg as <-. simpl. lia.
  - destruct (make_move_fields _ _ _ Hm) as (Hb & _). rewrite Hb. exact IH.
Qed.

(** C5: on every state whose board length is within the bound on which
    the threshold of the source is exact, [is_over] holds exactly when a
    score has reached [ceil(3 * (b_length + 1) / 2)]; in a play of a game,
    where the length is from 1 to 5, the state before a
    move is never terminal, the board length and so the threshold do not
    change, a state that is terminal after the move has no possible moves
    and rejects every further move, and a state that is not terminal keeps
    every possible move but the one played. *)
Theorem terminal_detection (g : Stonehenge) (s : StonehengeState) (m : string)
  (s' : StonehengeState) :
  reachable s ->
  make_move s m = Ret s' ->
  (forall t, exact_length (b_length t) ->
             (is_over g t = true
              <-> win_threshold (b_length t) <= p1_score t
                  \/ win_threshold (b_length t) <= p2_score t))
  /\ exact_length (b_length s)
  /\ is_over g s = false
  /\ p1_score s < win_threshold (b_length s)
  /\ p2_score s < win_threshold (b_length s)
  /\ b_length s' = b_length s
  /\ (is_over g s' = true ->
      possible_moves s' = []
      /\ forall m', make_move s' m' = Raise ValueError)
  /\ (is_over g s' = false ->
      py_remove m (possible_moves s) = Ret (possible_moves s')).
Proof.
  intros Hr Hm.
  split; [intros t _; rewrite is_over_over; apply over_iff|].
  split.
  { pose proof (reachable_length _ Hr). unfold exact_length. lia. }
  rewrite !is_over_over.
  pose proof (over_no_moves _ _ (reachable_wf _ Hr) (make_move_In _ _ _ Hm))
    as Hs.
  destruct (make_move_fields _ _ _ Hm) as (Hb & _ & moves & Hrm & Hpm).
  split; [assumption|].
  assert (Hlt : ~ (win_threshold (b_length s) <= p1_score s
                   \/ win_threshold (b_length s) <= p2_score s)).
  { rewrite <- over_iff. now rewrite Hs. }
  split; [lia|]. split; [lia|]. split; [assumption|]. split.
  - intros Ho. rewrite Ho in Hpm. split; [assumption|].
    intros m'. apply make_move_undefined. now rewrite Hpm.
  - intros Ho. rewrite Ho in Hpm. now rewrite Hpm.
Qed.

Lemma terminal_detection_witness :
  reachable (current_state (new_game true 1))
  /\ make_move (current_state (new_game true 1)) "A"
     = Ret (current_state (after (new_game true 1) ["A"]))
  /\ is_over (new_game true 1) (current_state (new_game true 1)) = false.
Proof.
  assert (Hr : reachable (current_state (new_game true 1))).
  { apply (reachable_init true 1); [lia | vm_compute; reflexivity]. }
  match goal with |- _ /\ ?M /\ _ => assert (Hm : M) end.
  { vm_compute; reflexivity. }
  split; [exact Hr|]. split; [exact Hm|].
  exact (proj1 (proj2 (proj2
           (terminal_detection (new_game true 1) _ "A" _ Hr Hm)))).
Defined.

End Terminal.

(** * Rejected moves *)

Section Rejection.

Lemma ALPHA_NoDup : NoDup ALPHA.
Proof. apply (bool_decide_eq_true_1 _). vm_compute. reflexivity. Qed.

Lemma py_slice_to_NoDup (l : list string) (k : Z) :
  NoDup l -> NoDup (py_slice_to l k).
Proof.
  intros H. unfold py_slice_to.
  destruct (0 <=? k);
    match goal with |- NoDup (take ?n l) =>
      rewrite <- (take_drop n l) in H; now apply NoDup_app in H end.
Qed.

(** No state object lists a move twice. *)
Lemma constructed_NoDup (s : StonehengeState) :
  constructed s -> NoDup (possible_moves s).
Proof.
  induction 1 as [is_p1 b p1 p2 h r l | s m s' _ IH Hm].
  - apply py_slice_to_NoDup, ALPHA_NoDup.
  - destruct (make_move_fields _ _ _ Hm) as (_ & _ & moves & Hrm & ->).
    destruct (over s'); [constructor|].
    apply py_remove_Ret in Hrm as (l1 & l2 & E & -> & _).
    rewrite E in IH. apply NoDup_ListNoDup. apply NoDup_ListNoDup in IH.
    now apply List.NoDup_remove_1 in IH.
Qed.

(** C9: a possible move is accepted once, and the state it returns
    rejects the same move with [ValueError], returning no state. *)
Theorem repeated_move_rejected (s : StonehengeState) (m : string) :
  constructed s ->
  In m (possible_moves s) ->
  exists s', make_move s m = Ret s' /\ make_move s' m = Raise ValueError.
Proof.
  intros Hc Hin. destruct (make_move_defined _ _ Hin) as [s' Hm].
  exists s'. split; [assumption|]. apply make_move_undefined.
  destruct (make_move_fields _ _ _ Hm) as (_ & _ & moves & Hrm & ->).
  destruct (over s'); [tauto|].
  apply py_remove_Ret in Hrm as (l1 & l2 & E & -> & Hn).
  pose proof (constructed_NoDup _ Hc) as Hnd. rewrite E in Hnd.
  apply NoDup_ListNoDup in Hnd. apply List.NoDup_remove_2 in Hnd.
  assumption.
Qed.

Lemma repeated_move_rejected_witness :
  constructed (current_state (new_game true 2))
  /\ In "D" (possible_moves (current_state (new_game true 2)))
  /\ exists s', make_move (current_state (new_game true 2)) "D" = Ret s'
                /\ make_move s' "D" = Raise ValueError.
Proof.
  assert (Hc : constructed (current_state (new_game true 2))).
  { exact (constructed_init true 2 0 0
             (hoz_lines (new_game true 2)) (right_lines (new_game true 2))
             (left_lines (new_game true 2))). }
  assert (Hin : In "D" (possible_moves (current_state (new_game true 2)))).
  { vm_compute. tauto. }
  split; [exact Hc|]. split; [exact Hin|].
  exact (repeated_move_rejected _ "D" Hc Hin).
Defined.

End Rejection.

(** * Terminal nodes of the search *)

Section Winner.

Lemma is_over_winner (g : Stonehenge) :
  is_over g (current_state g) = true ->
  is_winner g "p2" || is_winner g "p1" = true.
Proof.
  unfold is_over, is_winner. simpl.
  destruct (_ <=? p1_score _); destruct (_ <=? p2_score _);
    simpl; auto.
Qed.

(** C10: on a game whose current state is over, [is_winner] holds for one
    of the two players, so [recursive_helper] and [iterative_helper]
    return [-1], and the loop of [iterative_helper] scores a terminal node
    on top of its stack [-1]; the branch that scores [0] is never taken. *)
Theorem terminal_has_winner (g : Stonehenge) :
  is_over g (current_state g) = true ->
  (is_winner g "p1" = true \/ is_winner g "p2" = true)
  /\ (forall fuel, recursive_helper (S fuel) g = Ret (-1))
  /\ (forall fuel, iterative_helper (S fuel) g = Ret (-1))
  /\ (forall (h : store) (c : nat) (below : list nat) (node : GameTree),
        h !! c = Some node -> game node = g ->
        iterative_step (h, c :: below)
        = Ret (<[c := set_score (-1) node]> h, below)).
Proof.
  intros Ho. pose proof (is_over_winner g Ho) as Hw.
  split; [apply orb_true_iff in Hw; tauto|]. split; [|split].
  - intros fuel. simpl. now rewrite Ho, Hw.
  - intros fuel. unfold iterative_helper. simpl. rewrite Ho, Hw. simpl.
    now destruct fuel.
  - intros h c below node Hc <-. unfold iterative_step, deref.
    rewrite Hc. simpl. now rewrite Ho, Hw.
Qed.

Lemma terminal_has_winner_witness :
  is_over (after (new_game true 1) ["A"])
    (current_state (after (new_game true 1) ["A"])) = true
  /\ recursive_helper 1 (after (new_game true 1) ["A"]) = Ret (-1).
Proof.
  match goal with |- ?O /\ _ => assert (Ho : O) by (vm_compute; reflexivity) end.
  split; [exact Ho|].
  exact (proj1 (proj2 (terminal_has_winner _ Ho)) O).
Defined.

End Winner.

(** * Captures are permanent *)

Section Permanence.

Lemma keeps_owner_refl (ls : list Leyline) : Forall2 keeps_owner ls ls.
Proof. induction ls; constructor; auto. intros p Hp. exact Hp. Qed.

Lemma keeps_owner_trans (l1 l2 l3 : list Leyline) :
  Forall2 keeps_owner l1 l2 -> Forall2 keeps_owner l2 l3 ->
  Forall2 keeps_owner l1 l3.
Proof.
  intros H12. revert l3. induction H12 as [|a b l1 l2 Hab _ IH];
    intros l3 H23; inversion H23; subst; constructor; auto.
  intros p Hp. auto.
Qed.

Lemma change_letter_keeps (f : family) (m : string) (s s' : StonehengeState) :
  change_letter f m s = Ret s' ->
  forall f', Forall2 keeps_owner (lines f' s) (lines f' s').
Proof.
  intros H f'.
  destruct (change_letter_spec f m s)
    as [[_ E]|(pre & ley & post & l1 & l2 & Hhit & E)];
    simpl in E; rewrite E in H; injection H as <-.
  { apply keeps_owner_refl. }
  destruct (decide (f' = f)) as [->|Hne].
  - rewrite lines_set_lines. destruct Hhit as [pre ley post l1 l2 _ _ _].
    apply Forall2_app; [apply keeps_owner_refl|].
    constructor; [|apply keeps_owner_refl].
    intros p Hp.
    match goal with |- context [captor ?k] =>
      destruct (captor k) as [q|] eqn:Ec end; simpl; [|assumption].
    apply captor_is_int in Ec as [Ec _]. simpl in Ec. rewrite Hp in Ec.
    discriminate.
  - rewrite lines_set_lines_ne, lines_add_score by assumption.
    apply keeps_owner_refl.
Qed.

Lemma make_move_keeps (s : StonehengeState) (m : string)
  (s' : StonehengeState) :
  make_move s m = Ret s' ->
  forall f, Forall2 keeps_owner (lines f s) (lines f s').
Proof.
  intros H f.
  destruct (make_move_inv _ _ _ H)
    as (sh & sr & sl & moves & Hh & Hr & Hl & _ & ->).
  destruct (finish_move_fields moves sl) as (Zl & _). simpl in Zl.
  rewrite Zl.
  eapply keeps_owner_trans; [|exact (change_letter_keeps _ _ _ _ Hl f)].
  eapply keeps_owner_trans; [|exact (change_letter_keeps _ _ _ _ Hr f)].
  pose proof (change_letter_keeps _ _ _ _ Hh f) as H0.
  destruct f; exact H0.
Qed.

Lemma play_keeps (ms : list string) (s s' : StonehengeState) :
  play s ms = Ret s' ->
  forall f, Forall2 keeps_owner (lines f s) (lines f s').
Proof.
  revert s. induction ms as [|m ms IH]; simpl; intros s H f.
  - injection H as <-. apply keeps_owner_refl.
  - apply bind_Ret_inv in H as (s1 & H1 & H2).
    eapply keeps_owner_trans; [exact (make_move_keeps _ _ _ H1 f)|].
    exact (IH _ H2 f).
Qed.

(** C4: a leyline whose value is a player tag keeps that value through
    every later sequence of [make_move] calls, in each of the three
    families. *)
Theorem capture_permanent (s : StonehengeState) (ms : list string)
  (s' : StonehengeState) (f : family) (i : nat) (ley : Leyline)
  (p : string) :
  play s ms = Ret s' ->
  lines f s !! i = Some ley ->
  value ley = VStr p ->
  exists ley', lines f s' !! i = Some ley' /\ value ley' = VStr p.
Proof.
  intros Hp Hi Hv.
  destruct (Forall2_lookup_l _ _ _ _ _ (play_keeps _ _ _ Hp f) Hi)
    as (ley' & Hi' & Hk).
  exists ley'. split; [assumption|]. now apply Hk.
Qed.

Lemma capture_permanent_witness :
  play (current_state (after (new_game true 2) ["A"])) ["B"; "C"]
  = Ret (current_state (after (new_game true 2) ["A"; "B"; "C"]))
  /\ lines Hoz (current_state (after (new_game true 2) ["A"])) !! O
     = Some (mkLeyline (VStr "1") ["1"; "B"])
  /\ exists ley',
       lines Hoz (current_state (after (new_game true 2) ["A"; "B"; "C"]))
         !! O = Some ley'
       /\ value ley' = VStr "1".
Proof.
  match goal with |- ?P /\ ?I /\ _ =>
    assert (Hp : P) by (vm_compute; reflexivity);
    assert (Hi : I) by (vm_compute; reflexivity) end.
  split; [exact Hp|]. split; [exact Hi|].
  exact (capture_permanent _ _ _ Hoz O _ "1" Hp Hi eq_refl).
Defined.

End Permanence.

(** * The capture rule of [make_move] *)

Section CaptureRule.

Lemma change_letter_hit (f : family) (m : string) (s : StonehengeState)
  (pre post : list Leyline) (ley : Leyline) (l1 l2 : list string) :
  hit m (lines f s) pre ley post l1 l2 ->
  let ley' := set_letters (l1 ++ (if p1_turn s then "1" else "2") :: l2) ley in
  change_letter f m s
  = Ret (set_lines f (pre ++ capture (captor ley') ley' :: post)
           (add_score (captor ley') s)).
Proof.
  intros H. simpl. unfold change_letter.
  rewrite (change_letter_loop_hit _ _ s _ _ _ _ _ _ H). reflexivity.
Qed.

(** Each family is changed by its own [change_letter] call, made on a
    state that still holds the family as the receiver has it. *)
Lemma make_move_family (s : StonehengeState) (m : string)
  (s' : StonehengeState) (f : family) :
  make_move s m = Ret s' ->
  exists a a',
    change_letter f m a = Ret a' /\ lines f a = lines f s
    /\ p1_turn a = p1_turn s /\ lines f s' = lines f a'.
Proof.
  intros H.
  destruct (make_move_inv _ _ _ H)
    as (sh & sr & sl & moves & Hh & Hr & Hl & _ & ->).
  destruct (change_letter_frame _ _ _ _ Hh) as (Th & _ & _ & Fh).
  destruct (change_letter_frame _ _ _ _ Hr) as (Tr & _ & _ & Fr).
  destruct (change_letter_frame _ _ _ _ Hl) as (Tl & _ & _ & Fl).
  destruct (finish_move_fields moves sl) as (Zl & _). simpl in Zl.
  destruct f.
  - eexists _, sh. split; [exact Hh|]. repeat split.
    now rewrite Zl, Fl, Fr by discriminate.
  - exists sh, sr. split; [exact Hr|]. split; [now rewrite Fh by discriminate|].
    split; [exact Th|]. now rewrite Zl, Fl by discriminate.
  - exists sr, sl. split; [exact Hl|].
    split; [now rewrite Fr, Fh by discriminate|].
    split; [now rewrite Tr, Th|]. apply Zl.
Qed.

Lemma claimed_count (x p : string) :
  claimed x = false -> p = "1" \/ p = "2" -> String.eqb p x = false.
Proof.
  unfold claimed. intros H [-> | ->]; apply orb_false_iff in H as [H1 H2];
    now rewrite String.eqb_sym.
Qed.

(** C3, as the code has it: in each family the first leyline holding
    the played cell gets the mover's tag in that cell; while it is
    uncaptured it becomes owned by player 1, or by player 2, exactly
    when that player's count in it is at least [ceil(len / 2)], and it
    stays as it was otherwise; a captured leyline keeps its owner.  On
    the board of length 1, player 1 claiming [A] captures the leyline
    [A, B] and also the two other leylines through [A], so that
    [p1_score] becomes 3, the win threshold, and the game is over. *)
Theorem capture_rule :
  (forall (s : StonehengeState) (m : string) (s' : StonehengeState)
          (f : family) (pre post : list Leyline) (ley : Leyline)
          (l1 l2 : list string),
      reachable s ->
      make_move s m = Ret s' ->
      hit m (lines f s) pre ley post l1 l2 ->
      let ls := l1 ++ (if p1_turn s then "1" else "2") :: l2 in
      let threshold := ceil_half (Z.of_nat (length ls)) in
      exists ley',
        lines f s' = pre ++ ley' :: post
        /\ letters ley' = ls
        /\ (is_int (value ley) = false -> value ley' = value ley)
        /\ (is_int (value ley) = true ->
            (value ley' = VStr "1" <-> threshold <= py_count "1" ls)
            /\ (value ley' = VStr "2" <-> threshold <= py_count "2" ls)
            /\ (value ley' = value ley
                <-> py_count "1" ls < threshold
                    /\ py_count "2" ls < threshold)))
  /\ (exists s1,
        make_move (current_state (new_game true 1)) "A" = Ret s1
        /\ h_lines (current_state (new_game true 1))
           = [mkLeyline (VInt 1) ["A"; "B"]; mkLeyline (VInt 2) ["C"]]
        /\ h_lines s1
           = [mkLeyline (VStr "1") ["1"; "B"]; mkLeyline (VInt 2) ["C"]]
        /\ r_lines s1
           = [mkLeyline (VStr "1") ["1"]; mkLeyline (VInt 2) ["B"; "C"]]
        /\ l_lines s1
           = [mkLeyline (VInt 1) ["B"]; mkLeyline (VStr "1") ["C"; "1"]]
        /\ p1_score s1 = 3
        /\ win_threshold (b_length s1) = 3
        /\ is_over (new_game true 1) s1 = true).
Proof.
  split.
  - intros s m s' f pre post ley l1 l2 Hr Hm Hhit ls threshold.
    pose proof (reachable_wf _ Hr) as Hwf.
    pose proof (make_move_In _ _ _ Hm) as Hin.
    pose proof (over_no_moves _ _ Hwf Hin) as Hover.
    pose proof (wf_moves s Hwf) as Hperm. rewrite Hover in Hperm.
    assert (Hfree : claimed m = false).
    { apply (free_cells_In (lines f s)).
      eapply Permutation_in; [symmetry; apply Hperm | assumption]. }
    destruct (make_move_family _ _ _ f Hm) as (a & a' & Ha & La & Ta & ->).
    rewrite <- La in Hhit. rewrite (change_letter_hit _ _ _ _ _ _ _ _ Hhit) in Ha.
    injection Ha as <-. rewrite lines_set_lines, Ta. fold ls.
    set (ley0 := set_letters ls ley).
    exists (capture (captor ley0) ley0). split; [reflexivity|].
    split; [destruct (captor ley0); reflexivity|].
    assert (Hok : line_ok ley).
    { pose proof (wf_lines s Hwf f) as Hall. rewrite <- La in Hall.
      destruct Hhit. apply Forall_app in Hall as [_ Hall].
      now apply Forall_cons in Hall as [Hall _]. }
    assert (Hlet : letters ley = l1 ++ m :: l2) by now destruct Hhit.
    unfold captor. change (value ley0) with (value ley).
    change (letters ley0) with ls. fold threshold.
    destruct (is_int (value ley)) eqn:Ei.
    + split; [discriminate|]. intros _.
      destruct Hok as [_ Hok]. specialize (Hok Ei).
      rewrite Hlet in Hok.
      assert (Hlen : length (l1 ++ m :: l2) = length ls).
      { unfold ls. rewrite !length_app. reflexivity. }
      rewrite Hlen in Hok. fold threshold in Hok.
      rewrite !py_count_app, !py_count_cons in Hok.
      rewrite (claimed_count m "1"), (claimed_count m "2") in Hok by auto.
      assert (Hc : py_count "1" ls < threshold \/ py_count "2" ls < threshold).
      { unfold ls. rewrite !py_count_app, !py_count_cons.
        destruct (p1_turn s); simpl; lia. }
      destruct (value ley) as [k|q] eqn:Ev; [|discriminate].
      destruct (threshold <=? py_count "1" ls) eqn:E1;
        [apply Z.leb_le in E1 | apply Z.leb_gt in E1];
        (destruct (threshold <=? py_count "2" ls) eqn:E2;
         [apply Z.leb_le in E2 | apply Z.leb_gt in E2]);
        simpl; rewrite ?Ev;
        repeat split; intros; try discriminate; try lia; try reflexivity.
    + split; [reflexivity|]. discriminate.
  - eexists. split; [vm_compute; reflexivity|].
    repeat split; vm_compute; reflexivity.
Qed.

Lemma capture_rule_witness :
  reachable (current_state (new_game true 2))
  /\ make_move (current_state (new_game true 2)) "D"
     = Ret (current_state (after (new_game true 2) ["D"]))
  /\ hit "D" (lines Hoz (current_state (new_game true 2)))
       [mkLeyline (VInt 1) ["A"; "B"]] (mkLeyline (VInt 2) ["C"; "D"; "E"])
       [mkLeyline (VInt 3) ["F"; "G"]] ["C"] ["E"]
  /\ exists ley',
       lines Hoz (current_state (after (new_game true 2) ["D"]))
       = [mkLeyline (VInt 1) ["A"; "B"]] ++ ley'
         :: [mkLeyline (VInt 3) ["F"; "G"]]
       /\ letters ley' = ["C"; "1"; "E"].
Proof.
  assert (Hr : reachable (current_state (new_game true 2))).
  { apply (reachable_init true 2); [lia | vm_compute; reflexivity]. }
  match goal with |- _ /\ ?M /\ _ =>
    assert (Hm : M) by (vm_compute; reflexivity) end.
  assert (Hh : hit "D" (lines Hoz (current_state (new_game true 2)))
       [mkLeyline (VInt 1) ["A"; "B"]] (mkLeyline (VInt 2) ["C"; "D"; "E"])
       [mkLeyline (VInt 3) ["F"; "G"]] ["C"] ["E"]).
  { apply (hit_intro "D" [mkLeyline (VInt 1) ["A"; "B"]]
             (mkLeyline (VInt 2) ["C"; "D"; "E"])
             [mkLeyline (VInt 3) ["F"; "G"]] ["C"] ["E"]).
    - repeat constructor; simpl; intuition discriminate.
    - reflexivity.
    - simpl; intuition discriminate. }
  split; [exact Hr|]. split; [exact Hm|]. split; [exact Hh|].
  destruct (proj1 capture_rule _ _ _ Hoz _ _ _ _ _ Hr Hm Hh)
    as (ley' & H1 & H2 & _).
  exists ley'. split; [exact H1 | exact H2].
Defined.

(** The example of C3 as the specification gives it, with [p1_score]
    becoming 1 and the game not over, never happens. *)
Lemma capture_example_refuted :
  ~ (exists s1,
       make_move (current_state (new_game true 1)) "A" = Ret s1
       /\ p1_score s1 = 1
       /\ is_over (new_game true 1) s1 = false).
Proof.
  intros (s1 & Hm & Hs & _). vm_compute in Hm. injection Hm as <-.
  discriminate.
Qed.

End CaptureRule.

(** * Counting cells *)

Section CellCount.

Lemma claimed_free_length (ls : list Leyline) :
  (length (claimed_cells ls) + length (free_cells ls))%nat
  = length (cells ls).
Proof. unfold claimed_cells, free_cells. apply List.filter_length. Qed.

(** C6, as the code has it: in a reachable state that is not over the
    possible moves and the claimed cells add up to the
    [(b_length^2 + 5 * b_length) / 2] cells of the board; a reachable
    state that is over has no possible moves, whatever cells are left. *)
Theorem cell_count (g : Stonehenge) (s : StonehengeState) :
  reachable s ->
  (is_over g s = false ->
   Z.of_nat (length (possible_moves s))
   + Z.of_nat (length (claimed_cells (h_lines s)))
   = total_cells (b_length s))
  /\ (is_over g s = true ->
      possible_moves s = []
      /\ Z.of_nat (length (claimed_cells (h_lines s)))
         <= total_cells (b_length s)).
Proof.
  intros Hr. pose proof (reachable_wf _ Hr) as Hwf. rewrite is_over_over.
  pose proof (wf_moves s Hwf) as Hm. pose proof (wf_total s Hwf) as Ht.
  pose proof (claimed_free_length (h_lines s)) as Hc.
  split; intros Ho; rewrite Ho in Hm.
  - pose proof (Permutation_length (Hm Hoz)) as Hl. simpl in Hl. lia.
  - split; [assumption | lia].
Qed.

Lemma cell_count_witness :
  reachable (current_state (after (new_game true 2) ["D"]))
  /\ Z.of_nat (length (possible_moves
                         (current_state (after (new_game true 2) ["D"]))))
     + Z.of_nat (length (claimed_cells
                           (h_lines (current_state
                                       (after (new_game true 2) ["D"])))))
     = total_cells 2.
Proof.
  assert (Hr : reachable (current_state (after (new_game true 2) ["D"]))).
  { apply (reachable_move (current_state (new_game true 2)) "D").
    - apply (reachable_init true 2); [lia | vm_compute; reflexivity].
    - vm_compute; reflexivity. }
  split; [exact Hr|].
  refine (proj1 (cell_count (new_game true 2) _ Hr) _).
  vm_compute; reflexivity.
Defined.

(** The count of C6 fails on the state that ends the game on the board of
    length 1: one cell is claimed, no move is possible, the board has 3. *)
Lemma cell_count_refuted :
  reachable (current_state (after (new_game true 1) ["A"]))
  /\ Z.of_nat (length (possible_moves
                         (current_state (after (new_game true 1) ["A"]))))
     + Z.of_nat (length (claimed_cells
                           (h_lines (current_state
                                       (after (new_game true 1) ["A"])))))
     <> total_cells
          (b_length (current_state (after (new_game true 1) ["A"]))).
Proof.
  split.
  - apply (reachable_move (current_state (new_game true 1)) "A").
    + apply (reachable_init true 1); [lia | vm_compute; reflexivity].
    + vm_compute; reflexivity.
  - vm_compute. discriminate.
Qed.

End CellCount.

(** * The heuristic *)

Section Heuristic.

(** C7 on the opening state of the board of length 2: the state is not
    over, no move wins at once, and after no move can the other player
    win at once, so the documented value is [0]; [rough_outcome] returns
    [-1], because its [all(...)] tests lists, not booleans. *)
Lemma rough_outcome_opening :
  reachable (current_state (new_game true 2))
  /\ documented_rough_outcome (current_state (new_game true 2)) = Ret 0
  /\ rough_outcome (current_state (new_game true 2)) = Ret (-1).
Proof.
  split; [|split].
  - apply (reachable_init true 2); [lia | vm_compute; reflexivity].
  - vm_compute; reflexivity.
  - vm_compute; reflexivity.
Qed.

End Heuristic.

(** * Recursive minimax *)

Section Comprehensions.

Context {A B : Type}.

Lemma comprehension_inv (f : A -> result B) (l : list A) (ys : list B) :
  comprehension f l = Ret ys -> Forall2 (fun x y => f x = Ret y) l ys.
Proof.
  revert ys. induction l as [|x l IH]; simpl; intros ys H.
  - injection H as <-. constructor.
  - apply bind_Ret_inv in H as (y & Hy & H).
    apply bind_Ret_inv in H as (ys' & Hys & H). injection H as <-.
    constructor; auto.
Qed.

Lemma comprehension_intro (f : A -> result B) (l : list A) (ys : list B) :
  Forall2 (fun x y => f x = Ret y) l ys -> comprehension f l = Ret ys.
Proof.
  induction 1 as [|x y l ys Hxy _ IH]; simpl; [reflexivity|].
  now rewrite Hxy, IH.
Qed.

Lemma comprehension_total (f : A -> result B) (l : list A) :
  (forall x, In x l -> exists y, f x = Ret y) ->
  exists ys, comprehension f l = Ret ys.
Proof.
  induction l as [|x l IH]; simpl; intros H; [eauto|].
  destruct (H x) as [y ->]; [now left|].
  destruct IH as [ys ->]; [intros; apply H; now right|]. simpl. eauto.
Qed.

End Comprehensions.

Section MaxIndex.

Lemma fold_left_max_ge (l : list Z) (x : Z) :
  x <= fold_left Z.max l x /\ Forall (fun y => y <= fold_left Z.max l x) l.
Proof.
  revert x. induction l as [|y l IH]; intros x; simpl.
  - split; [lia | constructor].
  - destruct (IH (Z.max x y)) as [H1 H2]. split; [lia|].
    constructor; [lia | assumption].
Qed.

Lemma fold_left_max_In (l : list Z) (x : Z) :
  fold_left Z.max l x = x \/ In (fold_left Z.max l x) l.
Proof.
  revert x. induction l as [|y l IH]; intros x; simpl; [now left|].
  destruct (IH (Z.max x y)) as [H|H]; [|now right; right].
  rewrite H. destruct (Z.max_spec x y) as [[_ ->]|[_ ->]]; auto.
Qed.

Lemma py_max_spec (l : list Z) (v : Z) :
  py_max l = Ret v -> In v l /\ Forall (fun y => y <= v) l.
Proof.
  destruct l as [|x l]; simpl; [discriminate|]. intros [= <-].
  destruct (fold_left_max_ge l x) as [H1 H2].
  destruct (fold_left_max_In l x) as [H|H].
  - split; [left; now rewrite H | now constructor].
  - split; [now right | now constructor].
Qed.

Lemma py_max_total (l : list Z) : l <> [] -> exists v, py_max l = Ret v.
Proof. destruct l; [congruence | simpl; eauto]. Qed.

Lemma py_index_spec (x : Z) (l : list Z) (i : nat) :
  py_index x l = Ret i ->
  l !! i = Some x /\ forall j y, (j < i)%nat -> l !! j = Some y -> y <> x.
Proof.
  revert i. induction l as [|y l IH]; simpl; intros i H; [discriminate|].
  destruct (Z.eqb_spec y x) as [->|Hne].
  - injection H as <-. split; [reflexivity|]. intros; lia.
  - apply bind_Ret_inv in H as (k & Hk & H). injection H as <-.
    destruct (IH _ Hk) as [H1 H2]. split; [assumption|].
    intros [|j] z Hj Hz; simpl in Hz.
    + now injection Hz as <-.
    + apply (H2 j); [lia | assumption].
Qed.

Lemma py_index_total (x : Z) (l : list Z) :
  In x l -> exists i, py_index x l = Ret i.
Proof.
  induction l as [|y l IH]; simpl; intros H; [tauto|].
  destruct (Z.eqb_spec y x); [eauto|].
  destruct IH as [i ->]; [destruct H; congruence | simpl; eauto].
Qed.

Lemma py_getitem_nat {T : Type} (l : list T) (i : nat) (x : T) :
  l !! i = Some x -> py_getitem l (Z.of_nat i) = Ret x.
Proof.
  intros H. pose proof (lookup_lt_Some _ _ _ H) as Hlt.
  unfold py_getitem.
  destruct (Z.ltb_spec (Z.of_nat i) 0) as [?|_]; [lia|].
  destruct (Z.leb_spec 0 (Z.of_nat i)) as [_|?]; [|lia].
  destruct (Z.ltb_spec (Z.of_nat i) (Z.of_nat (length l))) as [_|?]; [|lia].
  simpl. now rewrite Nat2Z.id, H.
Qed.

End MaxIndex.

Section GameTree.

Lemma make_move_shrinks (s : StonehengeState) (m : string)
  (s' : StonehengeState) :
  make_move s m = Ret s' ->
  (length (possible_moves s') < length (possible_moves s))%nat.
Proof.
  intros H. destruct (make_move_fields _ _ _ H) as (_ & _ & moves & Hrm & ->).
  apply py_remove_Ret in Hrm as (l1 & l2 & -> & -> & _).
  destruct (over s'); rewrite !length_app; simpl; lia.
Qed.

Lemma all_claimed_count (l : list string) :
  Forall (fun x => claimed x = true) l ->
  py_count "1" l + py_count "2" l = Z.of_nat (length l).
Proof.
  induction 1 as [|x l Hx _ IH]; [reflexivity|].
  rewrite !py_count_cons. simpl length. unfold claimed in Hx.
  rewrite (String.eqb_sym "1"), (String.eqb_sym "2").
  destruct (String.eqb_spec x "1") as [->|]; simpl in *; [lia|].
  rewrite Hx. lia.
Qed.

Lemma free_cells_nil (ls : list Leyline) :
  free_cells ls = [] ->
  Forall (fun ley => Forall (fun x => claimed x = true) (letters ley)) ls.
Proof.
  unfold free_cells, cells. induction ls as [|ley ls IH]; simpl; intros H.
  - constructor.
  - rewrite List.filter_app in H. apply app_eq_nil in H as [H1 H2].
    constructor; [|auto]. clear -H1.
    induction (letters ley) as [|x l IH]; [constructor|].
    simpl in H1. destruct (claimed x) eqn:E; simpl in H1; [|discriminate].
    constructor; auto.
Qed.

Lemma ceil_half_bound (x : Z) : 2 * ceil_half x <= x + 1.
Proof. unfold ceil_half. pose proof (Z.mul_div_le (x + 1) 2). lia. Qed.

Lemma all_captured (ls : list Leyline) :
  Forall line_ok ls -> free_cells ls = [] ->
  n_captured ls = Z.of_nat (length ls).
Proof.
  intros Hok Hfree. apply free_cells_nil in Hfree. unfold n_captured.
  induction Hok as [|ley ls [Hne Hint] _ IH]; [reflexivity|].
  apply Forall_cons in Hfree as [Hley Hfree]. simpl.
  unfold captured at 1. destruct (is_int (value ley)) eqn:E; simpl.
  - exfalso. destruct (Hint eq_refl) as [H1 H2].
    pose proof (all_claimed_count _ Hley).
    pose proof (ceil_half_bound (Z.of_nat (length (letters ley)))). lia.
  - specialize (IH Hfree). simpl length. lia.
Qed.

(** A state of a game that is not over has a move left. *)
Lemma wf_has_moves (s : StonehengeState) :
  wf s -> over s = false -> possible_moves s <> [].
Proof.
  intros Hwf Hover Hnil. pose proof (wf_moves s Hwf) as Hperm.
  rewrite Hover, Hnil in Hperm.
  assert (Hcap : forall f, n_captured (lines f s) = Z.of_nat (length (lines f s))).
  { intros f. apply all_captured; [apply (wf_lines s Hwf)|].
    now apply Permutation_nil_r. }
  pose proof (wf_score s Hwf) as Hs. pose proof (wf_count s Hwf) as Hc.
  pose proof (Hcap Hoz) as C1. pose proof (Hcap RightDiag) as C2.
  pose proof (Hcap LeftDiag) as C3. simpl in C1, C2, C3.
  unfold over, win_threshold in Hover. apply orb_false_iff in Hover as [H1 H2].
  apply Z.leb_gt in H1, H2.
  pose proof (ceil_half_bound (3 * (b_length s + 1))). lia.
Qed.

Lemma recursive_helper_total (fuel : nat) (g : Stonehenge) :
  wf (current_state g) ->
  (length (possible_moves (current_state g)) < fuel)%nat ->
  exists v, recursive_helper fuel g = Ret v.
Proof.
  revert g. induction fuel as [|fuel IH]; intros g Hwf Hlen; [lia|].
  simpl. rewrite is_over_over.
  destruct (over (current_state g)) eqn:Ho.
  { destruct (_ || _); eauto. }
  unfold get_possible_moves.
  destruct (comprehension_total
              (fun move => let* s := make_move (current_state g) move in
                           Ret (set_current_state s g))
              (possible_moves (current_state g))) as [games Hg].
  { intros m Hm. destruct (make_move_defined _ _ Hm) as [s' ->].
    simpl. eauto. }
  rewrite Hg. simpl.
  pose proof (comprehension_inv _ _ _ Hg) as Hall.
  destruct (comprehension_total
              (fun c => let* v := recursive_helper fuel c in Ret (-1 * v))
              games) as [scores Hs].
  { intros c Hc. apply list_elem_of_In in Hc.
    apply list_elem_of_lookup in Hc as [i Hi].
    destruct (Forall2_lookup_r _ _ _ _ _ Hall Hi) as (m & Hm & Hmc).
    apply bind_Ret_inv in Hmc as (s' & Hs' & [= <-]).
    destruct (IH (set_current_state s' g)) as [v ->].
    - exact (make_move_wf _ _ _ Hwf Hs').
    - pose proof (make_move_shrinks _ _ _ Hs'). simpl. lia.
    - simpl. eauto. }
  rewrite Hs. simpl. apply py_max_total.
  pose proof (wf_has_moves _ Hwf Ho) as Hne.
  pose proof (Forall2_length _ _ _ Hall) as L1.
  pose proof (Forall2_length _ _ _ (comprehension_inv _ _ _ Hs)) as L2.
  destruct scores; [|discriminate].
  destruct (possible_moves (current_state g)); [congruence|].
  simpl in *. lia.
Qed.

End GameTree.

Section Negamax.

Lemma recursive_helper_node (fuel : nat) (g : Stonehenge) (v : Z) :
  is_over g (current_state g) = false ->
  recursive_helper (S fuel) g = Ret v ->
  exists ws, child_values fuel g ws
             /\ py_max (map (fun w => -1 * w) ws) = Ret v.
Proof.
  intros Ho H. simpl in H. rewrite Ho in H.
  apply bind_Ret_inv in H as (games & Hg & H).
  apply bind_Ret_inv in H as (scores & Hs & H).
  apply comprehension_inv in Hg, Hs.
  assert (exists ws, Forall2 (fun c w => recursive_helper fuel c = Ret w) games ws
                     /\ scores = map (fun w => -1 * w) ws) as (ws & Hws & ->).
  { clear -Hs. induction Hs as [|c sc games scores Hc _ (ws & IH1 & IH2)].
    - exists []. split; [constructor | reflexivity].
    - apply bind_Ret_inv in Hc as (w & Hw & [= <-]).
      exists (w :: ws). split; [now constructor | simpl; now f_equal]. }
  exists ws. split; [|assumption]. unfold child_values.
  clear -Hg Hws. revert ws Hws.
  induction Hg as [|m c moves games Hm _ IH]; intros ws Hws;
    inversion Hws; subst; constructor; auto.
  apply bind_Ret_inv in Hm as (s' & Hs' & [= <-]). eauto.
Qed.

Lemma recursive_helper_node_intro (fuel : nat) (g : Stonehenge) (ws : list Z) :
  is_over g (current_state g) = false ->
  child_values fuel g ws ->
  recursive_helper (S fuel) g = py_max (map (fun w => -1 * w) ws).
Proof.
  intros Ho H. simpl. rewrite Ho. unfold child_values in H.
  assert (exists games,
    Forall2 (fun m c => (let* s := make_move (current_state g) m in
                         Ret (set_current_state s g)) = Ret c)
      (get_possible_moves (current_state g)) games
    /\ Forall2 (fun c sc => (let* v := recursive_helper fuel c in
                             Ret (-1 * v)) = Ret sc)
         games (map (fun w => -1 * w) ws)) as (games & H1 & H2).
  { induction H as [|m w moves ws (s' & Hm & Hw) _ (games & IH1 & IH2)].
    - exists []. split; constructor.
    - exists (set_current_state s' g :: games). split; constructor; auto.
      + now rewrite Hm.
      + now rewrite Hw. }
  rewrite (comprehension_intro _ _ _ H1). simpl.
  now rewrite (comprehension_intro _ _ _ H2).
Qed.

Lemma child_values_lookup (fuel : nat) (g : Stonehenge) (ws : list Z)
  (i : nat) :
  child_values fuel g ws ->
  (forall m, get_possible_moves (current_state g) !! i = Some m ->
     exists s' w, ws !! i = Some w
                  /\ make_move (current_state g) m = Ret s'
                  /\ recursive_helper fuel (set_current_state s' g) = Ret w)
  /\ (forall w, ws !! i = Some w ->
        exists m s', get_possible_moves (current_state g) !! i = Some m
                     /\ make_move (current_state g) m = Ret s'
                     /\ recursive_helper fuel (set_current_state s' g) = Ret w).
Proof.
  intros H. split.
  - intros m Hm. destruct (Forall2_lookup_l _ _ _ _ _ H Hm)
      as (w & Hw & s' & H1 & H2). eauto.
  - intros w Hw. destruct (Forall2_lookup_r _ _ _ _ _ H Hw)
      as (m & Hm & s' & H1 & H2). eauto.
Qed.

(** What [recursive_helper] returns is the value of the specification. *)
Lemma recursive_helper_sound (fuel : nat) (g : Stonehenge) (v : Z) :
  recursive_helper fuel g = Ret v -> negamax_value g v.
Proof.
  revert g v. induction fuel as [|fuel IH]; intros g v H; [discriminate|].
  destruct (is_over g (current_state g)) eqn:Ho.
  - simpl in H. rewrite Ho in H.
    destruct (is_winner g "p2") eqn:W2; simpl in H.
    + injection H as <-. apply negamax_won; auto.
    + destruct (is_winner g "p1") eqn:W1; injection H as <-.
      * apply negamax_won; auto.
      * now apply negamax_draw.
  - destruct (recursive_helper_node _ _ _ Ho H) as (ws & Hws & Hmax).
    apply py_max_spec in Hmax as [Hin Hle]. apply negamax_node; [assumption| |].
    + intros m Hm. apply list_elem_of_In in Hm.
      apply list_elem_of_lookup in Hm as [i Hi].
      destruct (proj1 (child_values_lookup _ _ _ i Hws) m Hi)
        as (s' & w & Hw & Hmv & Hrec).
      exists s', w. split; [assumption|]. split; [now apply IH|].
      rewrite Forall_forall in Hle. apply Hle.
      apply list_elem_of_In, in_map. apply list_elem_of_In.
      apply list_elem_of_lookup. eauto.
    + apply in_map_iff in Hin as (w & <- & Hw).
      apply list_elem_of_In in Hw. apply list_elem_of_lookup in Hw as [i Hi].
      destruct (proj2 (child_values_lookup _ _ _ i Hws) w Hi)
        as (m & s' & Hm & Hmv & Hrec).
      exists m, s', w. split.
      { apply list_elem_of_In. apply list_elem_of_lookup. eauto. }
      split; [assumption|]. split; [now apply IH | reflexivity].
Qed.

(** The value of the specification is unique. *)
Lemma negamax_value_unique (g : Stonehenge) (v v' : Z) :
  negamax_value g v -> negamax_value g v' -> v = v'.
Proof.
  remember (length (possible_moves (current_state g))) as n eqn:En.
  revert g En v v'. induction n as [n IH] using lt_wf_ind.
  intros g En v v' H H'.
  assert (Hle : forall a b, negamax_value g a -> negamax_value g b ->
                            is_over g (current_state g) = false -> a <= b).
  { intros a b Ha Hb Ho.
    inversion Ha as [? Ho' _| ? Ho' _ _|? ? _ _ (m & s' & w & Hin & Hm & Hw & ->)];
      subst; try congruence.
    inversion Hb as [? Ho' _| ? Ho' _ _|? ? _ Hall _]; subst; try congruence.
    destruct (Hall m Hin) as (s'' & w' & Hm' & Hw' & Hb').
    rewrite Hm in Hm'. injection Hm' as <-.
    assert (w = w'); [|lia].
    eapply (IH _ (make_move_shrinks _ _ _ Hm) (set_current_state s' g));
      [reflexivity | assumption..]. }
  destruct (is_over g (current_state g)) eqn:Ho.
  - inversion H; subst; inversion H'; subst; try congruence;
      try reflexivity;
      repeat match goal with Hd : _ \/ _ |- _ => destruct Hd end;
      congruence.
  - apply Z.le_antisymm; apply Hle; assumption || reflexivity.
Qed.

End Negamax.

Section BestMove.

Lemma pick_best_spec (moves : list string) (scores : list Z) (m : string) :
  length moves = length scores ->
  pick_best moves scores = Ret m ->
  exists (i : nat) mx,
    moves !! i = Some m /\ scores !! i = Some mx
    /\ Forall (fun y => y <= mx) scores
    /\ forall (j : nat) y, (j < i)%nat -> scores !! j = Some y -> y < mx.
Proof.
  intros Hlen H. unfold pick_best in H.
  apply bind_Ret_inv in H as (mx & Hmx & H).
  apply bind_Ret_inv in H as (i & Hi & H).
  apply py_max_spec in Hmx as [_ Hle].
  apply py_index_spec in Hi as [Hi Hfirst].
  exists i, mx.
  pose proof (lookup_lt_Some _ _ _ Hi) as Hlt. rewrite <- Hlen in Hlt.
  destruct (lookup_lt_is_Some_2 moves i Hlt) as [m' Hm'].
  rewrite (py_getitem_nat _ _ _ Hm') in H. injection H as <-.
  repeat split; try assumption.
  intros j y Hj Hy. specialize (Hfirst j y Hj Hy).
  rewrite Forall_forall in Hle.
  assert (y <= mx) by (apply Hle; apply list_elem_of_lookup; eauto). lia.
Qed.

Lemma pick_best_total (moves : list string) (scores : list Z) :
  length moves = length scores -> scores <> [] ->
  exists m, pick_best moves scores = Ret m.
Proof.
  intros Hlen Hne. unfold pick_best.
  destruct (py_max_total _ Hne) as [mx Hmx]. rewrite Hmx. simpl.
  destruct (py_index_total mx scores) as [i Hi];
    [now apply py_max_spec in Hmx|].
  rewrite Hi. simpl. apply py_index_spec in Hi as [Hi _].
  pose proof (lookup_lt_Some _ _ _ Hi) as Hlt. rewrite <- Hlen in Hlt.
  destruct (lookup_lt_is_Some_2 moves i Hlt) as [m Hm].
  rewrite (py_getitem_nat _ _ _ Hm). eauto.
Qed.

Lemma recursive_minimax_unfold (fuel : nat) (g : Stonehenge) (ws : list Z) :
  child_values fuel g ws ->
  recursive_minimax fuel g
  = pick_best (get_possible_moves (current_state g))
      (map (fun w => -1 * w) ws).
Proof.
  intros H. unfold recursive_minimax.
  erewrite comprehension_intro; [reflexivity|].
  unfold child_values in H.
  induction H as [|m w moves ws (s' & Hm & Hw) _ IH]; constructor; auto.
  rewrite Hm. simpl. now rewrite Hw.
Qed.

(** The move picked from the child values is the best move of the
    specification. *)
Lemma pick_best_best_move (fuel : nat) (g : Stonehenge) (ws : list Z)
  (m : string) :
  child_values fuel g ws ->
  pick_best (get_possible_moves (current_state g))
    (map (fun w => -1 * w) ws) = Ret m ->
  best_move g m.
Proof.
  intros Hws Hm.
  pose proof (Forall2_length _ _ _ Hws) as Hlen.
  apply pick_best_spec in Hm as (i & mx & Hi & Hmx & Hle & Hfirst);
    [|now rewrite length_map].
  destruct (proj1 (child_values_lookup _ _ _ i Hws) m Hi)
    as (s' & w & Hw & Hmv & Hrec).
  rewrite list_lookup_fmap, Hw in Hmx. injection Hmx as <-.
  exists i, s', w. split; [exact Hi|]. split; [exact Hmv|].
  split; [exact (recursive_helper_sound _ _ _ Hrec)|].
  intros j m' s'' w' Hj Hmv' Hval.
  destruct (proj1 (child_values_lookup _ _ _ j Hws) m' Hj)
    as (sj & wj & Hwj & Hmvj & Hrecj).
  rewrite Hmvj in Hmv'. injection Hmv' as <-.
  assert (w' = wj) as ->.
  { eapply negamax_value_unique; eauto using recursive_helper_sound. }
  assert (Hsj : map (fun w => -1 * w) ws !! j = Some (-1 * wj)).
  { now rewrite list_lookup_fmap, Hwj. }
  split.
  - rewrite Forall_forall in Hle. apply Hle.
    apply list_elem_of_lookup. eauto.
  - intros Hlt. exact (Hfirst j _ Hlt Hsj).
Qed.

(** C2: on every reachable state, with one frame of call stack per cell
    still free and one more, [recursive_helper] returns the negamax value
    of the specification, which is unique; and on a state that is not
    over [recursive_minimax] returns the best move: the first of the
    possible moves whose child has the greatest negated value. *)
Theorem recursive_minimax_negamax (g : Stonehenge) (fuel : nat) :
  reachable (current_state g) ->
  (length (possible_moves (current_state g)) < fuel)%nat ->
  (exists v, recursive_helper fuel g = Ret v
             /\ negamax_value g v
             /\ forall v', negamax_value g v' -> v' = v)
  /\ (is_over g (current_state g) = false ->
      exists m, recursive_minimax fuel g = Ret m /\ best_move g m).
Proof.
  intros Hr Hfuel. pose proof (reachable_wf _ Hr) as Hwf. split.
  - destruct (recursive_helper_total fuel g Hwf Hfuel) as [v Hv].
    exists v. split; [assumption|].
    pose proof (recursive_helper_sound _ _ _ Hv) as Hs.
    split; [assumption|]. intros v' Hv'.
    exact (negamax_value_unique _ _ _ Hv' Hs).
  - intros Ho.
    destruct (recursive_helper_total (S fuel) g Hwf) as [v Hv]; [lia|].
    destruct (recursive_helper_node _ _ _ Ho Hv) as (ws & Hws & Hmax).
    rewrite (recursive_minimax_unfold _ _ _ Hws).
    destruct (pick_best_total (get_possible_moves (current_state g))
                (map (fun w => -1 * w) ws)) as [m Hm].
    + rewrite length_map. exact (Forall2_length _ _ _ Hws).
    + intros E. rewrite E in Hmax. discriminate.
    + exists m. split; [assumption|].
      exact (pick_best_best_move _ _ _ _ Hws Hm).
Qed.

Lemma recursive_minimax_negamax_witness :
  reachable (current_state (new_game true 2))
  /\ (length (possible_moves (current_state (new_game true 2))) < 8)%nat
  /\ exists m, recursive_minimax 8 (new_game true 2) = Ret m
               /\ best_move (new_game true 2) m.
Proof.
  assert (Hr : reachable (current_state (new_game true 2))).
  { apply (reachable_init true 2); [lia | vm_compute; reflexivity]. }
  assert (Hl : (length (possible_moves (current_state (new_game true 2)))
                < 8)%nat).
  { vm_compute. lia. }
  split; [exact Hr|]. split; [exact Hl|].
  refine (proj2 (recursive_minimax_negamax (new_game true 2) 8 Hr Hl) _).
  vm_compute; reflexivity.
Defined.

End BestMove.

(** * Iterative minimax *)

Section Runs.

Variable gt : nat.

Lemma runs_loop (k : nat) (st st' : store * list nat) :
  runs gt k st st' ->
  forall fuel, iterative_loop (k + fuel) gt st = iterative_loop fuel gt st'.
Proof.
  induction 1 as [st | k st st1 st2 (root & Hroot & Hs) Hstep _ IH];
    intros fuel; [reflexivity|].
  simpl. unfold deref. rewrite Hroot. simpl. rewrite Hs, Hstep. simpl.
  apply IH.
Qed.

Lemma runs_app (k1 k2 : nat) (a b c : store * list nat) :
  runs gt k1 a b -> runs gt k2 b c -> runs gt (k1 + k2) a c.
Proof.
  induction 1 as [st | k st st1 st2 Hroot Hstep _ IH]; intros H2;
    [assumption|].
  simpl. eapply runs_S; eauto.
Qed.

Lemma runs_one (st st' : store * list nat) :
  unscored (fst st) gt -> iterative_step st = Ret st' -> runs gt 1 st st'.
Proof. intros H1 H2. eapply runs_S; eauto. constructor. Qed.

End Runs.

Section Expansion.

(** The [for] loop that expands a node: one fresh node per move, in
    order, all appended to the children of [c] and pushed. *)
Lemma expand_spec (c : nat) (g g0 : Stonehenge) (moves : list string)
  (games : list Stonehenge) :
  Forall2 (fun m gi => exists s', make_move (current_state g) m = Ret s'
                                  /\ gi = set_current_state s' g)
    moves games ->
  forall (h : store) (s ch : list nat) (sc : option Z),
    h !! c = Some (mkTree ch sc g0) ->
    for_each moves (push_child c g) (h, s)
    = Ret (<[c := mkTree (ch ++ seq (length h) (length games)) sc g0]> h
             ++ map GameTree_init games,
           rev (seq (length h) (length games)) ++ s).
Proof.
  induction 1 as [|m gi moves games (s' & Hm & ->) _ IH];
    intros h s ch sc Hc.
  - cbn [for_each length seq rev map List.map]. rewrite !app_nil_r.
    rewrite list_insert_id by assumption. reflexivity.
  - pose proof (lookup_lt_Some _ _ _ Hc) as Hlt.
    simpl for_each. unfold push_child at 1. rewrite Hm. simpl.
    unfold deref. rewrite lookup_app_l by assumption. rewrite Hc. simpl.
    unfold add_child. simpl.
    rewrite insert_app_l by assumption.
    erewrite IH.
    2:{ rewrite lookup_app_l by (rewrite length_insert; assumption).
        apply list_lookup_insert_eq. assumption. }
    rewrite length_app, length_insert. simpl length.
    rewrite insert_app_l by (rewrite length_insert; assumption).
    rewrite list_insert_insert_eq.
    replace (length h + 1)%nat with (S (length h)) by lia.
    rewrite <- !app_assoc. simpl. reflexivity.
Qed.

End Expansion.

Section Simulation.

Lemma elem_of_rev_seq (x n k : nat) :
  x ∈ rev (seq n k) <-> (n <= x < n + k)%nat.
Proof. rewrite <- Permutation_rev. apply elem_of_seq. Qed.

Lemma NoDup_rev_seq (n k : nat) : NoDup (rev (seq n k)).
Proof. rewrite <- Permutation_rev. apply NoDup_seq. Qed.

Variable gt : nat.
Variable fuelR : nat.
Hypothesis IH : processes gt fuelR.

(** The nodes [ids] on top of the stack, all fresh, are scored and popped
    one after the other. *)
Lemma process_stack (ids : list nat) :
  NoDup ids ->
  forall (h : store) (below : list nat),
    (forall id, id ∈ ids ->
       id <> gt
       /\ exists gi wi, h !! id = Some (GameTree_init gi)
                        /\ recursive_helper fuelR gi = Ret wi) ->
    unscored h gt ->
    exists (k : nat) (h' : store),
      runs gt k (h, ids ++ below) (h', below)
      /\ (forall id gi, id ∈ ids -> h !! id = Some (GameTree_init gi) ->
            exists ch wi, recursive_helper fuelR gi = Ret wi
                          /\ h' !! id = Some (mkTree ch (Some wi) gi))
      /\ (length h <= length h')%nat
      /\ (forall j : nat, (j < length h)%nat -> j ∉ ids -> h' !! j = h !! j).
Proof.
  induction 1 as [|id ids Hnotin Hnd IHs]; intros h below Hall Hroot.
  - exists O, h. split; [constructor|]. split; [|split; [lia | auto]].
    intros id gi Hin. inversion Hin.
  - destruct (Hall id) as (Hne & gi & wi & Hid & Hrec); [left|].
    destruct (IH gi wi Hrec h id (ids ++ below) Hid Hne Hroot)
      as (k1 & h1 & ch1 & Hruns1 & Hid1 & Hlen1 & Hsame1).
    assert (Hgtlt : (gt < length h)%nat).
    { destruct Hroot as (root & Hr & _). exact (lookup_lt_Some _ _ _ Hr). }
    destruct (IHs h1 below) as (k2 & h2 & Hruns2 & Hids2 & Hlen2 & Hsame2).
    + intros id' Hin'. destruct (Hall id') as (Hne' & gi' & wi' & Hid' & Hrec');
        [now right|].
      split; [assumption|]. exists gi', wi'. split; [|assumption].
      rewrite Hsame1; [assumption | exact (lookup_lt_Some _ _ _ Hid') |].
      intros ->. contradiction.
    + destruct Hroot as (root & Hr & Hs). exists root.
      split; [|assumption]. rewrite Hsame1; auto.
    + exists (k1 + k2)%nat, h2. split.
      { eapply runs_app; [exact Hruns1 | exact Hruns2]. }
      split; [|split; [lia|]].
      * intros id' gi' Hin' Hid'. apply elem_of_cons in Hin' as [->|Hin'].
        -- rewrite Hid in Hid'. injection Hid' as <-.
           exists ch1, wi. split; [assumption|].
           rewrite Hsame2; [assumption | exact (lookup_lt_Some _ _ _ Hid1) |
                            assumption].
        -- apply (Hids2 id' gi' Hin').
           rewrite Hsame1; [assumption | exact (lookup_lt_Some _ _ _ Hid') |].
           intros ->. contradiction.
      * intros j Hj Hnot. apply not_elem_of_cons in Hnot as [Hne' Hnot].
        rewrite Hsame2 by (lia || assumption). now apply Hsame1.
Qed.

Lemma child_values_games (g : Stonehenge) (ws : list Z) :
  child_values fuelR g ws ->
  exists games,
    Forall2 (fun m gi => exists s', make_move (current_state g) m = Ret s'
                                    /\ gi = set_current_state s' g)
      (get_possible_moves (current_state g)) games
    /\ Forall2 (fun gi w => recursive_helper fuelR gi = Ret w) games ws.
Proof.
  unfold child_values.
  induction 1 as [|m w moves ws (s' & Hm & Hw) _ (games & IH1 & IH2)].
  - exists []. split; constructor.
  - exists (set_current_state s' g :: games). split; constructor; eauto.
Qed.

(** Expanding a fresh node that is not terminal and scoring all its
    children leaves the node, now with its children, twice on the
    stack. *)
Lemma expand_children (g : Stonehenge) (ws : list Z) (h : store) (c : nat)
  (below : list nat) :
  is_over g (current_state g) = false ->
  child_values fuelR g ws ->
  h !! c = Some (GameTree_init g) ->
  unscored h gt ->
  let ids := seq (length h) (length ws) in
  exists (k : nat) (h' : store),
    runs gt (S k) (h, c :: below) (h', c :: c :: below)
    /\ h' !! c = Some (mkTree ids None g)
    /\ Forall2 (fun id w => exists ch gi,
                  h' !! id = Some (mkTree ch (Some w) gi)) ids ws
    /\ (length h <= length h')%nat
    /\ (forall j : nat, (j < length h)%nat -> j <> c -> h' !! j = h !! j).
Proof.
  intros Ho Hws Hc Hroot ids.
  destruct (child_values_games _ _ Hws) as (games & Hgames & Hvals).
  pose proof (Forall2_length _ _ _ Hvals) as Hlen.
  pose proof (lookup_lt_Some _ _ _ Hc) as Hclt.
  assert (Hgtlt : (gt < length h)%nat).
  { destruct Hroot as (root & Hr & _). exact (lookup_lt_Some _ _ _ Hr). }
  set (h1 := <[c := mkTree ids None g]> h ++ map GameTree_init games).
  assert (Hstep : iterative_step (h, c :: below)
                  = Ret (h1, rev ids ++ c :: c :: below)).
  { unfold iterative_step, deref. rewrite Hc. simpl. rewrite Ho.
    rewrite (expand_spec c g g _ _ Hgames h (c :: c :: below) [] None Hc).
    simpl. unfold h1, ids. now rewrite Hlen. }
  assert (Hh1c : h1 !! c = Some (mkTree ids None g)).
  { unfold h1. rewrite lookup_app_l by (rewrite length_insert; assumption).
    now apply list_lookup_insert_eq. }
  assert (Hh1lt : forall j, (j < length h)%nat -> j <> c -> h1 !! j = h !! j).
  { intros j Hj Hne. unfold h1.
    rewrite lookup_app_l by (rewrite length_insert; assumption).
    now apply list_lookup_insert_ne. }
  assert (Hh1ge : forall i, h1 !! (length h + i)%nat
                            = GameTree_init <$> games !! i).
  { intros i. unfold h1. rewrite lookup_app_r by (rewrite length_insert; lia).
    rewrite length_insert. replace (length h + i - length h)%nat with i by lia.
    apply list_lookup_fmap. }
  assert (Hroot1 : unscored h1 gt).
  { destruct (decide (gt = c)) as [->|Hne].
    - eexists. split; [exact Hh1c | reflexivity].
    - destruct Hroot as (root & Hr & Hs). exists root.
      split; [|assumption]. rewrite Hh1lt; auto. }
  destruct (process_stack (rev ids) (NoDup_rev_seq _ _)
              h1 (c :: c :: below)) as (k & h2 & Hruns & Hids & Hlen2 & Hsame);
    [|exact Hroot1|].
  { intros id Hid. apply elem_of_rev_seq in Hid as [Hid1 Hid2].
    split; [lia|].
    destruct (lookup_lt_is_Some_2 games (id - length h)) as [gi Hgi]; [lia|].
    destruct (Forall2_lookup_l _ _ _ _ _ Hvals Hgi) as (wi & _ & Hrec).
    exists gi, wi. split; [|assumption].
    replace id with (length h + (id - length h))%nat at 1 by lia.
    now rewrite Hh1ge, Hgi. }
  assert (Hl1 : (length h <= length h1)%nat).
  { unfold h1. rewrite length_app, length_insert. lia. }
  exists k, h2. split; [|split; [|split; [|split; [lia|]]]].
  - eapply runs_S; [exact Hroot | exact Hstep | exact Hruns].
  - rewrite Hsame; [assumption | lia |].
    unfold ids. rewrite elem_of_rev_seq. lia.
  - apply Forall2_same_length_lookup. split; [unfold ids; now rewrite length_seq|].
    intros i id w Hid Hw. apply lookup_seq in Hid as [-> Hi].
    destruct (lookup_lt_is_Some_2 games i) as [gi Hgi]; [lia|].
    destruct (Forall2_lookup_l _ _ _ _ _ Hvals Hgi) as (wi & Hwi & Hrec).
    rewrite Hw in Hwi. injection Hwi as <-.
    destruct (Hids (length h + i)%nat gi) as (ch & w' & Hrec' & Hh2).
    + unfold ids. rewrite elem_of_rev_seq. lia.
    + now rewrite Hh1ge, Hgi.
    + rewrite Hrec in Hrec'. injection Hrec' as <-. eauto.
  - intros j Hj Hne. rewrite Hsame; [now apply Hh1lt | lia |].
    unfold ids. rewrite elem_of_rev_seq. lia.
Qed.

(** Scoring an expanded node whose children all hold their scores. *)
Lemma score_node (h : store) (c : nat) (ids : list nat) (ws : list Z)
  (sc : option Z) (g : Stonehenge) (v : Z) (below : list nat) :
  h !! c = Some (mkTree ids sc g) ->
  is_over g (current_state g) = false ->
  Forall2 (fun id w => exists ch gi, h !! id = Some (mkTree ch (Some w) gi))
    ids ws ->
  py_max (map (fun w => -1 * w) ws) = Ret v ->
  iterative_step (h, c :: below)
  = Ret (<[c := mkTree ids (Some v) g]> h, below).
Proof.
  intros Hc Ho Hch Hmax. unfold iterative_step, deref. rewrite Hc. simpl.
  rewrite Ho.
  assert (Hsc : comprehension (negated_score h) ids
                = Ret (map (fun w => -1 * w) ws)).
  { apply comprehension_intro. clear -Hch.
    induction Hch as [|id w ids ws (ch & gi & Hid) _ IHc]; constructor; auto.
    unfold negated_score, deref. now rewrite Hid. }
  destruct ids as [|id ids].
  - inversion Hch; subst. discriminate.
  - rewrite Hsc. simpl bind. rewrite Hmax. reflexivity.
Qed.

Lemma process_node_S : processes gt (S fuelR).
Proof.
  intros g v Hrec h c below Hc Hne Hroot.
  assert (Hgtlt : (gt < length h)%nat).
  { destruct Hroot as (root & Hr & _). exact (lookup_lt_Some _ _ _ Hr). }
  pose proof (lookup_lt_Some _ _ _ Hc) as Hclt.
  destruct (is_over g (current_state g)) eqn:Ho.
  - exists 1%nat, (<[c := mkTree [] (Some v) g]> h), [].
    split; [|split; [|split]].
    + apply runs_one; [assumption|].
      unfold iterative_step, deref. rewrite Hc. simpl. rewrite Ho.
      simpl in Hrec. rewrite Ho in Hrec. unfold set_score. simpl.
      destruct (_ || _); injection Hrec as <-; reflexivity.
    + now apply list_lookup_insert_eq.
    + now rewrite length_insert.
    + intros i _ Hi. now apply list_lookup_insert_ne.
  - destruct (recursive_helper_node _ _ _ Ho Hrec) as (ws & Hws & Hmax).
    destruct (expand_children g ws h c below Ho Hws Hc Hroot)
      as (k & h2 & Hruns & Hc2 & Hch & Hlen & Hsame).
    set (ids := seq (length h) (length ws)) in *.
    set (h3 := <[c := mkTree ids (Some v) g]> h2).
    assert (Hc2lt : (c < length h2)%nat) by lia.
    assert (Hroot2 : unscored h2 gt).
    { destruct Hroot as (root & Hr & Hs). exists root.
      split; [|assumption]. rewrite Hsame; auto. }
    assert (Hroot3 : unscored h3 gt).
    { destruct Hroot2 as (root & Hr & Hs). exists root.
      split; [|assumption]. unfold h3.
      rewrite list_lookup_insert_ne; auto. }
    assert (Hch3 : Forall2 (fun id w => exists ch gi,
                      h3 !! id = Some (mkTree ch (Some w) gi)) ids ws).
    { apply Forall2_same_length_lookup. split; [exact (Forall2_length _ _ _ Hch)|].
      intros i id w Hid Hw.
      destruct (Forall2_lookup_lr _ _ _ _ _ _ Hch Hid Hw) as (ch & gi & Hh2).
      exists ch, gi. unfold h3. rewrite list_lookup_insert_ne; [assumption|].
      apply lookup_seq in Hid as [-> _]. lia. }
    assert (Hstep3 : iterative_step (h3, c :: below) = Ret (h3, below)).
    { rewrite (score_node h3 c ids ws (Some v) g v below); auto.
      - unfold h3. now rewrite list_insert_insert_eq.
      - unfold h3. now apply list_lookup_insert_eq. }
    exists (S k + 2)%nat, h3, ids. split; [|split; [|split]].
    + eapply runs_app; [exact Hruns|].
      eapply runs_S;
        [exact Hroot2
        | exact (score_node _ _ _ _ _ _ _ _ Hc2 Ho Hch Hmax) |].
      eapply runs_S; [exact Hroot3 | exact Hstep3 | constructor].
    + unfold h3. now apply list_lookup_insert_eq.
    + unfold h3. rewrite length_insert. lia.
    + intros i Hi Hic. unfold h3. rewrite list_lookup_insert_ne by auto.
      now apply Hsame.
Qed.

End Simulation.

Section Equivalence.

Lemma process_node (gt fuel : nat) : processes gt fuel.
Proof.
  induction fuel as [|fuel IH].
  - intros g v H. discriminate.
  - now apply process_node_S.
Qed.

(** With enough passes [iterative_helper] returns what
    [recursive_helper] returns. *)
Lemma iterative_helper_agrees (fuelR : nat) (g : Stonehenge) (v : Z) :
  recursive_helper fuelR g = Ret v ->
  exists N, forall fuel, (N <= fuel)%nat -> iterative_helper fuel g = Ret v.
Proof.
  destruct fuelR as [|f]; [discriminate|]. intros Hrec.
  assert (Hroot : unscored [GameTree_init g] O).
  { eexists. split; reflexivity. }
  destruct (is_over g (current_state g)) eqn:Ho.
  - exists 1%nat. intros [|fuel] Hf; [lia|].
    unfold iterative_helper. simpl. rewrite Ho. simpl in Hrec.
    rewrite Ho in Hrec.
    destruct (_ || _); injection Hrec as <-; now destruct fuel.
  - destruct (recursive_helper_node _ _ _ Ho Hrec) as (ws & Hws & Hmax).
    destruct (expand_children O f (process_node O f) g ws
                [GameTree_init g] O [] Ho Hws eq_refl Hroot)
      as (k & h2 & Hruns & Hc2 & Hch & Hlen & _).
    exists (S k + 1)%nat. intros fuel Hf.
    replace fuel with (S k + S (fuel - (S k + 1)))%nat by lia.
    unfold iterative_helper. rewrite (runs_loop _ _ _ _ Hruns).
    cbn [iterative_loop fst]. unfold deref at 1. rewrite Hc2.
    cbn [bind score].
    rewrite (score_node _ _ _ _ _ _ _ _ Hc2 Ho Hch Hmax). cbn [bind].
    assert (Hv : forall n st,
              fst st !! O = Some (mkTree (seq 1 (length ws)) (Some v) g) ->
              iterative_loop n O st = Ret v).
    { intros n st Hst. destruct n; simpl; unfold deref; now rewrite Hst. }
    apply Hv. simpl fst. apply list_lookup_insert_eq.
    exact (lookup_lt_Some _ _ _ Hc2).
Qed.

Lemma recursive_helper_fuel (f f' : nat) (g : Stonehenge) (v v' : Z) :
  recursive_helper f g = Ret v -> recursive_helper f' g = Ret v' -> v = v'.
Proof.
  intros H H'. eapply negamax_value_unique; eauto using recursive_helper_sound.
Qed.

Lemma child_values_fuel (f f' : nat) (g : Stonehenge) (ws ws' : list Z) :
  child_values f g ws -> child_values f' g ws' -> ws = ws'.
Proof.
  unfold child_values. intros H. revert ws'.
  induction H as [|m w moves ws (s' & Hm & Hw) _ IH]; intros ws' H';
    inversion H' as [|? w' ? ws'' (s'' & Hm' & Hw') Hrest]; subst;
    [reflexivity|].
  rewrite Hm in Hm'. injection Hm' as <-.
  f_equal; [exact (recursive_helper_fuel _ _ _ _ _ Hw Hw') | now apply IH].
Qed.

Lemma child_values_total (fuel : nat) (g : Stonehenge) :
  wf (current_state g) ->
  is_over g (current_state g) = false ->
  (length (possible_moves (current_state g)) < S fuel)%nat ->
  exists ws, child_values fuel g ws /\ ws <> [].
Proof.
  intros Hwf Ho Hlen.
  destruct (recursive_helper_total (S fuel) g Hwf Hlen) as [v Hv].
  destruct (recursive_helper_node _ _ _ Ho Hv) as (ws & Hws & Hmax).
  exists ws. split; [assumption|]. intros ->. discriminate.
Qed.

Lemma iterative_children (f : nat) (g : Stonehenge) (ws : list Z) :
  child_values f g ws ->
  exists N, forall fuel, (N <= fuel)%nat ->
    Forall2
      (fun m w =>
         exists s', make_move (current_state g) m = Ret s'
                    /\ iterative_helper fuel (set_current_state s' g) = Ret w)
      (get_possible_moves (current_state g)) ws.
Proof.
  unfold child_values.
  induction 1 as [|m w moves ws (s' & Hm & Hw) _ (N2 & IH)].
  - exists O. constructor.
  - destruct (iterative_helper_agrees _ _ _ Hw) as (N1 & H1).
    exists (Nat.max N1 N2). intros fuel Hf. constructor.
    + exists s'. split; [assumption|]. apply H1. lia.
    + apply IH. lia.
Qed.

Lemma iterative_minimax_unfold (fuel : nat) (g : Stonehenge) (ws : list Z) :
  Forall2
    (fun m w =>
       exists s', make_move (current_state g) m = Ret s'
                  /\ iterative_helper fuel (set_current_state s' g) = Ret w)
    (get_possible_moves (current_state g)) ws ->
  iterative_minimax fuel g
  = pick_best (get_possible_moves (current_state g))
      (map (fun w => -1 * w) ws).
Proof.
  intros H. unfold iterative_minimax.
  erewrite comprehension_intro; [reflexivity|].
  induction H as [|m w moves ws (s' & Hm & Hw) _ IH]; constructor; auto.
  rewrite Hm. simpl. now rewrite Hw.
Qed.

(** C1: on every reachable state that is not over, the two helpers
    return the same value, the negamax value of the state, and
    [recursive_minimax] and [iterative_minimax] return the same move, the
    first of the possible moves that attains the greatest negated child
    value; this holds for every bound on the call depth and on the number
    of passes of the loop from some bound on. *)
Theorem minimax_equivalence (g : Stonehenge) :
  reachable (current_state g) ->
  is_over g (current_state g) = false ->
  exists (m : string) (v : Z) (N : nat),
    best_move g m
    /\ negamax_value g v
    /\ forall fuel, (N <= fuel)%nat ->
         recursive_helper fuel g = Ret v
         /\ iterative_helper fuel g = Ret v
         /\ recursive_minimax fuel g = Ret m
         /\ iterative_minimax fuel g = Ret m.
Proof.
  intros Hr Ho. pose proof (reachable_wf _ Hr) as Hwf.
  set (F := S (length (possible_moves (current_state g)))).
  destruct (recursive_helper_total F g Hwf) as [v Hv]; [unfold F; lia|].
  destruct (child_values_total F g Hwf Ho) as (ws & Hws & Hne);
    [unfold F; lia|].
  destruct (pick_best_total (get_possible_moves (current_state g))
              (map (fun w => -1 * w) ws)) as [m Hm].
  { rewrite length_map. exact (Forall2_length _ _ _ Hws). }
  { intros E. apply Hne. now destruct ws. }
  destruct (iterative_helper_agrees _ _ _ Hv) as (N1 & H1).
  destruct (iterative_children _ _ _ Hws) as (N2 & H2).
  exists m, v, (Nat.max F (Nat.max N1 N2)).
  split; [exact (pick_best_best_move _ _ _ _ Hws Hm)|].
  split; [exact (recursive_helper_sound _ _ _ Hv)|].
  intros fuel Hf.
  destruct (recursive_helper_total fuel g Hwf) as [v' Hv']; [unfold F in Hf; lia|].
  destruct (child_values_total fuel g Hwf Ho) as (ws' & Hws' & _);
    [unfold F in Hf; lia|].
  rewrite (recursive_helper_fuel _ _ _ _ _ Hv' Hv) in Hv'.
  rewrite <- (child_values_fuel _ _ _ _ _ Hws Hws') in Hws'.
  split; [assumption|]. split; [apply H1; lia|].
  split.
  - now rewrite (recursive_minimax_unfold _ _ _ Hws').
  - rewrite (iterative_minimax_unfold fuel g ws); [assumption|].
    apply H2. lia.
Qed.

Lemma minimax_equivalence_witness :
  reachable (current_state (new_game true 2))
  /\ is_over (new_game true 2) (current_state (new_game true 2)) = false
  /\ exists (m : string) (v : Z) (N : nat),
       forall fuel, (N <= fuel)%nat ->
         recursive_helper fuel (new_game true 2) = Ret v
         /\ iterative_helper fuel (new_game true 2) = Ret v
         /\ recursive_minimax fuel (new_game true 2) = Ret m
         /\ iterative_minimax fuel (new_game true 2) = Ret m.
Proof.
  assert (Hr : reachable (current_state (new_game true 2))).
  { apply (reachable_init true 2); [lia | vm_compute; reflexivity]. }
  assert (Ho : is_over (new_game true 2) (current_state (new_game true 2))
               = false).
  { vm_compute; reflexivity. }
  split; [exact Hr|]. split; [exact Ho|].
  destruct (minimax_equivalence (new_game true 2) Hr Ho)
    as (m & v & N & _ & _ & H).
  exists m, v, N. exact H.
Defined.

End Equivalence.

(** * The boards that [Stonehenge] builds *)

Section Construction.

Lemma py_range_nil (lo hi : Z) : hi <= lo -> py_range lo hi = [].
Proof.
  intros H. unfold py_range. now replace (Z.to_nat (hi - lo)) with O by lia.
Qed.

Lemma Stonehenge_init_negative (is_p1 : bool) (n : Z) :
  exact_length n ->
  n < 0 ->
  Stonehenge_init is_p1 n
  = Ret (mkGame [] [] [] (StonehengeState_init is_p1 n 0 0 [] [] [])).
Proof.
  intros _ H. unfold Stonehenge_init, generate_hoz.
  rewrite (py_range_nil 1 (n + 2)) by lia. simpl.
  unfold generate_right_diag_lines. rewrite (py_range_nil 1 (n + 2)) by lia.
  simpl. unfold generate_left_diag_lines.
  rewrite (py_range_nil 1 (n + 2)) by lia. reflexivity.
Qed.

Lemma small_cases (n : Z) :
  0 <= n <= 5 -> n = 0 \/ n = 1 \/ n = 2 \/ n = 3 \/ n = 4 \/ n = 5.
Proof. lia. Qed.

Lemma Stonehenge_init_bound (is_p1 : bool) (n : Z) (g : Stonehenge) :
  Stonehenge_init is_p1 n = Ret g -> n <= 5.
Proof.
  intros Hg. destruct (Z.leb_spec n 5) as [|H6]; [assumption|].
  unfold Stonehenge_init in Hg.
  rewrite (generate_hoz_too_long n) in Hg by lia. discriminate.
Qed.

Lemma Stonehenge_init_state (is_p1 : bool) (n : Z) (g : Stonehenge) :
  Stonehenge_init is_p1 n = Ret g ->
  current_state g
  = StonehengeState_init is_p1 n 0 0 (hoz_lines g) (right_lines g)
      (left_lines g).
Proof.
  intros Hg. unfold Stonehenge_init in Hg.
  apply bind_Ret_inv in Hg as (hz & _ & Hg).
  apply bind_Ret_inv in Hg as (rd & _ & Hg).
  apply bind_Ret_inv in Hg as (ld & _ & Hg).
  now injection Hg as <-.
Qed.

(** X1: the constructor of [Stonehenge] returns a game for every board
    length from -2^26 to 5, zero and the negative ones included, and for
    every length from 6 on [generate_hoz] runs out of letters and raises
    [IndexError], before any state is built. *)
Theorem Stonehenge_init_defined (is_p1 : bool) (n : Z) :
  (- 2 ^ 26 <= n <= 5 -> exists g, Stonehenge_init is_p1 n = Ret g)
  /\ (6 <= n -> Stonehenge_init is_p1 n = Raise IndexError).
Proof.
  split.
  - intros H. destruct (Z.ltb_spec n 0) as [Hn|Hn].
    + eexists. apply Stonehenge_init_negative; [|assumption].
      unfold exact_length. lia.
    + destruct (small_cases n) as [->|[->|[->|[->|[->| ->]]]]]; [lia|..];
        eexists; vm_compute; reflexivity.
  - intros H. unfold Stonehenge_init.
    now rewrite (generate_hoz_too_long n H).
Qed.

(** X2: on a board of length [n] from 0 to 5 the three families have
    [n + 1] leylines each, numbered from 1; the rows hold the first
    [(n^2 + 5n) / 2] letters of the alphabet in order, in rows of
    2, 3, ..., [n + 1] cells and a last row of [n]; these letters are the
    possible moves, and each of them lies on exactly one leyline of each
    family.  The game and its state hold the same lists, and nobody has
    scored. *)
Theorem board_geometry (is_p1 : bool) (n : Z) (g : Stonehenge) :
  0 <= n ->
  Stonehenge_init is_p1 n = Ret g ->
  let s := current_state g in
  (forall f, map value (lines f s) = map VInt (py_range 1 (n + 2)))
  /\ map (fun ley => Z.of_nat (length (letters ley))) (h_lines s)
     = py_range 2 (n + 2) ++ [n]
  /\ cells (h_lines s) = take (Z.to_nat (total_cells n)) ALPHA
  /\ possible_moves s = cells (h_lines s)
  /\ NoDup (possible_moves s)
  /\ (forall f, Permutation (cells (lines f s)) (possible_moves s))
  /\ (hoz_lines g = h_lines s /\ right_lines g = r_lines s
      /\ left_lines g = l_lines s)
  /\ p1_turn s = is_p1 /\ b_length s = n
  /\ p1_score s = 0 /\ p2_score s = 0.
Proof.
  intros H0 Hg.
  pose proof (Stonehenge_init_bound _ _ _ Hg) as H5.
  destruct (small_cases n) as [->|[->|[->|[->|[->| ->]]]]]; [lia|..];
    vm_compute in Hg; injection Hg as <-; cbv zeta;
    (split; [intros []; vm_compute; reflexivity|]);
    (split; [vm_compute; reflexivity|]);
    (split; [vm_compute; reflexivity|]);
    (split; [vm_compute; reflexivity|]);
    (split; [apply (bool_decide_unpack _); vm_compute; reflexivity|]);
    (split; [intros []; apply (bool_decide_unpack _); vm_compute;
             reflexivity|]);
    (split; [repeat split|]);
    repeat split.
Qed.

Lemma board_geometry_witness :
  exists g, Stonehenge_init true 3 = Ret g
            /\ map (fun ley => Z.of_nat (length (letters ley)))
                 (h_lines (current_state g)) = [2; 3; 4; 3].
Proof.
  assert (H0 : 0 <= 3) by lia.
  assert (Hg : Stonehenge_init true 3 = Ret (new_game true 3))
    by (vm_compute; reflexivity).
  exists (new_game true 3). split; [exact Hg|].
  exact (proj1 (proj2 (board_geometry true 3 _ H0 Hg))).
Defined.

Lemma nonpositive_facts (is_p1 : bool) (n : Z) (g : Stonehenge) :
  exact_length n ->
  n <= 0 ->
  Stonehenge_init is_p1 n = Ret g ->
  let s := current_state g in
  __str__ s = Raise IndexError
  /\ (n = 0 ->
      possible_moves s = [] /\ is_over g s = false
      /\ forall m, make_move s m = Raise ValueError)
  /\ (n < 0 ->
      (forall f, lines f s = [])
      /\ is_over g s = true
      /\ is_winner g "p1" = true /\ is_winner g "p2" = true).
Proof.
  intros He Hn Hg. cbv zeta. destruct (Z.eq_dec n 0) as [->|Hne].
  - vm_compute in Hg. injection Hg as <-.
    split; [vm_compute; reflexivity|]. split; [|intros; lia]. intros _.
    split; [reflexivity|]. split; [reflexivity|].
    intros m. now apply make_move_undefined.
  - assert (Hlt : n < 0) by lia.
    rewrite (Stonehenge_init_negative is_p1 n He Hlt) in Hg.
    injection Hg as <-. simpl.
    assert (Ht : win_threshold n <= 0).
    { unfold win_threshold, ceil_half.
      enough ((3 * (n + 1) + 1) / 2 < 1) by lia.
      apply Z.div_lt_upper_bound; lia. }
    split.
    + unfold __str__. simpl.
      destruct (n =? 1) eqn:E1; [lia|]. destruct (n =? 2) eqn:E2; [lia|].
      destruct (n =? 3) eqn:E3; [lia|]. destruct (n =? 4) eqn:E4; [lia|].
      reflexivity.
    + split; [intros; lia|]. intros _. split; [intros []; reflexivity|].
      unfold is_over, is_winner. simpl.
      destruct (Z.leb_spec (win_threshold n) 0) as [_|]; [|lia].
      repeat split.
Qed.

(** X3: every board length from -2^26 to 0 is accepted by the
    constructor, but the game it returns cannot be played or printed:
    with length 0 the state is not over and has no possible move; with a
    negative length there is no leyline, the win threshold is at most 0,
    so the game is over at once and both players are winners; in both
    cases [__str__] raises [IndexError]. *)
Theorem nonpositive_boards (is_p1 : bool) (n : Z) :
  - 2 ^ 26 <= n <= 0 ->
  exists g,
    Stonehenge_init is_p1 n = Ret g
    /\ __str__ (current_state g) = Raise IndexError
    /\ (n = 0 ->
        possible_moves (current_state g) = []
        /\ is_over g (current_state g) = false
        /\ forall m, make_move (current_state g) m = Raise ValueError)
    /\ (n < 0 ->
        (forall f, lines f (current_state g) = [])
        /\ is_over g (current_state g) = true
        /\ is_winner g "p1" = true /\ is_winner g "p2" = true).
Proof.
  intros Hn.
  assert (He : exact_length n) by (unfold exact_length; lia).
  assert (Hg : exists g, Stonehenge_init is_p1 n = Ret g).
  { destruct (Z.eq_dec n 0) as [->|Hne].
    - eexists. vm_compute. reflexivity.
    - eexists. apply Stonehenge_init_negative; [assumption | lia]. }
  destruct Hg as (g & Hg). exists g. split; [assumption|].
  apply (nonpositive_facts is_p1 n g He); [lia | assumption].
Qed.

Lemma nonpositive_boards_witness :
  exists g, Stonehenge_init true (-1) = Ret g
            /\ __str__ (current_state g) = Raise IndexError
            /\ is_winner g "p1" = true /\ is_winner g "p2" = true.
Proof.
  assert (H0 : - 2 ^ 26 <= -1 <= 0) by lia.
  assert (Hlt : -1 < 0) by lia.
  destruct (nonpositive_boards true (-1) H0) as (g & Hg & Hs & _ & Hneg).
  exists g. split; [exact Hg|]. split; [exact Hs|].
  exact (proj2 (proj2 (Hneg Hlt))).
Defined.

End Construction.

(** * What a move changes *)

Section Step.

Lemma cell_step_refl (m tag : string) (l : list string) :
  Forall2 (cell_step m tag) l l.
Proof. induction l; constructor; auto. now left. Qed.

Lemma line_step_refl (m tag : string) (ls : list Leyline) :
  Forall2 (fun ley ley' =>
             Forall2 (cell_step m tag) (letters ley) (letters ley')) ls ls.
Proof. induction ls; constructor; auto using cell_step_refl. Qed.

Lemma value_step_refl (ls : list Leyline) : Forall2 value_step ls ls.
Proof. induction ls; constructor; auto. now left. Qed.

Lemma get_leyline_value_app (l1 l2 : list Leyline) :
  get_leyline_value (l1 ++ l2) = get_leyline_value l1 ++ get_leyline_value l2.
Proof. apply map_app. Qed.

(** One call of [change_letter]: who captures, if anyone. *)
Lemma change_letter_step (f : family) (m : string) (s s' : StonehengeState) :
  change_letter f m s = Ret s' ->
  exists c,
    (c = None \/ c = Some "1" \/ c = Some "2")
    /\ p1_score s' = p1_score s + gain "1" c
    /\ p2_score s' = p2_score s + gain "2" c
    /\ (forall p, p = "1" \/ p = "2" ->
          py_count p (get_leyline_value (lines f s'))
          = py_count p (get_leyline_value (lines f s)) + gain p c)
    /\ Forall2 (fun ley ley' =>
                  Forall2 (cell_step m (tag_of s)) (letters ley) (letters ley'))
         (lines f s) (lines f s')
    /\ Forall2 value_step (lines f s) (lines f s')
    /\ (claimed m = false -> Forall line_ok (lines f s) ->
        c = None \/ c = Some (tag_of s)).
Proof.
  intros Hs'.
  destruct (change_letter_spec f m s)
    as [[Hmiss E]|(pre & ley & post & l1 & l2 & Hhit & E)].
  { rewrite E in Hs'. injection Hs' as <-. exists None. simpl.
    split; [now left|]. split; [lia|]. split; [lia|].
    split; [intros; lia|]. split; [apply line_step_refl|].
    split; [apply value_step_refl | now left]. }
  simpl in E. rewrite E in Hs'. injection Hs' as <-.
  fold (tag_of s) in *. set (player := tag_of s) in *.
  set (ley' := set_letters (l1 ++ player :: l2) ley) in *.
  destruct Hhit as [pre ley post l1 l2 Hpre Hley Hn].
  exists (captor ley'). rewrite lines_set_lines.
  destruct (scores_set_lines f (pre ++ capture (captor ley') ley' :: post)
              (add_score (captor ley') s)) as [-> ->].
  assert (Hc : captor ley' = None \/ captor ley' = Some "1"
               \/ captor ley' = Some "2").
  { destruct (captor ley') as [p|] eqn:Ec; [|now left].
    destruct (captor_is_int _ _ Ec) as [_ [-> | ->]]; auto. }
  split; [exact Hc|].
  split; [destruct Hc as [-> | [-> | ->]]; simpl; lia|].
  split; [destruct Hc as [-> | [-> | ->]]; simpl; lia|].
  split; [|split; [|split]].
  - intros p Hp. rewrite !get_leyline_value_app, !py_count_app.
    change (get_leyline_value (?x :: post))
      with (get_leyline_value [x] ++ get_leyline_value post).
    rewrite !py_count_app.
    enough (py_count p (get_leyline_value [capture (captor ley') ley'])
            = py_count p (get_leyline_value [ley]) + gain p (captor ley'))
      by lia.
    destruct (captor ley') as [q|] eqn:Ec.
    + destruct (captor_is_int _ _ Ec) as [Hi Hq]. simpl in Hi.
      unfold get_leyline_value. simpl. destruct (value ley); [|discriminate].
      unfold py_count. simpl.
      destruct Hp as [-> | ->], Hq as [-> | ->]; reflexivity.
    + simpl. lia.
  - apply Forall2_app; [apply line_step_refl|]. constructor;
      [|apply line_step_refl].
    assert (E' : letters (capture (captor ley') ley') = l1 ++ player :: l2)
      by (destruct (captor ley'); reflexivity).
    rewrite E', Hley. apply Forall2_app; [apply cell_step_refl|].
    constructor; [now right | apply cell_step_refl].
  - apply Forall2_app; [apply value_step_refl|]. constructor;
      [|apply value_step_refl].
    destruct Hc as [-> | [Ec | Ec]]; [now left|..];
      destruct (captor_is_int _ _ Ec) as [Hi _]; rewrite Ec; right;
      (split; [exact Hi|]); simpl; auto.
  - intros Hm Hok. destruct (captor ley') as [q|] eqn:Ec; [|now left].
    right. f_equal.
    apply Forall_app in Hok as [_ Hok].
    apply Forall_cons in Hok as [[_ Hok] _].
    destruct (captor_is_int _ _ Ec) as [Hi Hq]. simpl in Hi.
    specialize (Hok Hi). rewrite Hley in Hok.
    rewrite !length_app in Hok. simpl in Hok.
    unfold captor in Ec. simpl in Ec. rewrite Hi in Ec.
    rewrite !length_app in Ec. simpl in Ec.
    rewrite !py_count_app, !py_count_cons in Hok, Ec.
    rewrite (claimed_count m "1" Hm) in Hok by auto.
    rewrite (claimed_count m "2" Hm) in Hok by auto.
    unfold player, tag_of in *. destruct (p1_turn s); simpl in Ec.
    + destruct (_ <=? _) eqn:E1 in Ec; [congruence|].
      destruct (_ <=? _) eqn:E2 in Ec; [|discriminate].
      apply Z.leb_le in E2. lia.
    + destruct (_ <=? _) eqn:E1 in Ec; [|
        destruct (_ <=? _) eqn:E2 in Ec; congruence].
      apply Z.leb_le in E1. lia.
Qed.

(** The three calls of [make_move] together. *)
Lemma make_move_step (s : StonehengeState) (m : string)
  (s' : StonehengeState) :
  make_move s m = Ret s' ->
  exists c : family -> option string,
    (forall f, c f = None \/ c f = Some "1" \/ c f = Some "2")
    /\ p1_score s'
       = p1_score s + gain "1" (c Hoz) + gain "1" (c RightDiag)
         + gain "1" (c LeftDiag)
    /\ p2_score s'
       = p2_score s + gain "2" (c Hoz) + gain "2" (c RightDiag)
         + gain "2" (c LeftDiag)
    /\ (forall f p, p = "1" \/ p = "2" ->
          py_count p (get_leyline_value (lines f s'))
          = py_count p (get_leyline_value (lines f s)) + gain p (c f))
    /\ (forall f,
          Forall2 (fun ley ley' =>
                     Forall2 (cell_step m (tag_of s)) (letters ley)
                       (letters ley'))
            (lines f s) (lines f s'))
    /\ (forall f, Forall2 value_step (lines f s) (lines f s'))
    /\ (claimed m = false -> (forall f, Forall line_ok (lines f s)) ->
        forall f, c f = None \/ c f = Some (tag_of s)).
Proof.
  intros Hmv.
  destruct (make_move_inv _ _ _ Hmv)
    as (sh & sr & sl & moves & Hh & Hr & Hl & Hrm & ->).
  set (s0 := StonehengeState_init _ _ _ _ _ _ _) in Hh.
  assert (H0 : forall f, lines f s0 = lines f s) by (intros []; reflexivity).
  destruct (change_letter_frame _ _ _ _ Hh) as (Th & _ & _ & Fh).
  destruct (change_letter_frame _ _ _ _ Hr) as (Tr & _ & _ & Fr).
  destruct (change_letter_frame _ _ _ _ Hl) as (Tl & _ & _ & Fl).
  destruct (change_letter_step _ _ _ _ Hh)
    as (ch & Ch & Ph1 & Ph2 & Oh & Sh & Vh & Mh).
  destruct (change_letter_step _ _ _ _ Hr)
    as (cr & Cr & Pr1 & Pr2 & Or & Sr & Vr & Mr).
  destruct (change_letter_step _ _ _ _ Hl)
    as (cl & Cl & Pl1 & Pl2 & Ol & Sl & Vl & Ml).
  destruct (finish_move_fields moves sl) as (Zl & Z1 & Z2 & _).
  set (s' := finish_move moves sl) in *. simpl in Zl, Z1, Z2.
  assert (EH : lines Hoz s' = lines Hoz sh).
  { rewrite Zl, Fl, Fr by discriminate. reflexivity. }
  assert (ER : lines RightDiag s' = lines RightDiag sr).
  { rewrite Zl, Fl by discriminate. reflexivity. }
  assert (EL : lines LeftDiag s' = lines LeftDiag sl) by apply Zl.
  assert (T0 : tag_of s0 = tag_of s) by reflexivity.
  assert (T1 : tag_of sh = tag_of s) by (unfold tag_of; now rewrite Th).
  assert (T2 : tag_of sr = tag_of s) by (unfold tag_of; now rewrite Tr, Th).
  rewrite T0 in *. rewrite T1 in *. rewrite T2 in *.
  rewrite (H0 Hoz) in Oh, Sh, Vh, Mh.
  rewrite Fh, (H0 RightDiag) in Or, Sr, Vr, Mr by discriminate.
  rewrite Fr, Fh, (H0 LeftDiag) in Ol, Sl, Vl, Ml by discriminate.
  rewrite <- EH in Oh, Sh, Vh. rewrite <- ER in Or, Sr, Vr.
  rewrite <- EL in Ol, Sl, Vl.
  exists (fun f => match f with Hoz => ch | RightDiag => cr | LeftDiag => cl
                   end).
  split; [intros []; assumption|].
  split; [rewrite Z1, Pl1, Pr1, Ph1; simpl; lia|].
  split; [rewrite Z2, Pl2, Pr2, Ph2; simpl; lia|].
  split; [intros []; assumption|].
  split; [intros []; assumption|].
  split; [intros []; assumption|].
  intros Hm Hok. intros []; auto.
Qed.

End Step.

Section Moves.

Lemma reachable_move_free (s : StonehengeState) (m : string)
  (s' : StonehengeState) :
  reachable s -> make_move s m = Ret s' ->
  over s = false /\ claimed m = false
  /\ forall f, In m (cells (lines f s)).
Proof.
  intros Hr Hmv. pose proof (reachable_wf _ Hr) as Hwf.
  pose proof (make_move_In _ _ _ Hmv) as Hin.
  pose proof (over_no_moves _ _ Hwf Hin) as Hover.
  pose proof (wf_moves s Hwf) as Hperm. rewrite Hover in Hperm.
  assert (Hfree : forall f, In m (cells (lines f s)) /\ claimed m = false).
  { intros f. apply free_cells_In.
    eapply Permutation_in; [symmetry; apply Hperm | assumption]. }
  split; [assumption|]. split; [apply (Hfree Hoz) | apply Hfree].
Qed.

Lemma gain_bounds (p : string) (c : option string) : 0 <= gain p c <= 1.
Proof. unfold gain. destruct c as [q|]; [destruct (String.eqb q p)|]; lia. Qed.

Lemma make_move_lengths (s : StonehengeState) (m : string)
  (s' : StonehengeState) (f : family) :
  make_move s m = Ret s' ->
  map (fun ley => length (letters ley)) (lines f s')
  = map (fun ley => length (letters ley)) (lines f s).
Proof.
  intros Hmv.
  destruct (make_move_step _ _ _ Hmv) as (c & _ & _ & _ & _ & Hs & _).
  specialize (Hs f). clear - Hs.
  induction Hs as [|ley ley' ls ls' Hl _ IH]; [reflexivity|]. simpl.
  f_equal; [|exact IH]. symmetry. eapply Forall2_length; eauto.
Qed.







Lemma make_move_gain (s : StonehengeState) (m : string)
  (s' : StonehengeState) :
  reachable s ->
  make_move s m = Ret s' ->
  if p1_turn s
  then p2_score s' = p2_score s
       /\ p1_score s <= p1_score s' <= p1_score s + 3
  else p1_score s' = p1_score s
       /\ p2_score s <= p2_score s' <= p2_score s + 3.
Proof.
  intros Hr Hmv. destruct (reachable_move_free _ _ _ Hr Hmv) as (_ & Hm & _).
  destruct (make_move_step _ _ _ Hmv) as (c & Hc & P1 & P2 & _ & _ & _ & Hmine).
  specialize (Hmine Hm (wf_lines s (reachable_wf _ Hr))).
  pose proof (gain_bounds "1" (c Hoz)). pose proof (gain_bounds "1" (c RightDiag)).
  pose proof (gain_bounds "1" (c LeftDiag)). pose proof (gain_bounds "2" (c Hoz)).
  pose proof (gain_bounds "2" (c RightDiag)).
  pose proof (gain_bounds "2" (c LeftDiag)).
  assert (G : forall f, gain (if p1_turn s then "2" else "1") (c f) = 0).
  { intros f. destruct (Hmine f) as [-> | ->]; [reflexivity|].
    unfold tag_of. now destruct (p1_turn s). }
  pose proof (G Hoz). pose proof (G RightDiag). pose proof (G LeftDiag).
  destruct (p1_turn s); lia.
Qed.

(** X5: in a game a move passes the turn to the other player, keeps the
    board length, never changes the score of the player who did not make
    it, and adds at most 3, one per family, to the score of the player
    who did. *)
Theorem mover_scores (s : StonehengeState) (m : string)
  (s' : StonehengeState) :
  reachable s ->
  make_move s m = Ret s' ->
  p1_turn s' = negb (p1_turn s)
  /\ b_length s' = b_length s
  /\ if p1_turn s
     then p2_score s' = p2_score s
          /\ p1_score s <= p1_score s' <= p1_score s + 3
     else p1_score s' = p1_score s
          /\ p2_score s <= p2_score s' <= p2_score s + 3.
Proof.
  intros Hr Hmv. destruct (make_move_fields _ _ _ Hmv) as (Hb & Ht & _).
  split; [assumption|]. split; [assumption|].
  exact (make_move_gain _ _ _ Hr Hmv).
Qed.

Lemma mover_scores_witness :
  exists s', make_move (current_state (new_game true 1)) "A" = Ret s'
             /\ p2_score s' = 0 /\ 0 <= p1_score s' <= 0 + 3.
Proof.
  assert (Hr : reachable (current_state (new_game true 1))).
  { apply (reachable_init true 1); [lia | vm_compute; reflexivity]. }
  assert (H : make_move (current_state (new_game true 1)) "A"
              = Ret (current_state (after (new_game true 1) ["A"])))
    by (vm_compute; reflexivity).
  eexists. split; [exact H|].
  exact (proj2 (proj2 (mover_scores _ _ _ Hr H))).
Defined.

Lemma win_threshold_pos (n : Z) : 1 <= n -> 3 <= win_threshold n.
Proof.
  intros H. unfold win_threshold, ceil_half.
  apply Z.div_le_lower_bound; lia.
Qed.

Lemma winner_invariant (s : StonehengeState) :
  reachable s ->
  over s = true ->
  if p1_turn s
  then p1_score s < win_threshold (b_length s)
       /\ win_threshold (b_length s) <= p2_score s
  else win_threshold (b_length s) <= p1_score s
       /\ p2_score s < win_threshold (b_length s).
Proof.
  induction 1 as [is_p1 n g Hn Hg | s m s' Hr IH Hm]; intros Ho.
  - exfalso. rewrite (Stonehenge_init_state _ _ _ Hg) in Ho.
    apply over_iff in Ho. simpl in Ho.
    pose proof (win_threshold_pos n Hn). lia.
  - destruct (reachable_move_free _ _ _ Hr Hm) as (Hno & _).
    pose proof (make_move_gain _ _ _ Hr Hm) as Hsc.
    destruct (make_move_fields _ _ _ Hm) as (Hb & Ht & _).
    rewrite Hb, Ht. apply over_iff in Ho. rewrite Hb in Ho.
    assert (Hlt : p1_score s < win_threshold (b_length s)
                  /\ p2_score s < win_threshold (b_length s)).
    { destruct (Z.ltb_spec (p1_score s) (win_threshold (b_length s)));
        destruct (Z.ltb_spec (p2_score s) (win_threshold (b_length s)));
        try (split; assumption);
        exfalso; assert (over s = true) by (apply over_iff; lia);
        congruence. }
    destruct (p1_turn s); simpl; lia.
Qed.

(** X6: when a game is over exactly one player is the winner, the one
    who made the last move: [is_winner('p1')] holds exactly when it is
    player 2's turn, and [is_winner('p2')] exactly when it is player 1's. *)
Theorem winner_moved_last (g : Stonehenge) :
  reachable (current_state g) ->
  is_over g (current_state g) = true ->
  is_winner g "p1" = negb (p1_turn (current_state g))
  /\ is_winner g "p2" = p1_turn (current_state g).
Proof.
  intros Hr Ho. rewrite is_over_over in Ho.
  pose proof (winner_invariant _ Hr Ho) as H.
  unfold is_winner. simpl.
  destruct (p1_turn (current_state g)); destruct H as [H1 H2]; simpl.
  - destruct (Z.leb_spec (win_threshold (b_length (current_state g)))
                (p1_score (current_state g))); [lia|].
    destruct (Z.leb_spec (win_threshold (b_length (current_state g)))
                (p2_score (current_state g))); [|lia]. now split.
  - destruct (Z.leb_spec (win_threshold (b_length (current_state g)))
                (p1_score (current_state g))); [|lia].
    destruct (Z.leb_spec (win_threshold (b_length (current_state g)))
                (p2_score (current_state g))); [lia|]. now split.
Qed.

Lemma winner_moved_last_witness :
  is_winner (after (new_game true 1) ["A"]) "p1" = negb false
  /\ is_winner (after (new_game true 1) ["A"]) "p2" = false.
Proof.
  assert (Hr : reachable (current_state (after (new_game true 1) ["A"]))).
  { apply (reachable_move (current_state (new_game true 1)) "A");
      [|vm_compute; reflexivity].
    apply (reachable_init true 1); [lia | vm_compute; reflexivity]. }
  assert (Ho : is_over (after (new_game true 1) ["A"])
                 (current_state (after (new_game true 1) ["A"])) = true)
    by (vm_compute; reflexivity).
  exact (winner_moved_last _ Hr Ho).
Defined.

(** X19: [make_move] accepts exactly the possible moves, on every state
    whatsoever: with a move of [possible_moves] it returns a state, with
    any other move it raises [ValueError], from [list.remove]; the
    insertions and removals on the copied leylines never raise. *)
Theorem make_move_accepts (s : StonehengeState) (m : string) :
  (In m (get_possible_moves s) -> exists s', make_move s m = Ret s')
  /\ (~ In m (get_possible_moves s) -> make_move s m = Raise ValueError).
Proof.
  unfold get_possible_moves. split.
  - apply make_move_defined.
  - apply make_move_undefined.
Qed.

End Moves.

Section Scoreboard.

(** The marks of the leylines of a family are [@] and the players' tags. *)
Lemma value_step_marks (ls ls' : list Leyline) :
  Forall2 value_step ls ls' ->
  Forall (fun x => x = "@" \/ x = "1" \/ x = "2") (get_leyline_value ls) ->
  Forall (fun x => x = "@" \/ x = "1" \/ x = "2") (get_leyline_value ls').
Proof.
  induction 1 as [|ley ley' ls ls' Hv _ IH]; [constructor|].
  simpl. intros H. apply Forall_cons in H as [H1 H2].
  apply Forall_cons. split; [|auto].
  destruct Hv as [-> | [_ [-> | ->]]]; auto.
Qed.

(** X7: in a game the scores are what the board shows: [p1_score] is the
    number of leylines marked [1] by [get_leyline_value] over the three
    families, [p2_score] the number marked [2], and every mark is [@],
    [1] or [2]. *)
Theorem scores_are_marks (s : StonehengeState) :
  reachable s ->
  p1_score s
  = py_count "1" (get_leyline_value (h_lines s))
    + py_count "1" (get_leyline_value (r_lines s))
    + py_count "1" (get_leyline_value (l_lines s))
  /\ p2_score s
     = py_count "2" (get_leyline_value (h_lines s))
       + py_count "2" (get_leyline_value (r_lines s))
       + py_count "2" (get_leyline_value (l_lines s))
  /\ forall f,
       Forall (fun x => x = "@" \/ x = "1" \/ x = "2")
         (get_leyline_value (lines f s)).
Proof.
  induction 1 as [is_p1 n g Hn Hg | s m s' Hr IH Hm].
  - assert (n <= 5) as H5 by exact (Stonehenge_init_length _ _ _ Hn Hg).
    assert (H : 0 <= n <= 5) by lia.
    destruct (small_cases n H) as [->|[->|[->|[->|[->| ->]]]]]; [lia|..];
      vm_compute in Hg; injection Hg as <-;
      (split; [reflexivity|]); (split; [reflexivity|]);
      intros []; vm_compute; repeat constructor; auto.
  - destruct IH as (I1 & I2 & I3).
    destruct (make_move_step _ _ _ Hm) as (c & _ & P1 & P2 & Hc & _ & Hv & _).
    pose proof (Hc Hoz "1") as A1. pose proof (Hc RightDiag "1") as A2.
    pose proof (Hc LeftDiag "1") as A3. pose proof (Hc Hoz "2") as B1.
    pose proof (Hc RightDiag "2") as B2. pose proof (Hc LeftDiag "2") as B3.
    simpl in *.
    split; [rewrite A1, A2, A3 by auto; lia|].
    split; [rewrite B1, B2, B3 by auto; lia|].
    intros f. exact (value_step_marks _ _ (Hv f) (I3 f)).
Qed.

Lemma scores_are_marks_witness :
  p1_score (current_state (after (new_game true 1) ["A"]))
  = py_count "1" (get_leyline_value
                    (h_lines (current_state (after (new_game true 1) ["A"]))))
    + py_count "1" (get_leyline_value
                      (r_lines (current_state (after (new_game true 1) ["A"]))))
    + py_count "1" (get_leyline_value
                      (l_lines (current_state (after (new_game true 1) ["A"])))).
Proof.
  assert (Hr : reachable (current_state (after (new_game true 1) ["A"]))).
  { apply (reachable_move (current_state (new_game true 1)) "A");
      [|vm_compute; reflexivity].
    apply (reachable_init true 1); [lia | vm_compute; reflexivity]. }
  exact (proj1 (scores_are_marks _ Hr)).
Defined.

End Scoreboard.

Section Plays.

Lemma make_move_moves (s : StonehengeState) (m : string)
  (s' : StonehengeState) :
  NoDup (possible_moves s) ->
  make_move s m = Ret s' ->
  ~ In m (possible_moves s')
  /\ (forall x, In x (possible_moves s') -> In x (possible_moves s))
  /\ (S (length (possible_moves s')) <= length (possible_moves s))%nat.
Proof.
  intros Hnd Hmv. pose proof (make_move_shrinks _ _ _ Hmv) as Hlen.
  destruct (make_move_fields _ _ _ Hmv) as (_ & _ & moves & Hrm & Hpm).
  apply py_remove_Ret in Hrm as (p1 & p2 & Epm & -> & Hnp).
  rewrite Epm in Hnd. apply NoDup_ListNoDup in Hnd.
  pose proof (List.NoDup_remove_2 _ _ _ Hnd) as Hnot.
  rewrite Hpm in Hlen |- *. destruct (over s').
  - split; [intros []|]. split; [intros x []|]. simpl in *. lia.
  - split; [assumption|]. split; [|lia]. intros x Hx. rewrite Epm.
    apply in_app_or in Hx as [Hx|Hx]; apply in_or_app; [now left|].
    right. now right.
Qed.

Lemma play_moves (ms : list string) (s s' : StonehengeState) :
  constructed s ->
  play s ms = Ret s' ->
  List.NoDup ms
  /\ (forall m, In m ms -> In m (possible_moves s))
  /\ (length ms + length (possible_moves s') <= length (possible_moves s))%nat.
Proof.
  revert s. induction ms as [|m ms IH]; intros s Hc Hp.
  - injection Hp as <-. split; [constructor|]. split; [intros m []|].
    simpl. lia.
  - simpl in Hp. apply bind_Ret_inv in Hp as (s1 & Hm & Hp).
    destruct (IH s1 (constructed_move _ _ _ Hc Hm) Hp) as (I1 & I2 & I3).
    destruct (make_move_moves _ _ _ (constructed_NoDup _ Hc) Hm)
      as (M1 & M2 & M3).
    split; [|split].
    + constructor; [|assumption]. intros Hin. apply M1. now apply I2.
    + intros x [<- | Hx]; [exact (make_move_In _ _ _ Hm)|].
      apply M2. now apply I2.
    + simpl. lia.
Qed.

(** X8: in a play of a game no cell is played twice, every move is one
    of the [(n^2 + 5n) / 2] letters of the board, and so the play has at
    most that many moves. *)
Theorem play_bound (is_p1 : bool) (n : Z) (g : Stonehenge)
  (ms : list string) (s' : StonehengeState) :
  0 <= n ->
  Stonehenge_init is_p1 n = Ret g ->
  play (current_state g) ms = Ret s' ->
  List.NoDup ms
  /\ (forall m, In m ms -> In m (take (Z.to_nat (total_cells n)) ALPHA))
  /\ Z.of_nat (length ms) + Z.of_nat (length (possible_moves s'))
     <= total_cells n.
Proof.
  intros Hn Hg Hp.
  assert (Ht : 0 <= total_cells n).
  { unfold total_cells. apply Z.div_pos; nia. }
  pose proof (Stonehenge_init_state _ _ _ Hg) as Hst.
  assert (Hcon : constructed (current_state g))
    by (rewrite Hst; constructor).
  assert (Hpm : possible_moves (current_state g)
                = take (Z.to_nat (total_cells n)) ALPHA).
  { rewrite Hst. simpl. unfold py_slice_to. fold (total_cells n).
    now destruct (Z.leb_spec 0 (total_cells n)); [|lia]. }
  destruct (play_moves _ _ _ Hcon Hp) as (P1 & P2 & P3).
  rewrite Hpm in P2, P3. split; [assumption|]. split; [assumption|].
  rewrite length_take in P3. lia.
Qed.

Lemma play_bound_witness :
  List.NoDup ["A"; "C"]
  /\ (forall m, In m ["A"; "C"] ->
        In m (take (Z.to_nat (total_cells 2)) ALPHA))
  /\ Z.of_nat (length ["A"; "C"])
     + Z.of_nat (length (possible_moves
                           (current_state (after (new_game true 2) ["A"; "C"]))))
     <= total_cells 2.
Proof.
  assert (H0 : 0 <= 2) by lia.
  assert (Hg : Stonehenge_init true 2 = Ret (new_game true 2))
    by (vm_compute; reflexivity).
  assert (Hp : play (current_state (new_game true 2)) ["A"; "C"]
               = Ret (current_state (after (new_game true 2) ["A"; "C"])))
    by (vm_compute; reflexivity).
  exact (play_bound true 2 _ _ _ H0 Hg Hp).
Defined.

(** X9: in a game the state has no possible move exactly when the game
    is over: a board whose cells are all claimed has all its leylines
    captured, and one of the two scores has reached the threshold. *)
Theorem no_moves_iff_over (g : Stonehenge) (s : StonehengeState) :
  reachable s ->
  get_possible_moves s = [] <-> is_over g s = true.
Proof.
  intros Hr. pose proof (reachable_wf _ Hr) as Hwf.
  rewrite is_over_over. unfold get_possible_moves. split.
  - intros Hnil. destruct (over s) eqn:Ho; [reflexivity|].
    exfalso. exact (wf_has_moves _ Hwf Ho Hnil).
  - intros Ho. pose proof (wf_moves s Hwf) as H. now rewrite Ho in H.
Qed.

Lemma no_moves_iff_over_witness :
  get_possible_moves (current_state (new_game true 2)) = []
  <-> is_over (new_game true 2) (current_state (new_game true 2)) = true.
Proof.
  assert (Hr : reachable (current_state (new_game true 2))).
  { apply (reachable_init true 2); [lia | vm_compute; reflexivity]. }
  exact (no_moves_iff_over (new_game true 2) _ Hr).
Defined.

End Plays.

(** * The three families as views of one board *)

Section FamilyViews.

(** One call of [change_letter] that finds the cell: the mover's tag
    takes the place of one cell of the family. *)
Lemma change_letter_counts (f : family) (m : string)
  (s s' : StonehengeState) (p : string) :
  change_letter f m s = Ret s' ->
  claimed m = false ->
  In m (cells (lines f s)) ->
  p = "1" \/ p = "2" ->
  py_count p (cells (lines f s'))
  = py_count p (cells (lines f s))
    + (if String.eqb p (tag_of s) then 1 else 0).
Proof.
  intros Hs' Hm Hin Hp.
  destruct (change_letter_spec f m s)
    as [[Hmiss _]|(pre & ley & post & l1 & l2 & Hhit & E)].
  { exfalso. unfold cells in Hin. apply in_flat_map in Hin as (k & Hk & Hin).
    rewrite Forall_forall in Hmiss. apply list_elem_of_In in Hk.
    now apply (Hmiss k Hk). }
  simpl in E. rewrite E in Hs'. injection Hs' as <-.
  fold (tag_of s) in *. set (ley' := set_letters _ ley) in *.
  rewrite lines_set_lines.
  destruct Hhit as [pre ley post l1 l2 Hpre Hley Hn].
  assert (E' : letters (capture (captor ley') ley') = l1 ++ tag_of s :: l2)
    by (destruct (captor ley'); reflexivity).
  rewrite !cells_hit, E', Hley, !py_count_app, !py_count_cons.
  rewrite (claimed_count m p Hm Hp). lia.
Qed.

Lemma make_move_counts (s : StonehengeState) (m : string)
  (s' : StonehengeState) (f : family) (p : string) :
  reachable s ->
  make_move s m = Ret s' ->
  p = "1" \/ p = "2" ->
  Permutation (free_cells (lines f s)) (m :: free_cells (lines f s'))
  /\ py_count p (cells (lines f s'))
     = py_count p (cells (lines f s))
       + (if String.eqb p (tag_of s) then 1 else 0).
Proof.
  intros Hr Hmv Hp.
  destruct (reachable_move_free _ _ _ Hr Hmv) as (_ & Hm & Hin).
  destruct (make_move_family _ _ _ f Hmv) as (a & a' & Hc & Ha & Ht & Ha').
  rewrite Ha'. rewrite <- Ha.
  assert (Hin' : In m (cells (lines f a))) by (rewrite Ha; apply Hin).
  assert (Hok : Forall line_ok (lines f a)).
  { rewrite Ha. apply (wf_lines s (reachable_wf _ Hr)). }
  destruct (change_letter_wf f m a a' Hc Hm Hin' Hok) as (_ & _ & _ & _ & HP).
  split; [exact HP|].
  rewrite (change_letter_counts f m a a' p Hc Hm Hin' Hp).
  unfold tag_of. now rewrite Ht.
Qed.

(** X16: in a game the three families stay three views of one board:
    the cells still free in the right or left diagonals are those still
    free in the rows, and each player holds as many cells in each family;
    a move takes the played cell out of all three families and adds one
    cell to the mover in each. *)
Theorem families_agree (s : StonehengeState) (f : family) :
  reachable s ->
  Permutation (free_cells (lines f s)) (free_cells (h_lines s))
  /\ py_count "1" (cells (lines f s)) = py_count "1" (cells (h_lines s))
  /\ py_count "2" (cells (lines f s)) = py_count "2" (cells (h_lines s))
  /\ forall m s',
       make_move s m = Ret s' ->
       ~ In m (cells (lines f s'))
       /\ py_count (tag_of s) (cells (lines f s'))
          = py_count (tag_of s) (cells (lines f s)) + 1.
Proof.
  intros Hr.
  assert (Hinv : forall f,
             Permutation (free_cells (lines f s)) (free_cells (h_lines s))
             /\ py_count "1" (cells (lines f s))
                = py_count "1" (cells (h_lines s))
             /\ py_count "2" (cells (lines f s))
                = py_count "2" (cells (h_lines s))).
  { clear f. induction Hr as [is_p1 n g Hn Hg | s m s' Hr IH Hm].
    - assert (n <= 5) as H5 by exact (Stonehenge_init_length _ _ _ Hn Hg).
      assert (H : 0 <= n <= 5) by lia.
      destruct (small_cases n H) as [->|[->|[->|[->|[->| ->]]]]]; [lia|..];
        vm_compute in Hg; injection Hg as <-;
        intros []; (split; [apply (bool_decide_unpack _); vm_compute;
                            reflexivity|]); split; reflexivity.
    - intros f. destruct (IH f) as (I1 & I2 & I3).
      destruct (make_move_counts s m s' f "1" Hr Hm) as [P1 C1]; [auto|].
      destruct (make_move_counts s m s' f "2" Hr Hm) as [_ C2]; [auto|].
      destruct (make_move_counts s m s' Hoz "1" Hr Hm) as [Q1 D1]; [auto|].
      destruct (make_move_counts s m s' Hoz "2" Hr Hm) as [_ D2]; [auto|].
      cbn [lines] in Q1, D1, D2. split; [|split; lia].
      apply (Permutation_cons_inv (a := m)).
      rewrite <- P1, <- Q1. exact I1. }
  destruct (Hinv f) as (I1 & I2 & I3).
  split; [assumption|]. split; [assumption|]. split; [assumption|].
  intros m s' Hm.
  assert (Ht : tag_of s = "1" \/ tag_of s = "2")
    by (unfold tag_of; destruct (p1_turn s); auto).
  destruct (make_move_counts s m s' f (tag_of s) Hr Hm Ht) as [P C].
  rewrite String.eqb_refl in C. split; [|exact C].
  destruct (reachable_move_free _ _ _ Hr Hm) as (Ho & Hcl & _).
  intros Hin.
  assert (Hfree : In m (free_cells (lines f s'))).
  { unfold free_cells. apply List.filter_In. split; [assumption|].
    now rewrite Hcl. }
  pose proof (reachable_wf _ Hr) as Hwf.
  pose proof (wf_moves s Hwf) as Hp. rewrite Ho in Hp.
  pose proof (wf_nodup s Hwf) as Hnd.
  rewrite <- (Hp f), P in Hnd.
  apply NoDup_cons in Hnd as [Hnot _]. apply Hnot.
  now apply list_elem_of_In.
Qed.

Lemma families_agree_witness :
  Permutation
    (free_cells (l_lines (current_state (after (new_game true 2) ["D"]))))
    (free_cells (h_lines (current_state (after (new_game true 2) ["D"])))).
Proof.
  assert (Hr : reachable (current_state (after (new_game true 2) ["D"]))).
  { apply (reachable_move (current_state (new_game true 2)) "D");
      [|vm_compute; reflexivity].
    apply (reachable_init true 2); [lia | vm_compute; reflexivity]. }
  exact (proj1 (families_agree _ LeftDiag Hr)).
Defined.

End FamilyViews.

(** * The rough outcome and the strategies *)

Section RoughOutcome.

Lemma check_good_move_Ret (s : StonehengeState) (m : string) (b : bool) :
  check_good_move s m = Ret b <->
  exists s', make_move s m = Ret s' /\ over s' = b.
Proof.
  unfold check_good_move, give_copy. split.
  - intros H. apply bind_Ret_inv in H as (s' & Hm & H).
    injection H as <-. now exists s'.
  - intros (s' & -> & <-). reflexivity.
Qed.

Lemma goods_total (s : StonehengeState) :
  exists goods,
    comprehension (check_good_move s) (possible_moves s) = Ret goods
    /\ length goods = length (possible_moves s).
Proof.
  destruct (comprehension_total (check_good_move s) (possible_moves s))
    as (goods & Hg).
  { intros m Hm. destruct (make_move_defined s m Hm) as (s' & Hs').
    exists (over s'). apply check_good_move_Ret. eauto. }
  exists goods. split; [assumption|].
  apply comprehension_inv in Hg. symmetry. eapply Forall2_length; eauto.
Qed.

Lemma list_states_total (s : StonehengeState) :
  exists states,
    list_states s = Ret states
    /\ Forall2 (fun m st => make_move s m = Ret st) (possible_moves s) states.
Proof.
  destruct (comprehension_total (give_copy s) (possible_moves s))
    as (states & Hs).
  { intros m Hm. exact (make_move_defined s m Hm). }
  exists states. split; [assumption|]. now apply comprehension_inv in Hs.
Qed.

Lemma all_of_lists_true (states : list StonehengeState) :
  Forall (fun st => possible_moves st <> []) states ->
  all_of_lists states = Ret true.
Proof.
  induction 1 as [|st states Hst _ IH]; [reflexivity|]. simpl.
  destruct (goods_total st) as (goods & -> & Hlen). simpl.
  destruct goods as [|b goods]; [|exact IH].
  destruct (possible_moves st); [contradiction | discriminate].
Qed.

Lemma py_any_true (l : list bool) : py_any l = true <-> In true l.
Proof.
  unfold py_any. rewrite existsb_exists. split.
  - intros (b & Hb & Hid). unfold id in Hid. now subst.
  - intros H. now exists true.
Qed.

Lemma rough_outcome_cases (s : StonehengeState) :
  reachable s ->
  (rough_outcome s = Ret 1
   /\ exists m s', In m (possible_moves s)
                   /\ make_move s m = Ret s' /\ over s' = true)
  \/ (rough_outcome s = Ret (-1)
      /\ ~ exists m s', In m (possible_moves s)
                        /\ make_move s m = Ret s' /\ over s' = true).
Proof.
  intros Hr. pose proof (reachable_wf _ Hr) as Hwf.
  unfold rough_outcome.
  destruct (over s) eqn:Ho.
  - right. pose proof (wf_moves s Hwf) as Hnil. rewrite Ho in Hnil.
    rewrite Hnil. split; [|intros (m & _ & [] & _)].
    destruct (_ || _); [reflexivity|]. unfold list_states. rewrite Hnil.
    reflexivity.
  - assert (Hp1 : (win_threshold (b_length s) <=? p1_score s) = false).
    { unfold over in Ho. now apply orb_false_iff in Ho as [-> _]. }
    rewrite Hp1. simpl.
    destruct (goods_total s) as (goods & Hg & _). rewrite Hg. simpl.
    pose proof (comprehension_inv _ _ _ Hg) as Hf.
    destruct (py_any goods) eqn:Hany.
    + left. split; [reflexivity|]. apply py_any_true in Hany.
      apply list_elem_of_In, list_elem_of_lookup_1 in Hany as (i & Hi).
      destruct (Forall2_lookup_r _ _ _ _ _ Hf Hi) as (m & Hm & Hc).
      apply check_good_move_Ret in Hc as (s' & Hs' & Hov).
      exists m, s'. split; [|now split].
      apply list_elem_of_In. eapply list_elem_of_lookup_2; eauto.
    + right.
      assert (Hnone : ~ exists m s', In m (possible_moves s)
                                     /\ make_move s m = Ret s'
                                     /\ over s' = true).
      { intros (m & s' & Hm & Hs' & Hov).
        apply list_elem_of_In, list_elem_of_lookup_1 in Hm as (i & Hi).
        destruct (Forall2_lookup_l _ _ _ _ _ Hf Hi) as (b & Hb & Hc).
        apply check_good_move_Ret in Hc as (s'' & Hs'' & Hov').
        rewrite Hs' in Hs''. injection Hs'' as <-. rewrite Hov in Hov'.
        subst b. apply list_elem_of_lookup_2, list_elem_of_In in Hb.
        apply py_any_true in Hb. congruence. }
      split; [|exact Hnone].
      destruct (list_states_total s) as (states & -> & Hst). simpl.
      rewrite all_of_lists_true; [reflexivity|].
      apply Forall_forall. intros st Hin.
      apply list_elem_of_lookup_1 in Hin as (i & Hi).
      destruct (Forall2_lookup_r _ _ _ _ _ Hst Hi) as (m & Hm & Hmv).
      apply wf_has_moves.
      * exact (reachable_wf _ (reachable_move _ _ _ Hr Hmv)).
      * destruct (over st) eqn:Hov; [|reflexivity]. exfalso. apply Hnone.
        exists m, st. split; [|now split].
        apply list_elem_of_In. eapply list_elem_of_lookup_2; eauto.
Qed.

(** X10: on every state of a game [rough_outcome] returns 1 when some
    possible move ends the game, and -1 in every other case, also when
    the state is over; it never returns 0. *)
Theorem rough_outcome_value (s : StonehengeState) :
  reachable s ->
  (rough_outcome s = Ret 1 \/ rough_outcome s = Ret (-1))
  /\ (rough_outcome s = Ret 1 <->
      exists m s', In m (get_possible_moves s) /\ make_move s m = Ret s'
                   /\ over s' = true).
Proof.
  intros Hr. unfold get_possible_moves.
  destruct (rough_outcome_cases s Hr) as [[H1 H2]|[H1 H2]].
  - split; [now left|]. split; auto.
  - split; [now right|]. rewrite H1. split; [discriminate|].
    intros H. contradiction.
Qed.

Lemma rough_outcome_value_witness :
  rough_outcome (current_state (new_game true 1)) = Ret 1
  \/ rough_outcome (current_state (new_game true 1)) = Ret (-1).
Proof.
  assert (Hr : reachable (current_state (new_game true 1))).
  { apply (reachable_init true 1); [lia | vm_compute; reflexivity]. }
  exact (proj1 (rough_outcome_value _ Hr)).
Defined.

Lemma all_of_lists_total (states : list StonehengeState) :
  exists b, all_of_lists states = Ret b.
Proof.
  induction states as [|st states [b IH]]; [now eexists|]. simpl.
  destruct (goods_total st) as (goods & -> & _). simpl.
  destruct goods; [now eexists|]. now exists b.
Qed.

(** X20: [rough_outcome] never raises: on every state whatsoever it
    returns -1, 0 or 1. *)
Theorem rough_outcome_total (s : StonehengeState) :
  rough_outcome s = Ret (-1) \/ rough_outcome s = Ret 0
  \/ rough_outcome s = Ret 1.
Proof.
  unfold rough_outcome. destruct (_ || _); [now left|].
  destruct (goods_total s) as (goods & -> & _). simpl.
  destruct (py_any goods); [now right; right|].
  destruct (list_states_total s) as (states & -> & _). simpl.
  destruct (all_of_lists_total states) as (b & ->). simpl.
  destruct b; auto.
Qed.

End RoughOutcome.

Section Strategies.

(** The loop of [rough_outcome_strategy] on moves whose outcomes are
    known. *)
Lemma strategy_loop (s : StonehengeState) (moves : list string)
  (ws : list Z) :
  Forall2 (fun m w => exists s', make_move s m = Ret s'
                                 /\ rough_outcome s' = Ret w) moves ws ->
  forall (bm : option string) (bo : Z),
  exists bm' bo',
    for_each moves
      (fun '(best_move, best_outcome) move =>
         let* new_state := make_move s move in
         let* outcome := rough_outcome new_state in
         let guessed_score := outcome * -1 in
         if best_outcome <? guessed_score
         then Ret (Some move, guessed_score)
         else Ret (best_move, best_outcome))
      (bm, bo) = Ret (bm', bo')
    /\ ((bm' = bm /\ bo' = bo /\ Forall (fun w => - w <= bo) ws)
        \/ exists (i : nat) m w,
             moves !! i = Some m /\ ws !! i = Some w
             /\ bm' = Some m /\ bo' = - w /\ bo < - w
             /\ forall (j : nat) w', ws !! j = Some w' ->
                  w <= w' /\ ((j < i)%nat -> w < w')).
Proof.
  induction 1 as [|m w moves ws (s' & Hs' & Hw) _ IH]; intros bm bo.
  - exists bm, bo. split; [reflexivity|]. left. repeat split. constructor.
  - cbn [for_each]. rewrite Hs'. cbn [bind]. rewrite Hw. cbn [bind].
    cbv zeta. destruct (Z.ltb_spec bo (w * -1)) as [Hlt|Hge]; cbn [bind].
    + destruct (IH (Some m) (w * -1)) as (bm' & bo' & Hl & H).
      exists bm', bo'. split; [exact Hl|]. right.
      destruct H as [(-> & -> & Hall)|(i & m' & w' & Hi & Hwi & -> & -> & Hlt'
                                        & Hbest)].
      * exists O, m, w. split; [reflexivity|]. split; [reflexivity|].
        split; [reflexivity|]. split; [lia|]. split; [lia|].
        intros j w' H. split; [|lia].
        destruct j as [|j]; simpl in H; [injection H as <-; lia|].
        rewrite Forall_forall in Hall.
        apply list_elem_of_lookup_2 in H. specialize (Hall _ H). lia.
      * exists (S i), m', w'. split; [exact Hi|]. split; [exact Hwi|].
        split; [reflexivity|]. split; [reflexivity|]. split; [lia|].
        intros j w'' H. destruct j as [|j]; simpl in H.
        -- injection H as <-. lia.
        -- destruct (Hbest j w'' H) as [B1 B2]. split; [assumption|].
           intros Hj. apply B2. lia.
    + destruct (IH bm bo) as (bm' & bo' & Hl & H).
      exists bm', bo'. split; [exact Hl|].
      destruct H as [(-> & -> & Hall)|(i & m' & w' & Hi & Hwi & -> & -> & Hlt'
                                        & Hbest)].
      * left. split; [reflexivity|]. split; [reflexivity|].
        constructor; [lia | assumption].
      * right. exists (S i), m', w'. split; [exact Hi|]. split; [exact Hwi|].
        split; [reflexivity|]. split; [reflexivity|]. split; [lia|].
        intros j w'' H. destruct j as [|j]; simpl in H.
        -- injection H as <-. lia.
        -- destruct (Hbest j w'' H) as [B1 B2]. split; [assumption|].
           intros Hj. apply B2. lia.
Qed.

(** X11: on a state of a game that is not over, [rough_outcome_strategy]
    returns a possible move: the first of the possible moves whose
    resulting state has the lowest [rough_outcome]. *)
Theorem rough_outcome_strategy_first_lowest (g : Stonehenge) :
  reachable (current_state g) ->
  is_over g (current_state g) = false ->
  exists (i : nat) (m : string) (s' : StonehengeState) (w : Z),
    rough_outcome_strategy g = Ret (Some m)
    /\ get_possible_moves (current_state g) !! i = Some m
    /\ make_move (current_state g) m = Ret s'
    /\ rough_outcome s' = Ret w
    /\ forall (j : nat) m' s'' w',
         get_possible_moves (current_state g) !! j = Some m' ->
         make_move (current_state g) m' = Ret s'' ->
         rough_outcome s'' = Ret w' ->
         w <= w' /\ ((j < i)%nat -> w < w').
Proof.
  intros Hr Ho. rewrite is_over_over in Ho.
  set (s := current_state g) in *. unfold get_possible_moves.
  pose proof (reachable_wf _ Hr) as Hwf.
  assert (Hws : exists ws,
             Forall2 (fun m w => exists s', make_move s m = Ret s'
                                            /\ rough_outcome s' = Ret w)
               (possible_moves s) ws
             /\ Forall (fun w => w = 1 \/ w = -1) ws).
  { assert (Hall : forall m, In m (possible_moves s) ->
               exists w s', make_move s m = Ret s' /\ rough_outcome s' = Ret w
                            /\ (w = 1 \/ w = -1)).
    { intros m Hm. destruct (make_move_defined s m Hm) as (s' & Hs').
      destruct (rough_outcome_cases s' (reachable_move _ _ _ Hr Hs'))
        as [[H _]|[H _]]; eauto 6. }
    clear - Hall. induction (possible_moves s) as [|m l IH].
    - exists []. split; constructor.
    - destruct IH as (ws & H1 & H2); [intros; apply Hall; now right|].
      destruct (Hall m) as (w & s' & Hs' & Hw & Hv); [now left|].
      exists (w :: ws). split; constructor; eauto. }
  destruct Hws as (ws & Hf & Hv).
  destruct (strategy_loop s _ _ Hf None (-2)) as (bm & bo & Hloop & H).
  unfold rough_outcome_strategy, get_possible_moves. cbv zeta in Hloop |- *.
  fold s. rewrite Hloop. cbn [bind].
  destruct H as [(_ & _ & Hall)|(i & m & w & Hi & Hwi & -> & _ & _ & Hbest)].
  - exfalso. pose proof (wf_has_moves _ Hwf Ho) as Hne.
    destruct Hf as [|m w l ws' _ _]; [contradiction|].
    apply Forall_cons in Hall as [Hall _].
    apply Forall_cons in Hv as [Hv _]. lia.
  - destruct (Forall2_lookup_l _ _ _ _ _ Hf Hi) as (w0 & Hw0 & s' & Hs' & Hw).
    rewrite Hwi in Hw0. injection Hw0 as <-.
    exists i, m, s', w. repeat split; auto.
    + destruct (Forall2_lookup_l _ _ _ _ _ Hf H) as (w1 & Hw1 & s1 & Hs1 & Hr1).
      rewrite H0 in Hs1. injection Hs1 as <-. rewrite H1 in Hr1.
      injection Hr1 as <-. apply (Hbest j w' Hw1).
    + destruct (Forall2_lookup_l _ _ _ _ _ Hf H) as (w1 & Hw1 & s1 & Hs1 & Hr1).
      rewrite H0 in Hs1. injection Hs1 as <-. rewrite H1 in Hr1.
      injection Hr1 as <-. apply (Hbest j w' Hw1).
Qed.

Lemma rough_outcome_strategy_first_lowest_witness :
  exists (i : nat) (m : string) (s' : StonehengeState) (w : Z),
    rough_outcome_strategy (new_game true 1) = Ret (Some m)
    /\ get_possible_moves (current_state (new_game true 1)) !! i = Some m
    /\ make_move (current_state (new_game true 1)) m = Ret s'
    /\ rough_outcome s' = Ret w
    /\ forall (j : nat) m' s'' w',
         get_possible_moves (current_state (new_game true 1)) !! j = Some m' ->
         make_move (current_state (new_game true 1)) m' = Ret s'' ->
         rough_outcome s'' = Ret w' ->
         w <= w' /\ ((j < i)%nat -> w < w').
Proof.
  assert (Hr : reachable (current_state (new_game true 1))).
  { apply (reachable_init true 1); [lia | vm_compute; reflexivity]. }
  assert (Ho : is_over (new_game true 1) (current_state (new_game true 1))
               = false) by (vm_compute; reflexivity).
  exact (rough_outcome_strategy_first_lowest _ Hr Ho).
Defined.

(** X12: on a game with no possible move, as every game that is over,
    the two minimax strategies raise [ValueError], from [max] of an empty
    list, whatever the bound on the search, and [rough_outcome_strategy]
    returns [None]. *)
Theorem strategies_without_moves (g : Stonehenge) (fuel : nat) :
  get_possible_moves (current_state g) = [] ->
  recursive_minimax fuel g = Raise ValueError
  /\ iterative_minimax fuel g = Raise ValueError
  /\ rough_outcome_strategy g = Ret None.
Proof.
  intros H. unfold recursive_minimax, iterative_minimax,
    rough_outcome_strategy. rewrite H. repeat split.
Qed.

Lemma strategies_without_moves_witness :
  recursive_minimax 5 (after (new_game true 1) ["A"]) = Raise ValueError
  /\ iterative_minimax 5 (after (new_game true 1) ["A"]) = Raise ValueError
  /\ rough_outcome_strategy (after (new_game true 1) ["A"]) = Ret None.
Proof.
  assert (H : get_possible_moves
                (current_state (after (new_game true 1) ["A"])) = [])
    by (vm_compute; reflexivity).
  exact (strategies_without_moves _ 5 H).
Defined.

Lemma recursive_helper_sign (fuel : nat) :
  forall (g : Stonehenge) (v : Z),
    reachable (current_state g) ->
    recursive_helper fuel g = Ret v -> v = 1 \/ v = -1.
Proof.
  induction fuel as [|fuel IH]; intros g v Hr Hv; [discriminate|].
  destruct (is_over g (current_state g)) eqn:Ho.
  - simpl in Hv. rewrite Ho, (is_over_winner g Ho) in Hv.
    injection Hv as <-. now right.
  - destruct (recursive_helper_node fuel g v Ho Hv) as (ws & Hc & Hmax).
    apply py_max_spec in Hmax as [Hin _].
    apply in_map_iff in Hin as (w & <- & Hw).
    apply list_elem_of_In, list_elem_of_lookup_1 in Hw as (i & Hi).
    destruct (child_values_lookup fuel g ws i Hc) as [_ H].
    destruct (H w Hi) as (m & s' & _ & Hs' & Hrec).
    destruct (IH (set_current_state s' g) w) as [-> | ->]; auto.
    simpl. exact (reachable_move _ _ _ Hr Hs').
Qed.

(** X13: Stonehenge has no draw: on every state of a game, with one
    frame of call stack per free cell and one more, [recursive_helper]
    returns 1 or -1, never 0, and [iterative_helper] returns the same
    from some number of passes on. *)
Theorem helpers_never_draw (g : Stonehenge) (fuel : nat) :
  reachable (current_state g) ->
  (length (possible_moves (current_state g)) < fuel)%nat ->
  exists v,
    recursive_helper fuel g = Ret v
    /\ (v = 1 \/ v = -1)
    /\ exists N, forall fuel', (N <= fuel')%nat ->
         iterative_helper fuel' g = Ret v.
Proof.
  intros Hr Hf.
  destruct (recursive_helper_total fuel g (reachable_wf _ Hr) Hf) as (v & Hv).
  exists v. split; [assumption|].
  split; [exact (recursive_helper_sign fuel g v Hr Hv)|].
  exact (iterative_helper_agrees fuel g v Hv).
Qed.

Lemma helpers_never_draw_witness :
  exists v,
    recursive_helper 4 (new_game true 1) = Ret v
    /\ (v = 1 \/ v = -1)
    /\ exists N, forall fuel', (N <= fuel')%nat ->
         iterative_helper fuel' (new_game true 1) = Ret v.
Proof.
  assert (Hr : reachable (current_state (new_game true 1))).
  { apply (reachable_init true 1); [lia | vm_compute; reflexivity]. }
  assert (Hf : (length (possible_moves (current_state (new_game true 1)))
                < 4)%nat) by (vm_compute; lia).
  exact (helpers_never_draw _ 4 Hr Hf).
Defined.

End Strategies.

(** * Printing a state *)

Section Printing.

Lemma append_cons (x : ascii) (a b : string) :
  String x a +:+ b = String x (a +:+ b).
Proof. reflexivity. Qed.

Lemma append_assoc (a b c : string) : (a +:+ b) +:+ c = a +:+ b +:+ c.
Proof.
  induction a as [|x a IH]; [reflexivity|].
  now rewrite !append_cons, IH.
Qed.

Lemma shown_cons (c : ascii) (a out : string) :
  shown a out -> shown a (String c out).
Proof. intros (pre & post & ->). now exists (String c pre), post. Qed.

Lemma shown_append (b a out : string) : shown a out -> shown a (b +:+ out).
Proof.
  intros (pre & post & ->). exists (b +:+ pre), post.
  symmetry. apply append_assoc.
Qed.

Lemma shown_here (a out : string) : shown a (a +:+ out).
Proof. now exists EmptyString, out. Qed.

Lemma py_format_step (c d : ascii) (t : string) (args : list string) :
  py_format (String c (String d t)) args
  = if Ascii.eqb c "{" && Ascii.eqb d "}"
    then match args with
         | [] => Raise IndexError
         | a :: args' => let* out := py_format t args' in Ret (a +:+ out)
         end
    else let* out := py_format (String d t) args in Ret (String c out).
Proof. reflexivity. Qed.

Lemma fields_step (c d : ascii) (t : string) :
  fields (String c (String d t))
  = if Ascii.eqb c "{" && Ascii.eqb d "}" then S (fields t)
    else fields (String d t).
Proof. reflexivity. Qed.

(** Every argument that a template has a field for occurs in the result. *)
Lemma py_format_shows (n : nat) :
  forall (t : string) (args : list string) (out : string),
    (String.length t <= n)%nat ->
    py_format t args = Ret out ->
    forall a, In a (take (fields t) args) -> shown a out.
Proof.
  induction n as [|n IH]; intros t args out Hlen Hf a Ha.
  - destruct t; [|simpl in Hlen; lia]. contradiction.
  - destruct t as [|c [|d t'']]; [contradiction..|].
    rewrite py_format_step in Hf. rewrite fields_step in Ha. simpl in Hlen.
    destruct (Ascii.eqb c "{" && Ascii.eqb d "}").
    + destruct args as [|a0 args]; [discriminate|].
      apply bind_Ret_inv in Hf as (out' & Hf & E). injection E as <-.
      destruct Ha as [<- | Ha]; [apply shown_here|].
      apply shown_append. apply (IH t'' args out'); [lia | assumption..].
    + apply bind_Ret_inv in Hf as (out' & Hf & E). injection E as <-.
      apply shown_cons. apply (IH (String d t'') args out');
        [simpl; lia | assumption..].
Qed.

(** A template with no more fields than arguments is filled. *)
Lemma py_format_total (n : nat) :
  forall (t : string) (args : list string),
    (String.length t <= n)%nat ->
    (fields t <= length args)%nat ->
    exists out, py_format t args = Ret out.
Proof.
  induction n as [|n IH]; intros t args Hlen Hf.
  - destruct t; [|simpl in Hlen; lia]. now eexists.
  - destruct t as [|c [|d t'']]; [now eexists..|].
    rewrite fields_step in Hf. rewrite py_format_step. simpl in Hlen.
    destruct (Ascii.eqb c "{" && Ascii.eqb d "}").
    + destruct args as [|a0 args]; [simpl in Hf; lia|].
      destruct (IH t'' args) as (out & ->); [lia | simpl in Hf; lia|].
      now eexists.
    + destruct (IH (String d t'') args) as (out & ->);
        [simpl; lia | assumption|].
      now eexists.
Qed.

End Printing.

Section Rendering.

(** The states of a game keep the shape of the board they started on. *)
Lemma reachable_shape (s : StonehengeState) :
  reachable s ->
  1 <= b_length s <= 5
  /\ forall f,
       map (fun ley => length (letters ley)) (lines f s)
       = map (fun ley => length (letters ley))
           (lines f (current_state (new_game true (b_length s)))).
Proof.
  induction 1 as [is_p1 n g Hn Hg | s m s' Hr IH Hm].
  - assert (n <= 5) as H5 by exact (Stonehenge_init_length _ _ _ Hn Hg).
    assert (H : 0 <= n <= 5) by lia.
    destruct (small_cases n H) as [->|[->|[->|[->|[->| ->]]]]]; [lia|..];
      vm_compute in Hg; injection Hg as <-; (split; [simpl; lia|]);
      intros []; reflexivity.
  - destruct IH as [IH1 IH2].
    destruct (make_move_fields _ _ _ Hm) as (Hb & _). rewrite Hb.
    split; [assumption|]. intros f.
    rewrite (make_move_lengths _ _ _ f Hm). apply IH2.
Qed.

Ltac explode :=
  repeat match goal with
    | H : map _ ?l = _ :: _ |- _ =>
        is_var l; destruct l as [|[? ?] ?]; [discriminate H|];
        cbn [map letters] in H;
        let H1 := fresh "L" in injection H as H1 H
    | H : map _ ?l = [] |- _ =>
        is_var l; destruct l; [clear H | discriminate H]
    | H : length ?l = S _ |- _ =>
        is_var l; destruct l; [discriminate H|];
        cbn [length] in H; apply Nat.succ_inj in H
    | H : length ?l = O |- _ =>
        is_var l; destruct l; [clear H | discriminate H]
    end.

Ltac compute_rhs H :=
  match type of H with
  | _ = ?r => let r' := eval vm_compute in r in change r with r' in H
  end.

Ltac in_list := solve [repeat (first [left; reflexivity | right])].

Ltac render tmpl :=
  match goal with
  | |- exists out, _ = Ret out /\ _ =>
      match goal with
      | |- context [py_args ?l] =>
          let args := fresh "args" in
          let Ha := fresh "Ha" in
          evar (args : list string);
          assert (Ha : py_args l = Ret args)
            by (subst args; vm_compute; reflexivity);
          rewrite Ha; cbn [bind];
          destruct (py_format_total (String.length tmpl) tmpl args)
            as (out & Hout);
          [reflexivity | vm_compute; lia|];
          exists out; split; [exact Hout|];
          pose proof (py_format_shows (String.length tmpl) tmpl args out
                        (Nat.le_refl _) Hout) as Hsh;
          replace (take (fields tmpl) args) with args in Hsh
            by (subst args; vm_compute; reflexivity);
          subst args;
          split;
          [ intros x Hx; apply Hsh; cbn in Hx;
            repeat (destruct Hx as [<- | Hx]; [in_list|]); contradiction
          | intros f x Hx; apply Hsh; destruct f; cbn in Hx;
            repeat (destruct Hx as [<- | Hx]; [in_list|]); contradiction ]
      end
  end.

Lemma render_ok (s : StonehengeState) :
  1 <= b_length s <= 5 ->
  (forall f,
      map (fun ley => length (letters ley)) (lines f s)
      = map (fun ley => length (letters ley))
          (lines f (current_state (new_game true (b_length s))))) ->
  exists out,
    __str__ s = Ret out
    /\ (forall x, In x (cells (h_lines s)) -> shown x out)
    /\ (forall f x, In x (get_leyline_value (lines f s)) -> shown x out).
Proof.
  intros Hb Hs.
  pose proof (Hs Hoz) as Hh. pose proof (Hs RightDiag) as Hr.
  pose proof (Hs LeftDiag) as Hl. clear Hs.
  destruct s as [t b p1 p2 hl rl ll pm].
  cbn [b_length lines h_lines r_lines l_lines] in *.
  assert (H : 0 <= b <= 5) by lia.
  destruct (small_cases b H) as [->|[->|[->|[->|[->| ->]]]]]; [lia|..];
    clear Hb H; compute_rhs Hh; compute_rhs Hr; compute_rhs Hl; explode;
    unfold __str__; cbn [b_length Z.eqb Pos.eqb].
  - unfold one. cbv zeta. cbn [h_lines r_lines l_lines]. render one_template.
  - unfold two. cbv zeta. cbn [h_lines r_lines l_lines]. render two_template.
  - unfold three. cbv zeta. cbn [h_lines r_lines l_lines].
    render three_template.
  - unfold four. cbv zeta. cbn [h_lines r_lines l_lines].
    render four_template.
  - unfold five. cbv zeta. cbn [h_lines r_lines l_lines].
    render five_template.
Qed.

End Rendering.

Section PrintingGames.

(** X14: every state of a game can be printed: [__str__] returns a
    string, and [__repr__] returns that string followed by a line with
    the two scores and a line naming the player to move. *)
Theorem printing_total (s : StonehengeState) :
  reachable s ->
  exists out,
    __str__ s = Ret out
    /\ __repr__ s
       = Ret (out +:+ nl +:+ "p1 " +:+ py_str_int (p1_score s) +:+ " - "
              +:+ py_str_int (p2_score s) +:+ " p2" +:+ nl
              +:+ (if p1_turn s then "The current player is p1"
                   else "The current player is p2")).
Proof.
  intros Hr. destruct (reachable_shape _ Hr) as [Hb Hs].
  destruct (render_ok s Hb Hs) as (out & Hout & _).
  exists out. split; [assumption|].
  unfold __repr__. rewrite Hout. cbn [bind].
  change (py_format "p1 {} - {} p2"
            [py_str_int (p1_score s); py_str_int (p2_score s)])
    with (Ret ("p1 " +:+ py_str_int (p1_score s) +:+ " - "
               +:+ py_str_int (p2_score s) +:+ " p2")).
  cbn [bind]. destruct (p1_turn s); f_equal; now rewrite !append_assoc.
Qed.

Lemma printing_total_witness :
  exists out,
    __str__ (current_state (new_game true 1)) = Ret out
    /\ __repr__ (current_state (new_game true 1))
       = Ret (out +:+ nl +:+ "p1 " +:+ py_str_int 0 +:+ " - "
              +:+ py_str_int 0 +:+ " p2" +:+ nl
              +:+ "The current player is p1").
Proof.
  assert (Hr : reachable (current_state (new_game true 1))).
  { apply (reachable_init true 1); [lia | vm_compute; reflexivity]. }
  exact (printing_total _ Hr).
Defined.

(** X15: the printed board of a state of a game shows the board: every
    possible move, every cell of the rows, claimed or not, and the mark
    of every leyline occur in the string that [__str__] returns. *)
Theorem printing_shows_board (s : StonehengeState) (out : string) :
  reachable s ->
  __str__ s = Ret out ->
  (forall m, In m (get_possible_moves s) -> shown m out)
  /\ (forall x, In x (cells (h_lines s)) -> shown x out)
  /\ (forall f x, In x (get_leyline_value (lines f s)) -> shown x out).
Proof.
  intros Hr Hout. destruct (reachable_shape _ Hr) as [Hb Hs].
  destruct (render_ok s Hb Hs) as (out' & Hout' & Hc & Hm).
  rewrite Hout in Hout'. injection Hout' as <-.
  split; [|split; assumption]. intros m Hin. apply Hc.
  pose proof (reachable_wf _ Hr) as Hwf.
  pose proof (over_no_moves _ _ Hwf Hin) as Ho.
  pose proof (wf_moves s Hwf) as Hp. rewrite Ho in Hp.
  apply (free_cells_In (h_lines s) m).
  eapply Permutation_in; [symmetry; apply (Hp Hoz) | exact Hin].
Qed.

Lemma printing_shows_board_witness :
  exists out,
    __str__ (current_state (new_game true 1)) = Ret out
    /\ forall m, In m (get_possible_moves (current_state (new_game true 1))) ->
         shown m out.
Proof.
  assert (Hr : reachable (current_state (new_game true 1))).
  { apply (reachable_init true 1); [lia | vm_compute; reflexivity]. }
  eexists. split; [vm_compute; reflexivity|].
  refine (proj1 (printing_shows_board _ _ Hr _)). vm_compute; reflexivity.
Defined.

End PrintingGames.

(** * [make_move] on the object store *)

Module HeapFacts.

Import Heap.

Section Rules.

Context {A B : Type}.

Lemma wp_ret (a : A) (Q : A -> heap -> Prop) (h : heap) :
  Q a h -> wp (mret a) Q h.
Proof. intros H. exists a, h. split; [reflexivity | assumption]. Qed.

Lemma wp_bind (m : M A) (k : A -> M B) (Q : B -> heap -> Prop) (h : heap) :
  wp m (fun a h' => wp (k a) Q h') h -> wp (mbind m k) Q h.
Proof.
  intros (a & h' & Hm & b & h'' & Hk & HQ). exists b, h''.
  split; [|assumption]. unfold mbind. now rewrite Hm.
Qed.

Lemma wp_mono (m : M A) (Q Q' : A -> heap -> Prop) (h : heap) :
  wp m Q h -> (forall a h', Q a h' -> Q' a h') -> wp m Q' h.
Proof. intros (a & h' & Hm & HQ) H. exists a, h'. auto. Qed.

Lemma wp_lift (r : result A) (a : A) (Q : A -> heap -> Prop) (h : heap) :
  r = Ret a -> Q a h -> wp (lift r) Q h.
Proof. intros -> H. exists a, h. split; [reflexivity | assumption]. Qed.

End Rules.

Section Primitives.

Lemma wp_alloc (o : obj) (Q : loc -> heap -> Prop) (h : heap) :
  (forall l, l ∉ dom h -> Q l (<[l := o]> h)) -> wp (alloc o) Q h.
Proof.
  intros H. exists (fresh (dom h)), (<[fresh (dom h) := o]> h).
  split; [reflexivity|]. apply H, is_fresh.
Qed.

Lemma wp_load (l : loc) (o : obj) (Q : obj -> heap -> Prop) (h : heap) :
  h !! l = Some o -> Q o h -> wp (load l) Q h.
Proof.
  intros Hl H. exists o, h. split; [|assumption]. unfold load. now rewrite Hl.
Qed.

Lemma wp_store (l : loc) (o o' : obj) (Q : unit -> heap -> Prop) (h : heap) :
  h !! l = Some o' -> Q tt (<[l := o]> h) -> wp (store l o) Q h.
Proof.
  intros Hl H. exists tt, (<[l := o]> h). split; [|assumption].
  unfold store. now rewrite Hl.
Qed.

Lemma wp_load_letters (l : loc) (ls : list string)
  (Q : list string -> heap -> Prop) (h : heap) :
  h !! l = Some (OLetters ls) -> Q ls h -> wp (load_letters l) Q h.
Proof.
  intros Hl H. apply wp_bind. eapply wp_load; [exact Hl|]. now apply wp_ret.
Qed.

Lemma wp_load_leyline (l : loc) (v : lvalue) (lt : loc)
  (Q : lvalue * loc -> heap -> Prop) (h : heap) :
  h !! l = Some (OLeyline v lt) -> Q (v, lt) h -> wp (load_leyline l) Q h.
Proof.
  intros Hl H. apply wp_bind. eapply wp_load; [exact Hl|]. now apply wp_ret.
Qed.

Lemma wp_load_lines (l : loc) (xs : list loc)
  (Q : list loc -> heap -> Prop) (h : heap) :
  h !! l = Some (OLines xs) -> Q xs h -> wp (load_lines l) Q h.
Proof.
  intros Hl H. apply wp_bind. eapply wp_load; [exact Hl|]. now apply wp_ret.
Qed.

Lemma wp_load_state (l : loc) (st : sfields)
  (Q : sfields -> heap -> Prop) (h : heap) :
  h !! l = Some (OState st) -> Q st h -> wp (load_state l) Q h.
Proof.
  intros Hl H. apply wp_bind. eapply wp_load; [exact Hl|]. now apply wp_ret.
Qed.

End Primitives.

Section Kinds.

Lemma has_kind_letters (h : heap) (l : loc) :
  has_kind h l KLetters -> exists ls, h !! l = Some (OLetters ls).
Proof. intros ([] & Hl & Hk); try discriminate. eauto. Qed.

Lemma has_kind_leyline (h : heap) (l : loc) :
  has_kind h l KLeyline -> exists v lt, h !! l = Some (OLeyline v lt).
Proof. intros ([] & Hl & Hk); try discriminate. eauto. Qed.

Lemma has_kind_lines (h : heap) (l : loc) :
  has_kind h l KLines -> exists xs, h !! l = Some (OLines xs).
Proof. intros ([] & Hl & Hk); try discriminate. eauto. Qed.

Lemma has_kind_state (h : heap) (l : loc) :
  has_kind h l KState -> exists st, h !! l = Some (OState st).
Proof. intros ([] & Hl & Hk); try discriminate. eauto. Qed.

Lemma refs_fields (o : obj) (b : loc) :
  In b (refs o) <-> exists k, In (b, k) (fields o).
Proof.
  destruct o as [ls|v lt|xs|st]; simpl.
  - split; [tauto | intros [k []]].
  - split; [intros [<-|[]]; eauto | intros [k [[= <- _]|[]]]; auto].
  - split.
    + intros H. exists KLeyline. apply in_map_iff. exists b. auto.
    + intros (k & H). apply in_map_iff in H as (x & [= <- _] & H).
      assumption.
  - split.
    + intros [<-|[<-|[<-|[<-|[]]]]]; eauto 10.
    + intros (k & [[= <- _]|[[= <- _]|[[= <- _]|[[= <- _]|[]]]]]); auto.
Qed.

Lemma ext_same_kinds (h h' : heap) : ext h h' -> same_kinds h h'.
Proof. intros H l k (o & Hl & Hk). exists o. auto. Qed.

Lemma ext_refl (h : heap) : ext h h.
Proof. intros l o H. exact H. Qed.

Lemma ext_trans (h1 h2 h3 : heap) : ext h1 h2 -> ext h2 h3 -> ext h1 h3.
Proof. intros H1 H2 l o H. auto. Qed.

Lemma ext_insert (h : heap) (l : loc) (o : obj) :
  l ∉ dom h -> ext h (<[l := o]> h).
Proof.
  intros Hl a o' Ha. rewrite lookup_insert_ne; [assumption|].
  intros ->. apply Hl. apply elem_of_dom. eauto.
Qed.

Lemma same_kinds_refl (h : heap) : same_kinds h h.
Proof. intros l k H. exact H. Qed.

Lemma same_kinds_trans (h1 h2 h3 : heap) :
  same_kinds h1 h2 -> same_kinds h2 h3 -> same_kinds h1 h3.
Proof. intros H1 H2 l k H. auto. Qed.

Lemma same_kinds_store (h : heap) (l : loc) (o o' : obj) :
  h !! l = Some o' -> kind_of o = kind_of o' ->
  same_kinds h (<[l := o]> h).
Proof.
  intros Hl Hk a k (oa & Ha & Hka). destruct (decide (a = l)) as [->|Hne].
  - exists o. rewrite lookup_insert_eq. split; [reflexivity|]. congruence.
  - exists oa. now rewrite lookup_insert_ne by auto.
Qed.

Lemma grows_dom (h0 h : heap) (l : loc) :
  grows h0 h -> l ∈ dom h0 -> l ∈ dom h.
Proof.
  intros [H _] Hl. apply elem_of_dom. rewrite (H l Hl).
  now apply elem_of_dom.
Qed.

(** A created object may be added when its references are to created
    objects of the declared classes. *)
Lemma inv_alloc (h0 h : heap) (l : loc) (o : obj) :
  inv h0 h -> l ∉ dom h ->
  (forall b k, In (b, k) (fields o) -> has_kind h b k /\ b ∉ dom h0) ->
  inv h0 (<[l := o]> h) /\ l ∉ dom h0.
Proof.
  intros [Hg Ht] Hl Ho.
  assert (Hl0 : l ∉ dom h0) by (intros H; exact (Hl (grows_dom _ _ _ Hg H))).
  split; [|assumption]. split; [split|].
  - intros a Ha. rewrite lookup_insert_ne by congruence. now apply Hg.
  - intros a oa b Ha Hoa Hb. destruct (decide (a = l)) as [->|Hne].
    + rewrite lookup_insert_eq in Hoa. injection Hoa as <-.
      apply refs_fields in Hb as [k Hb]. now apply Ho in Hb.
    + rewrite lookup_insert_ne in Hoa by auto.
      exact (proj2 Hg a oa b Ha Hoa Hb).
  - intros a oa b k Hoa Hb.
    apply (ext_same_kinds _ _ (ext_insert h l o Hl)).
    destruct (decide (a = l)) as [->|Hne].
    + rewrite lookup_insert_eq in Hoa. injection Hoa as <-.
      now apply Ho in Hb.
    + rewrite lookup_insert_ne in Hoa by auto. exact (Ht a oa b k Hoa Hb).
Qed.

(** A created object may be overwritten by an object of its class whose
    references are to created objects of the declared classes. *)
Lemma inv_store (h0 h : heap) (l : loc) (o o' : obj) :
  inv h0 h -> l ∉ dom h0 -> h !! l = Some o' -> kind_of o = kind_of o' ->
  (forall b k, In (b, k) (fields o) -> has_kind h b k /\ b ∉ dom h0) ->
  inv h0 (<[l := o]> h).
Proof.
  intros [Hg Ht] Hl Hl' Hk Ho. split; [split|].
  - intros a Ha. rewrite lookup_insert_ne by congruence. now apply Hg.
  - intros a oa b Ha Hoa Hb. destruct (decide (a = l)) as [->|Hne].
    + rewrite lookup_insert_eq in Hoa. injection Hoa as <-.
      apply refs_fields in Hb as [k Hb]. now apply Ho in Hb.
    + rewrite lookup_insert_ne in Hoa by auto.
      exact (proj2 Hg a oa b Ha Hoa Hb).
  - intros a oa b k Hoa Hb.
    apply (same_kinds_store h l o o' Hl' Hk).
    destruct (decide (a = l)) as [->|Hne].
    + rewrite lookup_insert_eq in Hoa. injection Hoa as <-.
      now apply Ho in Hb.
    + rewrite lookup_insert_ne in Hoa by auto. exact (Ht a oa b k Hoa Hb).
Qed.

(** What a created object refers to is created and of the declared
    class. *)
Lemma inv_field (h0 h : heap) (a : loc) (o : obj) (b : loc) (k : kind) :
  inv h0 h -> a ∉ dom h0 -> h !! a = Some o -> In (b, k) (fields o) ->
  has_kind h b k /\ b ∉ dom h0.
Proof.
  intros [Hg Ht] Ha Ho Hb. split; [exact (Ht a o b k Ho Hb)|].
  apply (proj2 Hg a o b Ha Ho). apply refs_fields. eauto.
Qed.

End Kinds.

Section DeepCopy.

Variable h0 : heap.

Lemma has_kind_unique (h : heap) (l : loc) (k k' : kind) :
  has_kind h l k -> has_kind h l k' -> k = k'.
Proof. intros (o & Ho & <-) (o' & Ho' & <-). congruence. Qed.

Lemma memo_ok_ext (h h' : heap) (memo : gmap loc loc) :
  memo_ok h0 h memo -> ext h h' -> memo_ok h0 h' memo.
Proof.
  intros Hm He x y Hxy. destruct (Hm x y Hxy) as (Hy & k & Hx & Hyk).
  split; [assumption|]. exists k.
  split; apply (ext_same_kinds _ _ He); assumption.
Qed.

Lemma memo_ok_insert (h : heap) (memo : gmap loc loc) (x y : loc) (k : kind) :
  memo_ok h0 h memo -> y ∉ dom h0 -> has_kind h x k -> has_kind h y k ->
  memo_ok h0 h (<[x := y]> memo).
Proof.
  intros Hm Hy Hx Hyk x' y' H. destruct (decide (x' = x)) as [->|Hne].
  - rewrite lookup_insert_eq in H. injection H as <-. eauto.
  - rewrite lookup_insert_ne in H by auto. now apply Hm.
Qed.

Lemma wp_deepcopy_letters (h : heap) (memo : gmap loc loc) (x : loc)
  (Q : loc * gmap loc loc -> heap -> Prop) :
  inv h0 h -> memo_ok h0 h memo -> has_kind h x KLetters ->
  (forall y memo' h',
     inv h0 h' -> ext h h' -> memo_ok h0 h' memo' -> y ∉ dom h0 ->
     has_kind h' y KLetters -> Q (y, memo') h') ->
  wp (deepcopy_letters memo x) Q h.
Proof.
  intros Hi Hm Hx HQ. unfold deepcopy_letters.
  destruct (memo !! x) as [y|] eqn:E.
  - apply wp_ret. destruct (Hm x y E) as (Hy & k & Hxk & Hyk).
    rewrite (has_kind_unique _ _ _ _ Hxk Hx) in Hyk.
    apply HQ; auto using ext_refl.
  - destruct (has_kind_letters _ _ Hx) as [ls Hls].
    apply wp_bind. eapply wp_load_letters; [exact Hls|].
    apply wp_bind. apply wp_alloc. intros y Hy. apply wp_ret.
    destruct (inv_alloc h0 h y (OLetters ls) Hi Hy) as [Hi' Hy0];
      [intros b k []|].
    pose proof (ext_insert h y (OLetters ls) Hy) as He.
    assert (Hyk : has_kind (<[y := OLetters ls]> h) y KLetters).
    { eexists. rewrite lookup_insert_eq. split; reflexivity. }
    apply HQ; auto.
    eapply memo_ok_insert; eauto using memo_ok_ext.
    exact (ext_same_kinds _ _ He _ _ Hx).
Qed.

Lemma wp_deepcopy_leyline (h : heap) (memo : gmap loc loc) (x : loc)
  (Q : loc * gmap loc loc -> heap -> Prop) :
  inv h0 h -> memo_ok h0 h memo -> has_kind h x KLeyline ->
  (forall y memo' h',
     inv h0 h' -> ext h h' -> memo_ok h0 h' memo' -> y ∉ dom h0 ->
     has_kind h' y KLeyline -> Q (y, memo') h') ->
  wp (deepcopy_leyline memo x) Q h.
Proof.
  intros Hi Hm Hx HQ. unfold deepcopy_leyline.
  destruct (memo !! x) as [y|] eqn:E.
  - apply wp_ret. destruct (Hm x y E) as (Hy & k & Hxk & Hyk).
    rewrite (has_kind_unique _ _ _ _ Hxk Hx) in Hyk.
    apply HQ; auto using ext_refl.
  - destruct (has_kind_leyline _ _ Hx) as (v & lt & Hl).
    apply wp_bind. eapply wp_load_leyline; [exact Hl|].
    apply wp_bind. apply wp_deepcopy_letters; auto.
    { apply (proj2 Hi x (OLeyline v lt)); [assumption | now left]. }
    intros lt' memo1 h1 Hi1 He1 Hm1 Hlt' Hlt'k.
    apply wp_bind. apply wp_alloc. intros y Hy. apply wp_ret.
    destruct (inv_alloc h0 h1 y (OLeyline v lt') Hi1 Hy) as [Hi' Hy0].
    { intros b k [[= <- <-]|[]]. auto. }
    pose proof (ext_insert h1 y (OLeyline v lt') Hy) as He.
    assert (Hyk : has_kind (<[y := OLeyline v lt']> h1) y KLeyline).
    { eexists. rewrite lookup_insert_eq. split; reflexivity. }
    apply HQ; eauto using ext_trans.
    eapply memo_ok_insert; eauto using memo_ok_ext.
    apply (ext_same_kinds _ _ He), (ext_same_kinds _ _ He1). exact Hx.
Qed.

Lemma wp_deepcopy_elems (xs : list loc) :
  forall (h : heap) (memo : gmap loc loc)
         (Q : list loc * gmap loc loc -> heap -> Prop),
    inv h0 h -> memo_ok h0 h memo ->
    Forall (fun x => has_kind h x KLeyline) xs ->
    (forall ys memo' h',
       inv h0 h' -> ext h h' -> memo_ok h0 h' memo' ->
       Forall (fun y => (y ∉ dom h0) /\ has_kind h' y KLeyline) ys ->
       Q (ys, memo') h') ->
    wp (deepcopy_elems memo xs) Q h.
Proof.
  induction xs as [|x xs IH]; intros h memo Q Hi Hm Hxs HQ; simpl.
  - apply wp_ret. apply HQ; auto using ext_refl.
  - apply Forall_cons in Hxs as [Hx Hxs].
    apply wp_bind. apply wp_deepcopy_leyline; auto.
    intros y memo1 h1 Hi1 He1 Hm1 Hy Hyk.
    apply wp_bind. apply IH; auto.
    { eapply Forall_impl; [exact Hxs|]. intros a Ha.
      exact (ext_same_kinds _ _ He1 _ _ Ha). }
    intros ys memo2 h2 Hi2 He2 Hm2 Hys. apply wp_ret.
    apply HQ; eauto using ext_trans.
    constructor; [|assumption].
    split; [assumption | exact (ext_same_kinds _ _ He2 _ _ Hyk)].
Qed.

Lemma wp_deepcopy_lines (h : heap) (x : loc) (Q : loc -> heap -> Prop) :
  inv h0 h -> has_kind h x KLines ->
  (forall y h',
     inv h0 h' -> ext h h' -> y ∉ dom h0 -> has_kind h' y KLines ->
     Q y h') ->
  wp (deepcopy_lines x) Q h.
Proof.
  intros Hi Hx HQ. unfold deepcopy_lines.
  destruct (has_kind_lines _ _ Hx) as [xs Hl].
  apply wp_bind. eapply wp_load_lines; [exact Hl|].
  apply wp_bind. apply wp_deepcopy_elems; auto.
  { intros a b E. rewrite lookup_empty in E. discriminate. }
  { apply Forall_forall. intros a Ha.
    apply (proj2 Hi x (OLines xs) a KLeyline Hl). simpl.
    apply in_map_iff. exists a. split; [reflexivity|].
    now apply list_elem_of_In. }
  intros ys memo' h1 Hi1 He1 _ Hys. apply wp_alloc. intros y Hy.
  destruct (inv_alloc h0 h1 y (OLines ys) Hi1 Hy) as [Hi' Hy0].
  { intros b k Hb. simpl in Hb. apply in_map_iff in Hb as (a & [= <- <-] & Ha).
    rewrite Forall_forall in Hys. apply list_elem_of_In in Ha.
    destruct (Hys _ Ha). auto. }
  apply HQ; auto.
  - exact (ext_trans _ _ _ He1 (ext_insert h1 y (OLines ys) Hy)).
  - eexists. rewrite lookup_insert_eq. split; reflexivity.
Qed.

End DeepCopy.

Section Mutation.

Variable h0 : heap.

(** Writing a field of a created state object that is not a reference. *)
Lemma wp_update_state (h : heap) (self : loc) (f : sfields -> sfields)
  (Q : unit -> heap -> Prop) :
  inv h0 h -> self ∉ dom h0 -> has_kind h self KState ->
  (forall st, fields (OState (f st)) = fields (OState st)) ->
  (forall h', inv h0 h' -> same_kinds h h' -> Q tt h') ->
  wp (update_state self f) Q h.
Proof.
  intros Hi Hs Hk Hf HQ. unfold update_state.
  destruct (has_kind_state _ _ Hk) as [st Hst].
  apply wp_bind. eapply wp_load_state; [exact Hst|].
  eapply wp_store; [exact Hst|]. apply HQ.
  - eapply inv_store; eauto. intros b k Hb. rewrite Hf in Hb.
    exact (inv_field h0 h self _ b k Hi Hs Hst Hb).
  - eapply same_kinds_store; eauto.
Qed.

(** Marking a created leyline captured and adding to a score. *)
Lemma wp_capture (h : heap) (self ley : loc) (v : lvalue) (lt : loc)
  (p : string) (f : sfields -> sfields) (c : bool)
  (Q : unit -> heap -> Prop) :
  inv h0 h -> self ∉ dom h0 -> has_kind h self KState ->
  ley ∉ dom h0 -> h !! ley = Some (OLeyline v lt) ->
  (forall st, fields (OState (f st)) = fields (OState st)) ->
  (forall h', inv h0 h' -> same_kinds h h' -> Q tt h') ->
  wp (if c then store ley (OLeyline (VStr p) lt);; update_state self f
      else mret tt) Q h.
Proof.
  intros Hi Hs Hk Hl Hley Hf HQ. destruct c; [|apply wp_ret, HQ; auto].
  - apply wp_bind. eapply wp_store; [exact Hley|].
    assert (Hi1 : inv h0 (<[ley := OLeyline (VStr p) lt]> h)).
    { eapply inv_store; eauto. intros b k Hb.
      exact (inv_field h0 h ley _ b k Hi Hl Hley Hb). }
    pose proof (same_kinds_store h ley (OLeyline (VStr p) lt) _ Hley eq_refl)
      as Hk1.
    apply wp_update_state; auto.
    intros h' Hi' Hk'. apply HQ; eauto using same_kinds_trans.
  - apply same_kinds_refl.
Qed.

Lemma wp_change_leyline (h : heap) (self ley : loc)
  (Q : unit -> heap -> Prop) :
  inv h0 h -> self ∉ dom h0 -> has_kind h self KState ->
  ley ∉ dom h0 -> has_kind h ley KLeyline ->
  (forall h', inv h0 h' -> same_kinds h h' -> Q tt h') ->
  wp (change_leyline self ley) Q h.
Proof.
  intros Hi Hs Hk Hl Hlk HQ. unfold change_leyline.
  destruct (has_kind_leyline _ _ Hlk) as (v & lt & Hley).
  destruct (inv_field h0 h ley _ lt KLetters Hi Hl Hley) as [Hltk Hlt];
    [now left|].
  destruct (has_kind_letters _ _ Hltk) as [ls Hls].
  apply wp_bind. eapply wp_load_leyline; [exact Hley|].
  apply wp_bind. eapply wp_load_letters; [exact Hls|].
  apply wp_bind. eapply wp_capture; eauto.
  intros h1 Hi1 Hk1.
  destruct (has_kind_leyline _ _ (Hk1 _ _ Hlk)) as (v1 & lt1 & Hley1).
  destruct (inv_field h0 h1 ley _ lt1 KLetters Hi1 Hl Hley1) as [Hltk1 Hlt1];
    [now left|].
  destruct (has_kind_letters _ _ Hltk1) as [ls1 Hls1].
  apply wp_bind. eapply wp_load_leyline; [exact Hley1|].
  apply wp_bind. eapply wp_load_letters; [exact Hls1|].
  eapply wp_capture; eauto.
  intros h2 Hi2 Hk2. apply HQ; eauto using same_kinds_trans.
Qed.

Lemma wp_change_letter_loop (self : loc) (player move : string)
  (xs : list loc) :
  forall (h : heap) (Q : unit -> heap -> Prop),
    inv h0 h -> self ∉ dom h0 -> has_kind h self KState ->
    Forall (fun x => (x ∉ dom h0) /\ has_kind h x KLeyline) xs ->
    (forall h', inv h0 h' -> same_kinds h h' -> Q tt h') ->
    wp (change_letter_loop self player move xs) Q h.
Proof.
  induction xs as [|x xs IH]; intros h Q Hi Hs Hk Hxs HQ; simpl.
  - apply wp_ret, HQ; auto using same_kinds_refl.
  - apply Forall_cons in Hxs as [[Hx Hxk] Hxs].
    destruct (has_kind_leyline _ _ Hxk) as (v & lt & Hley).
    destruct (inv_field h0 h x _ lt KLetters Hi Hx Hley) as [Hltk Hlt];
      [now left|].
    destruct (has_kind_letters _ _ Hltk) as [ls Hls].
    apply wp_bind. eapply wp_load_leyline; [exact Hley|].
    apply wp_bind. eapply wp_load_letters; [exact Hls|].
    destruct (index_of move ls) as [i|] eqn:E.
    + apply index_of_Some in E as (l1 & l2 & -> & <- & _).
      apply wp_bind. eapply wp_lift; [apply py_pop_insert|].
      apply wp_bind. eapply wp_store; [exact Hls|].
      assert (Hi1 : inv h0 (<[lt := OLetters (l1 ++ player :: l2)]> h)).
      { eapply inv_store; eauto. intros b k []. }
      pose proof (same_kinds_store h lt (OLetters (l1 ++ player :: l2)) _
                    Hls eq_refl) as Hk1.
      apply wp_change_leyline; auto.
      intros h' Hi' Hk'. apply HQ; eauto using same_kinds_trans.
    + apply IH; auto.
Qed.

Lemma wp_change_letter (h : heap) (self : loc) (move : string)
  (line_list : loc) (Q : unit -> heap -> Prop) :
  inv h0 h -> self ∉ dom h0 -> has_kind h self KState ->
  line_list ∉ dom h0 -> has_kind h line_list KLines ->
  (forall h', inv h0 h' -> same_kinds h h' -> Q tt h') ->
  wp (change_letter self move line_list) Q h.
Proof.
  intros Hi Hs Hk Hl Hlk HQ. unfold change_letter.
  destruct (has_kind_state _ _ Hk) as [st Hst].
  destruct (has_kind_lines _ _ Hlk) as [xs Hxs].
  apply wp_bind. eapply wp_load_state; [exact Hst|].
  apply wp_bind. eapply wp_load_lines; [exact Hxs|].
  apply wp_change_letter_loop; auto.
  apply Forall_forall. intros x Hx. apply and_comm.
  apply (inv_field h0 h line_list _ x KLeyline Hi Hl Hxs). simpl.
  apply in_map_iff. exists x. split; [reflexivity|].
  now apply list_elem_of_In.
Qed.

(** [ss.change_letter(move, ss.<family>[:])] for a created state. *)
Lemma wp_change_family (h : heap) (ss : loc) (move : string)
  (sel : sfields -> loc) (Q : unit -> heap -> Prop) :
  inv h0 h -> ss ∉ dom h0 -> has_kind h ss KState ->
  (forall st, In (sel st, KLines) (fields (OState st))) ->
  (forall h', inv h0 h' -> same_kinds h h' -> Q tt h') ->
  wp (let! sst := load_state ss in
      let! c := slice_lines (sel sst) in change_letter ss move c) Q h.
Proof.
  intros Hi Hs Hk Hsel HQ.
  destruct (has_kind_state _ _ Hk) as [st Hst].
  destruct (inv_field h0 h ss _ _ _ Hi Hs Hst (Hsel st)) as [Hfk Hf].
  destruct (has_kind_lines _ _ Hfk) as [xs Hxs].
  apply wp_bind. eapply wp_load_state; [exact Hst|].
  apply wp_bind. unfold slice_lines.
  apply wp_bind. eapply wp_load_lines; [exact Hxs|].
  apply wp_alloc. intros c Hc.
  destruct (inv_alloc h0 h c (OLines xs) Hi Hc) as [Hi1 Hc0].
  { intros b k Hb. exact (inv_field h0 h (sel st) _ b k Hi Hf Hxs Hb). }
  pose proof (ext_same_kinds _ _ (ext_insert h c (OLines xs) Hc)) as Hk1.
  apply wp_change_letter; auto.
  - eexists. rewrite lookup_insert_eq. split; reflexivity.
  - intros h' Hi' Hk'. apply HQ; eauto using same_kinds_trans.
Qed.

(** [ss.possible_moves = m] for a created state and a created list. *)
Lemma wp_set_moves (h : heap) (ss m : loc) (Q : unit -> heap -> Prop) :
  inv h0 h -> ss ∉ dom h0 -> has_kind h ss KState ->
  m ∉ dom h0 -> has_kind h m KLetters ->
  (forall sst,
     h !! ss = Some (OState sst) ->
     inv h0 (<[ss := OState (set_so_moves m sst)]> h) ->
     same_kinds h (<[ss := OState (set_so_moves m sst)]> h) ->
     Q tt (<[ss := OState (set_so_moves m sst)]> h)) ->
  wp (update_state ss (set_so_moves m)) Q h.
Proof.
  intros Hi Hs Hk Hm Hmk HQ. unfold update_state.
  destruct (has_kind_state _ _ Hk) as [sst Hst].
  apply wp_bind. eapply wp_load_state; [exact Hst|].
  eapply wp_store; [exact Hst|]. apply HQ; [assumption| |].
  - eapply inv_store; eauto. intros b k Hb. simpl in Hb.
    destruct Hb as [Hb|[Hb|[Hb|[Hb|[]]]]]; injection Hb as <- <-;
      try (apply (inv_field h0 h ss _ _ _ Hi Hs Hst); simpl; tauto).
    auto.
  - eapply same_kinds_store; eauto.
Qed.

End Mutation.

Section Frame.

Lemma inv_start (h0 : heap) : typed h0 -> inv h0 h0.
Proof.
  intros Ht. split; [split|assumption]; [reflexivity|].
  intros a o b Ha Ho. exfalso. apply Ha. apply elem_of_dom. eauto.
Qed.

Lemma make_move_wp (h0 : heap) (self : loc) (move : string) (st : sfields)
  (ms : list string) :
  typed h0 ->
  h0 !! self = Some (OState st) ->
  h0 !! so_moves st = Some (OLetters ms) ->
  In move ms ->
  wp (Heap.make_move self move)
     (fun ss h' => (ss ∉ dom h0) /\ inv h0 h' /\ has_kind h' ss KState) h0.
Proof.
  intros Ht Hself Hms Hin. pose proof (inv_start h0 Ht) as Hi0.
  assert (Hself0 : self ∈ dom h0) by (apply elem_of_dom; eauto).
  assert (Hms0 : so_moves st ∈ dom h0) by (apply elem_of_dom; eauto).
  unfold Heap.make_move.
  apply wp_bind. eapply wp_load_state; [exact Hself|].
  apply wp_bind. apply (wp_deepcopy_lines h0); auto.
  { apply (Ht self _ _ _ Hself). simpl. tauto. }
  intros hl h1 Hi1 He1 Hhl Hhlk.
  apply wp_bind. apply (wp_deepcopy_lines h0); auto.
  { apply (ext_same_kinds _ _ He1). apply (Ht self _ _ _ Hself). simpl. tauto. }
  intros ll h2 Hi2 He2 Hll Hllk.
  apply wp_bind. apply (wp_deepcopy_lines h0); auto.
  { apply (ext_same_kinds _ _ He2), (ext_same_kinds _ _ He1).
    apply (Ht self _ _ _ Hself). simpl. tauto. }
  intros rl h3 Hi3 He3 Hrl Hrlk.
  apply wp_bind. unfold Heap.StonehengeState_init.
  apply wp_bind. apply wp_alloc. intros pm Hpm.
  set (o4 := OLetters (py_slice_to _ _)).
  destruct (inv_alloc h0 h3 pm o4 Hi3 Hpm) as [Hi4 Hpm0]; [intros b k []|].
  pose proof (ext_insert h3 pm o4 Hpm) as He4.
  apply wp_alloc. intros ss Hss.
  set (o5 := OState _).
  destruct (inv_alloc h0 (<[pm := o4]> h3) ss o5 Hi4 Hss) as [Hi5 Hss0].
  { intros b k Hb. simpl in Hb.
    destruct Hb as [Hb|[Hb|[Hb|[Hb|[]]]]]; injection Hb as <- <-.
    - split; [|assumption].
      apply (ext_same_kinds _ _ He4), (ext_same_kinds _ _ He3),
        (ext_same_kinds _ _ He2). assumption.
    - split; [|assumption]. apply (ext_same_kinds _ _ He4). assumption.
    - split; [|assumption].
      apply (ext_same_kinds _ _ He4), (ext_same_kinds _ _ He3). assumption.
    - split; [|assumption]. eexists. rewrite lookup_insert_eq.
      split; reflexivity. }
  set (h5 := <[ss := o5]> (<[pm := o4]> h3)) in *.
  assert (Hssk : has_kind h5 ss KState).
  { eexists. unfold h5. rewrite lookup_insert_eq. split; reflexivity. }
  apply wp_bind. apply (wp_change_family h0 h5 ss move so_h); auto.
  { intros s0. simpl. tauto. }
  intros h6 Hi6 Hk6.
  apply wp_bind. apply (wp_change_family h0 h6 ss move so_r); auto.
  { intros s0. simpl. tauto. }
  intros h7 Hi7 Hk7.
  apply wp_bind. apply (wp_change_family h0 h7 ss move so_l); auto.
  { intros s0. simpl. tauto. }
  intros h8 Hi8 Hk8.
  assert (Hssk8 : has_kind h8 ss KState) by auto.
  assert (Hself8 : h8 !! self = Some (OState st)).
  { rewrite (proj1 (proj1 Hi8) self Hself0). exact Hself. }
  assert (Hms8 : h8 !! so_moves st = Some (OLetters ms)).
  { rewrite (proj1 (proj1 Hi8) _ Hms0). exact Hms. }
  apply wp_bind. unfold Heap.get_possible_moves.
  apply wp_bind. eapply wp_load_state; [exact Hself8|].
  unfold slice_letters.
  apply wp_bind. eapply wp_load_letters; [exact Hms8|].
  apply wp_alloc. intros m0 Hm0.
  destruct (inv_alloc h0 h8 m0 (OLetters ms) Hi8 Hm0) as [Hi9 Hm00];
    [intros b k []|].
  pose proof (ext_insert h8 m0 (OLetters ms) Hm0) as He9.
  apply wp_bind. apply wp_bind.
  eapply wp_load_letters; [apply lookup_insert_eq|].
  apply wp_alloc. intros mv Hmv.
  set (h9 := <[m0 := OLetters ms]> h8) in *.
  destruct (inv_alloc h0 h9 mv (OLetters ms) Hi9 Hmv) as [Hi10 Hmv0];
    [intros b k []|].
  pose proof (ext_insert h9 mv (OLetters ms) Hmv) as He10.
  set (h10 := <[mv := OLetters ms]> h9) in *.
  assert (Hssk10 : has_kind h10 ss KState).
  { apply (ext_same_kinds _ _ He10), (ext_same_kinds _ _ He9). assumption. }
  assert (Hmvk : has_kind h10 mv KLetters).
  { eexists. unfold h10. rewrite lookup_insert_eq. split; reflexivity. }
  assert (Hne : mv <> ss).
  { intros ->. apply Hmv. destruct Hssk8 as (o & Ho & _).
    apply elem_of_dom. exists o. now apply He9. }
  apply wp_bind. apply (wp_set_moves h0 h10 ss mv); auto.
  intros sst Hsst Hi11 Hk11.
  set (h11 := <[ss := OState (set_so_moves mv sst)]> h10) in *.
  assert (Hmv11 : h11 !! mv = Some (OLetters ms)).
  { unfold h11. rewrite lookup_insert_ne by auto.
    unfold h10. apply lookup_insert_eq. }
  destruct (py_remove_In move ms Hin) as [ms' Hrm].
  apply wp_bind. apply wp_bind.
  eapply wp_load_state; [unfold h11; apply lookup_insert_eq|].
  apply wp_bind. eapply wp_load_letters; [exact Hmv11|].
  apply wp_bind. eapply wp_lift; [exact Hrm|].
  eapply wp_store; [exact Hmv11|].
  assert (Hi12 : inv h0 (<[mv := OLetters ms']> h11)).
  { eapply inv_store; eauto. intros b k []. }
  pose proof (same_kinds_store h11 mv (OLetters ms') _ Hmv11 eq_refl) as Hk12.
  set (h12 := <[mv := OLetters ms']> h11) in *.
  assert (Hssk12 : has_kind h12 ss KState) by auto.
  apply wp_bind. apply (wp_update_state h0 h12); auto.
  intros h13 Hi13 Hk13.
  assert (Hssk13 : has_kind h13 ss KState) by auto.
  destruct (has_kind_state _ _ Hssk13) as [sst13 Hsst13].
  apply wp_bind. eapply wp_load_state; [exact Hsst13|].
  destruct (_ || _).
  - apply wp_bind. apply wp_alloc. intros e He.
    destruct (inv_alloc h0 h13 e (OLetters []) Hi13 He) as [Hi14 He0];
      [intros b k []|].
    pose proof (ext_same_kinds _ _ (ext_insert h13 e (OLetters []) He)) as Hk14.
    apply wp_bind. apply (wp_set_moves h0 _ ss e); auto.
    { eexists. rewrite lookup_insert_eq. split; reflexivity. }
    intros sst14 Hsst14 Hi15 Hk15. apply wp_ret. auto.
  - apply wp_ret. auto.
Qed.

Lemma reaches_created (h0 h : heap) (a l : loc) :
  grows h0 h -> a ∉ dom h0 -> reaches h a l -> l ∉ dom h0.
Proof.
  intros Hg Ha Hr. induction Hr as [a | a o b c Ho Hb _ IH]; [assumption|].
  apply IH. exact (proj2 Hg a o b Ha Ho Hb).
Qed.

Lemma reaches_old (h0 h : heap) (a l : loc) :
  typed h0 -> grows h0 h -> a ∈ dom h0 -> reaches h a l -> l ∈ dom h0.
Proof.
  intros Ht Hg Ha Hr. induction Hr as [a | a o b c Ho Hb _ IH]; [assumption|].
  apply IH. rewrite (proj1 Hg a Ha) in Ho.
  apply refs_fields in Hb as [k Hb].
  destruct (Ht a o b k Ho Hb) as (ob & Hob & _). apply elem_of_dom. eauto.
Qed.

(** C8: on a store whose objects have their declared classes,
    [make_move] with a possible move returns a state object that did not
    exist before; every object that existed, and so the receiver with its
    turn flag, scores, lists, leylines and their letters and values, is as
    it was; every object the returned state holds, directly or through
    its lists and leylines, was created by the call, so that no object is
    held by both the receiver and the returned state. *)
Theorem make_move_frame (h0 : heap) (self : loc) (move : string)
  (st : sfields) (ms : list string) :
  typed h0 ->
  h0 !! self = Some (OState st) ->
  h0 !! so_moves st = Some (OLetters ms) ->
  In move ms ->
  exists ss h',
    Heap.make_move self move h0 = Ret (ss, h')
    /\ (ss ∉ dom h0)
    /\ (exists sst, h' !! ss = Some (OState sst))
    /\ (forall l, l ∈ dom h0 -> h' !! l = h0 !! l)
    /\ (forall l, reaches h' ss l -> l ∉ dom h0)
    /\ (forall l, reaches h' self l -> ~ reaches h' ss l).
Proof.
  intros Ht Hself Hms Hin.
  destruct (make_move_wp h0 self move st ms Ht Hself Hms Hin)
    as (ss & h' & Hmv & Hss & [Hg Ht'] & Hk).
  exists ss, h'. split; [assumption|]. split; [assumption|].
  split; [exact (has_kind_state _ _ Hk)|].
  split; [exact (proj1 Hg)|]. split.
  - intros l Hl. exact (reaches_created h0 h' ss l Hg Hss Hl).
  - intros l Hl Hl'. apply (reaches_created h0 h' ss l Hg Hss Hl').
    apply (reaches_old h0 h' self l Ht Hg); [|assumption].
    apply elem_of_dom. eauto.
Qed.

End Frame.

End HeapFacts.

(** * [Heap.make_move] and [make_move] agree *)

Module Refinement.

Import Store Repr HeapFacts.

Section OutcomeRules.

Context {A B : Type}.

Lemma wpe_bind (m : M A) (k : A -> M B) (Q : B -> heap -> Prop)
  (E : exn -> Prop) (h : heap) :
  wp m (fun a h' => wpe (k a) Q E h') h -> wpe (mbind m k) Q E h.
Proof.
  intros (a & h' & Hm & Hk). unfold wpe, mbind in *. now rewrite Hm.
Qed.

Lemma wpe_ret (a : A) (Q : A -> heap -> Prop) (E : exn -> Prop) (h : heap) :
  Q a h -> wpe (mret a) Q E h.
Proof. intros H. exact H. Qed.

Lemma wpe_lift_bind (r : result A) (k : A -> M B) (Q : B -> heap -> Prop)
  (E : exn -> Prop) (h : heap) :
  match r with
  | Ret a => wpe (k a) Q E h
  | Raise e => E e
  | NoFuel => False
  end ->
  wpe (mbind (lift r) k) Q E h.
Proof. unfold wpe, mbind, lift. now destruct r. Qed.

End OutcomeRules.

Section Lines.

Lemma holds_lines_frame (h h' : heap) (xs lts : list loc)
  (ls : list Leyline) :
  holds_lines h xs lts ls ->
  (forall l, l ∈ xs ++ lts -> h' !! l = h !! l) ->
  holds_lines h' xs lts ls.
Proof.
  induction 1 as [|x lt ley xs lts ls Hx Hlt _ IH]; intros Hsame;
    constructor.
  - rewrite Hsame; [assumption | set_solver].
  - rewrite Hsame; [assumption | set_solver].
  - apply IH. intros l Hl. apply Hsame. set_solver.
Qed.

Lemma holds_lines_ext (h h' : heap) (xs lts : list loc) (ls : list Leyline) :
  holds_lines h xs lts ls -> ext h h' -> holds_lines h' xs lts ls.
Proof.
  induction 1 as [|x lt ley xs lts ls Hx Hlt _ IH]; intros He;
    constructor; auto.
Qed.

Lemma holds_lines_dom (h : heap) (xs lts : list loc) (ls : list Leyline)
  (l : loc) :
  holds_lines h xs lts ls -> l ∈ xs ++ lts -> l ∈ dom h.
Proof.
  induction 1 as [|x lt ley xs lts ls Hx Hlt _ IH]; intros Hl.
  - set_solver.
  - apply elem_of_dom.
    assert (l = x \/ l = lt \/ l ∈ xs ++ lts) as [->|[->|H]] by set_solver;
      eauto.
    apply elem_of_dom. auto.
Qed.

Lemma NoDup_two_cons (x lt : loc) (xs lts : list loc) :
  NoDup ((x :: xs) ++ lt :: lts) <->
  x <> lt /\ (x ∉ xs ++ lts) /\ (lt ∉ xs ++ lts) /\ NoDup (xs ++ lts).
Proof.
  simpl. rewrite NoDup_cons.
  rewrite <- (Permutation_middle xs lts lt). rewrite NoDup_cons.
  set_solver.
Qed.

End Lines.

Section Copy.

(** Deep copy of a family in which nothing occurs twice: the memo is
    never hit, and the copy holds the same leylines in created
    objects. *)
Lemma deepcopy_elems_copy (xs : list loc) :
  forall (lts : list loc) (ls : list Leyline) (h : heap)
         (memo : gmap loc loc),
    holds_lines h xs lts ls ->
    NoDup (xs ++ lts) ->
    (forall l, l ∈ xs ++ lts -> memo !! l = None) ->
    wp (deepcopy_elems memo xs)
       (fun r h' =>
          exists lts',
            holds_lines h' r.1 lts' ls /\ NoDup (r.1 ++ lts')
            /\ (forall y, y ∈ r.1 ++ lts' -> y ∉ dom h)
            /\ ext h h') h.
Proof.
  induction xs as [|x xs IH]; intros lts ls h memo Hh Hnd Hmemo;
    inversion Hh as [|? lt ley ? lts0 ls0 Hx Hlt Hrest]; subst; simpl.
  - apply wp_ret. exists []. simpl. split; [constructor|].
    split; [constructor|]. split; [set_solver | apply ext_refl].
  - apply NoDup_two_cons in Hnd as (Hxlt & Hxn & Hltn & Hnd).
    apply wp_bind. unfold deepcopy_leyline.
    rewrite (Hmemo x) by set_solver.
    apply wp_bind. eapply wp_load_leyline; [exact Hx|].
    apply wp_bind. unfold deepcopy_letters.
    rewrite (Hmemo lt) by set_solver.
    apply wp_bind. eapply wp_load_letters; [exact Hlt|].
    apply wp_bind. apply wp_alloc. intros lt' Hlt'. apply wp_ret.
    apply wp_bind. apply wp_alloc. intros y Hy. apply wp_ret.
    set (h1 := <[lt' := OLetters (letters ley)]> h) in *.
    set (h2 := <[y := OLeyline (value ley) lt']> h1).
    assert (He1 : ext h h1) by now apply ext_insert.
    assert (He2 : ext h1 h2) by now apply ext_insert.
    apply wp_bind.
    eapply wp_mono; [apply (IH lts0 ls0 h2)|].
    + eapply holds_lines_ext; [exact Hrest|]. eauto using ext_trans.
    + assumption.
    + intros l Hl. rewrite !lookup_insert_ne by set_solver.
      apply Hmemo. set_solver.
    + intros [ys memo'] h' (lts' & Hh' & Hnd' & Hfresh & He').
      apply wp_ret. simpl in *. exists (lt' :: lts').
      assert (Hy2 : h2 !! y = Some (OLeyline (value ley) lt'))
        by apply lookup_insert_eq.
      assert (Hlt2 : h2 !! lt' = Some (OLetters (letters ley))).
      { apply He2. apply lookup_insert_eq. }
      assert (Hdy : y ∈ dom h2) by (apply elem_of_dom; eauto).
      assert (Hdlt : lt' ∈ dom h2) by (apply elem_of_dom; eauto).
      assert (Hdlt1 : lt' ∈ dom h1).
      { apply elem_of_dom. exists (OLetters (letters ley)).
        apply lookup_insert_eq. }
      split; [constructor; auto|]. split; [|split].
      * apply (NoDup_two_cons y lt' ys lts').
        split; [intros ->; contradiction|].
        split; [intros H; exact (Hfresh _ H Hdy)|].
        split; [intros H; exact (Hfresh _ H Hdlt) | assumption].
      * intros z Hz.
        assert (z = y \/ z = lt' \/ z ∈ ys ++ lts') as [->|[->|H]]
          by set_solver.
        -- intros H. apply Hy. apply elem_of_dom.
           apply elem_of_dom in H as [o Ho]. exists o. now apply He1.
        -- assumption.
        -- intros Hzd. apply (Hfresh z H). apply elem_of_dom.
           apply elem_of_dom in Hzd as [o Ho]. exists o.
           now apply He2, He1.
      * eauto using ext_trans.
Qed.

Lemma deepcopy_lines_copy (h : heap) (x : loc) (ls : list Leyline) :
  holds_family h x ls ->
  wp (deepcopy_lines x)
     (fun y h' =>
        exists ys lts',
          h' !! y = Some (OLines ys)
          /\ holds_lines h' ys lts' ls /\ NoDup (y :: ys ++ lts')
          /\ (forall z, z ∈ y :: ys ++ lts' -> z ∉ dom h)
          /\ ext h h') h.
Proof.
  intros (xs & lts & Hx & Hh & Hnd). unfold deepcopy_lines.
  apply wp_bind. eapply wp_load_lines; [exact Hx|].
  apply wp_bind.
  eapply wp_mono; [apply (deepcopy_elems_copy xs lts ls h ∅ Hh Hnd)|].
  { intros l _. apply lookup_empty. }
  intros [ys memo'] h1 (lts' & Hh1 & Hnd1 & Hfresh & He1). simpl in *.
  apply wp_alloc. intros y Hy. exists ys, lts'.
  pose proof (ext_insert h1 y (OLines ys) Hy) as He2.
  split; [apply lookup_insert_eq|].
  split; [eapply holds_lines_ext; eauto|]. split; [|split].
  - apply NoDup_cons. split; [|assumption]. intros H. apply Hy.
    eapply holds_lines_dom; eauto.
  - intros z Hz. apply elem_of_cons in Hz as [->|Hz]; [|auto].
    intros H. apply Hy. apply elem_of_dom.
    apply elem_of_dom in H as [o Ho]. exists o. now apply He1.
  - eauto using ext_trans.
Qed.

End Copy.

Section Capture.

Lemma bump_fields (c : option string) (st : sfields) :
  so_turn (bump c st) = so_turn st /\ so_len (bump c st) = so_len st
  /\ so_h (bump c st) = so_h st /\ so_r (bump c st) = so_r st
  /\ so_l (bump c st) = so_l st /\ so_moves (bump c st) = so_moves st.
Proof.
  destruct c as [p|]; simpl; [|tauto].
  destruct (String.eqb p "1"); simpl; tauto.
Qed.

(** [Heap.change_leyline] does to the leyline object and to the score of
    the state object what [change_leyline] does to the leyline and to
    the score. *)
Lemma change_leyline_refines (h : heap) (ss x lt : loc) (st : sfields)
  (ley : Leyline) :
  h !! x = Some (OLeyline (value ley) lt) ->
  h !! lt = Some (OLetters (letters ley)) ->
  h !! ss = Some (OState st) ->
  ss <> x ->
  wp (Heap.change_leyline ss x)
     (fun _ h' =>
        h' !! x = Some (OLeyline (value (capture (captor ley) ley)) lt)
        /\ h' !! ss = Some (OState (bump (captor ley) st))
        /\ forall l, l <> x -> l <> ss -> h' !! l = h !! l) h.
Proof.
  intros Hx Hlt Hss Hne.
  assert (Hltx : lt <> x) by (intros ->; congruence).
  assert (Hxlt : x <> lt) by auto.
  assert (Hsl : ss <> lt) by (intros ->; congruence).
  assert (Hls : lt <> ss) by auto.
  assert (Hne' : x <> ss) by auto.
  unfold Heap.change_leyline, captor.
  apply wp_bind. eapply wp_load_leyline; [exact Hx|].
  apply wp_bind. eapply wp_load_letters; [exact Hlt|].
  set (thr := ceil_half (Z.of_nat (length (letters ley)))).
  destruct (is_int (value ley)) eqn:Ei.
  - destruct (thr <=? py_count "1" (letters ley)) eqn:E1; simpl.
    + apply wp_bind. apply wp_bind. eapply wp_store; [exact Hx|].
      unfold update_state. apply wp_bind.
      eapply wp_load_state; [rewrite lookup_insert_ne by auto; exact Hss|].
      eapply wp_store; [rewrite lookup_insert_ne by auto; exact Hss|].
      apply wp_bind. eapply wp_load_leyline.
      { rewrite lookup_insert_ne by auto. apply lookup_insert_eq. }
      apply wp_bind. eapply wp_load_letters.
      { rewrite !lookup_insert_ne by auto. exact Hlt. }
      rewrite andb_false_r. apply wp_ret. split; [|split].
      * rewrite lookup_insert_ne by auto. apply lookup_insert_eq.
      * apply lookup_insert_eq.
      * intros l H1 H2. now rewrite !lookup_insert_ne by auto.
    + apply wp_bind. apply wp_ret.
      apply wp_bind. eapply wp_load_leyline; [exact Hx|].
      apply wp_bind. eapply wp_load_letters; [exact Hlt|].
      rewrite Ei, andb_true_r. fold thr.
      destruct (thr <=? py_count "2" (letters ley)) eqn:E2; simpl.
      * apply wp_bind. eapply wp_store; [exact Hx|].
        unfold update_state. apply wp_bind.
        eapply wp_load_state; [rewrite lookup_insert_ne by auto; exact Hss|].
        eapply wp_store; [rewrite lookup_insert_ne by auto; exact Hss|].
        split; [|split].
        -- rewrite lookup_insert_ne by auto. apply lookup_insert_eq.
        -- apply lookup_insert_eq.
        -- intros l H1 H2. now rewrite !lookup_insert_ne by auto.
      * apply wp_ret. auto.
  - rewrite andb_false_r. apply wp_bind. apply wp_ret.
    apply wp_bind. eapply wp_load_leyline; [exact Hx|].
    apply wp_bind. eapply wp_load_letters; [exact Hlt|].
    rewrite Ei, andb_false_r. apply wp_ret. auto.
Qed.

(** The loop of [Heap.change_letter] on a family held without sharing
    does what the loop of [change_letter] does on the family. *)
Lemma change_letter_loop_refines (ss : loc) (st : sfields)
  (player move : string) (pself : StonehengeState) (xs : list loc) :
  forall (lts : list loc) (ls : list Leyline) (h : heap),
    holds_lines h xs lts ls ->
    NoDup (xs ++ lts) ->
    h !! ss = Some (OState st) ->
    ss ∉ xs ++ lts ->
    wp (Heap.change_letter_loop ss player move xs)
       (fun _ h' =>
          exists c ls',
            change_letter_loop player move pself ls
            = Ret (add_score c pself, ls')
            /\ holds_lines h' xs lts ls'
            /\ h' !! ss = Some (OState (bump c st))
            /\ forall l, l <> ss -> l ∉ xs ++ lts -> h' !! l = h !! l) h.
Proof.
  induction xs as [|x xs IH]; intros lts ls h Hh Hnd Hss Hnot;
    inversion Hh as [|? lt ley ? lts0 ls0 Hx Hlt Hrest]; subst; simpl.
  - apply wp_ret. exists None, [].
    split; [reflexivity|]. split; [constructor|]. split; auto.
  - apply NoDup_two_cons in Hnd as (Hxlt & Hxn & Hltn & Hnd).
    assert (Hsx : ss <> x) by set_solver.
    assert (Hsl : ss <> lt) by set_solver.
    assert (Hsr : ss ∉ xs ++ lts0) by set_solver.
    apply wp_bind. eapply wp_load_leyline; [exact Hx|].
    apply wp_bind. eapply wp_load_letters; [exact Hlt|].
    destruct (index_of move (letters ley)) as [i|] eqn:E.
    + apply index_of_Some in E as (l1 & l2 & El & <- & _).
      rewrite El, py_pop_insert. simpl.
      apply wp_bind. eapply wp_lift; [reflexivity|].
      apply wp_bind. eapply wp_store; [exact Hlt|].
      set (ley1 := set_letters (l1 ++ player :: l2) ley).
      set (h1 := <[lt := OLetters (l1 ++ player :: l2)]> h).
      eapply wp_mono;
        [apply (change_leyline_refines h1 ss x lt st ley1)|].
      * unfold h1. rewrite lookup_insert_ne by auto. exact Hx.
      * unfold h1. apply lookup_insert_eq.
      * unfold h1. rewrite lookup_insert_ne by auto. exact Hss.
      * assumption.
      * intros _ h' (Hx' & Hss' & Hsame).
        exists (captor ley1), (capture (captor ley1) ley1 :: ls0).
        rewrite change_leyline_captor. split; [reflexivity|].
        split; [|split; [assumption|]].
        -- constructor; [assumption| |].
           ++ rewrite Hsame by auto. unfold h1. rewrite lookup_insert_eq.
              now destruct (captor ley1).
           ++ eapply holds_lines_frame; [exact Hrest|].
              intros l Hl. rewrite Hsame by set_solver.
              unfold h1. apply lookup_insert_ne. set_solver.
        -- intros l H1 H2. rewrite Hsame by set_solver.
           unfold h1. apply lookup_insert_ne. set_solver.
    + eapply wp_mono; [apply (IH lts0 ls0 h Hrest Hnd Hss Hsr)|].
      intros _ h' (c & ls' & Hp & Hh' & Hss' & Hsame).
      exists c, (ley :: ls'). rewrite Hp. simpl.
      split; [reflexivity|]. split; [|split; [assumption|]].
      * constructor; [| |assumption]; rewrite Hsame; auto.
      * intros l H1 H2. apply Hsame; [assumption | set_solver].
Qed.

End Capture.

Section Families.

Lemma owned_facts (ss : loc) (st : sfields)
  (fam : family -> list loc * list loc) :
  NoDup (owned ss st fam) ->
  (forall f, ss ∉ group st fam f)
  /\ (forall f, NoDup (group st fam f))
  /\ (forall f g l, f <> g -> l ∈ group st fam f -> l ∉ group st fam g).
Proof.
  unfold owned. rewrite NoDup_cons, !NoDup_app.
  intros (H1 & H2 & H3 & H4 & H5 & H6). split; [|split].
  - intros []; set_solver.
  - intros []; assumption.
  - intros [] [] l Hne Hl; try congruence; set_solver.
Qed.

Lemma owned_group (ss : loc) (st : sfields)
  (fam : family -> list loc * list loc) (f : family) (l : loc) :
  l ∈ group st fam f -> l ∈ owned ss st fam.
Proof. unfold owned. destruct f; set_solver. Qed.

Lemma owned_bump (ss : loc) (c : option string) (st : sfields)
  (fam : family -> list loc * list loc) :
  owned ss (bump c st) fam = owned ss st fam.
Proof.
  unfold owned, group, sel.
  destruct (bump_fields c st) as (_ & _ & -> & -> & -> & _). reflexivity.
Qed.

Lemma step_fields (f : family) (ls : list Leyline) (c : option string)
  (ps : StonehengeState) (st : sfields) :
  so_turn st = p1_turn ps -> so_len st = b_length ps ->
  so_p1 st = p1_score ps -> so_p2 st = p2_score ps ->
  let ps' := set_lines f ls (add_score c ps) in
  so_turn (bump c st) = p1_turn ps' /\ so_len (bump c st) = b_length ps'
  /\ so_p1 (bump c st) = p1_score ps' /\ so_p2 (bump c st) = p2_score ps'.
Proof.
  intros H1 H2 H3 H4.
  destruct c as [p|]; simpl; [destruct (String.eqb p "1")|];
    destruct f; simpl; repeat split; congruence.
Qed.

(** [ss.change_letter(move, ss.<family>[:])] on a state under
    construction does what [change_letter] does on the state. *)
Lemma change_family_refines (f : family) (h : heap) (ss : loc)
  (st : sfields) (fam : family -> list loc * list loc)
  (ps : StonehengeState) (move : string) :
  holds_copy h ss st fam ps ->
  wp (let! sst := load_state ss in
      let! c := slice_lines (sel f sst) in Heap.change_letter ss move c)
     (fun _ h' =>
        exists c ps',
          change_letter f move ps = Ret ps'
          /\ holds_copy h' ss (bump c st) fam ps'
          /\ (forall l, l ∈ dom h -> l ∈ dom h')
          /\ (forall l, l ∈ dom h -> l ∉ owned ss st fam ->
                h' !! l = h !! l)) h.
Proof.
  intros (Hss & T1 & T2 & T3 & T4 & Hfam & Hnd).
  destruct (owned_facts _ _ _ Hnd) as (O1 & O2 & O3).
  destruct (Hfam f) as [Hl Hh].
  set (xs := (fam f).1) in *. set (lts := (fam f).2) in *.
  assert (Hndf : NoDup (xs ++ lts)).
  { specialize (O2 f). unfold group in O2. now apply NoDup_cons in O2. }
  assert (Hsf : ss ∉ xs ++ lts).
  { specialize (O1 f). unfold group in O1. set_solver. }
  apply wp_bind. eapply wp_load_state; [exact Hss|].
  apply wp_bind. unfold slice_lines.
  apply wp_bind. eapply wp_load_lines; [exact Hl|].
  apply wp_alloc. intros c Hc.
  set (h1 := <[c := OLines xs]> h).
  pose proof (ext_insert h c (OLines xs) Hc) as He1. fold h1 in He1.
  assert (Hss1 : h1 !! ss = Some (OState st)) by auto.
  unfold Heap.change_letter.
  apply wp_bind. eapply wp_load_state; [exact Hss1|].
  apply wp_bind. eapply wp_load_lines; [apply lookup_insert_eq|].
  eapply wp_mono.
  { apply (change_letter_loop_refines ss st _ move ps xs lts (lines f ps) h1);
      eauto using holds_lines_ext. }
  intros _ h' (c' & ls' & Hp & Hh' & Hss' & Hsame).
  assert (Hold : forall l, l ∈ dom h -> l <> ss -> l ∉ xs ++ lts ->
                           h' !! l = h !! l).
  { intros l Hd H1 H2. rewrite Hsame by assumption. unfold h1.
    apply lookup_insert_ne. intros ->. contradiction. }
  exists c', (set_lines f ls' (add_score c' ps)). split; [|split; [|split]].
  - unfold change_letter. rewrite <- T1, Hp. reflexivity.
  - split; [assumption|].
    destruct (step_fields f ls' c' ps st T1 T2 T3 T4) as (S1 & S2 & S3 & S4).
    repeat (split; [assumption|]). split; [|now rewrite owned_bump].
    intros f'. destruct (Hfam f') as [Hl' Hh'0].
    assert (Hself : sel f' (bump c' st) = sel f' st).
    { destruct (bump_fields c' st) as (_ & _ & B1 & B2 & B3 & _).
      destruct f'; assumption. }
    rewrite Hself. split.
    + rewrite Hold; [assumption | apply elem_of_dom; eauto | |].
      * intros E. apply (O1 f'). rewrite <- E. unfold group. set_solver.
      * destruct (decide (f' = f)) as [->|Hne].
        -- specialize (O2 f). unfold group in O2.
           apply NoDup_cons in O2 as [O2 _]. exact O2.
        -- intros Hin. apply (O3 f' f (sel f' st) Hne);
             unfold group; set_solver.
    + destruct (decide (f' = f)) as [->|Hne].
      * rewrite lines_set_lines. exact Hh'.
      * rewrite lines_set_lines_ne, lines_add_score by assumption.
        eapply holds_lines_frame; [exact Hh'0|].
        intros l Hl0. apply Hold.
        -- eapply holds_lines_dom; eauto.
        -- intros ->. apply (O1 f'). unfold group. set_solver.
        -- intros Hin. apply (O3 f' f l Hne); unfold group; set_solver.
  - intros l Hd. destruct (decide (l = ss)) as [->|H1];
      [apply elem_of_dom; eauto|].
    destruct (decide (l ∈ xs ++ lts)) as [H2|H2].
    + eapply holds_lines_dom; eauto.
    + apply elem_of_dom. rewrite Hold by assumption. now apply elem_of_dom.
  - intros l Hd Hno. apply Hold; [assumption| |].
    + intros ->. apply Hno. unfold owned. set_solver.
    + intros Hin. apply Hno. apply (owned_group _ _ _ f).
      unfold group. set_solver.
Qed.

End Families.

Section MakeMove.

Lemma wpe_bind_e {A B : Type} (m : M A) (k : A -> M B)
  (Q : B -> heap -> Prop) (E : exn -> Prop) (h : heap) :
  wpe m (fun a h' => wpe (k a) Q E h') E h -> wpe (mbind m k) Q E h.
Proof.
  unfold wpe, mbind. destruct (m h) as [[a h']| |]; auto.
Qed.

Lemma wpe_of_wp {A : Type} (m : M A) (Q : A -> heap -> Prop)
  (E : exn -> Prop) (h : heap) :
  wp m Q h -> wpe m Q E h.
Proof. intros (a & h' & Hm & HQ). unfold wpe. now rewrite Hm. Qed.

Lemma holds_family_ext (h h' : heap) (x : loc) (ls : list Leyline) :
  holds_family h x ls -> ext h h' -> holds_family h' x ls.
Proof.
  intros (xs & lts & Hx & Hh & Hnd) He. exists xs, lts.
  eauto using holds_lines_ext.
Qed.

Lemma holds_family_same (h h' : heap) (x : loc) (ls : list Leyline) :
  holds_family h x ls ->
  (forall l, l ∈ dom h -> h' !! l = h !! l) ->
  holds_family h' x ls.
Proof.
  intros (xs & lts & Hx & Hh & Hnd) Hsame. exists xs, lts.
  split; [|split; [|assumption]].
  - rewrite Hsame; [assumption | apply elem_of_dom; eauto].
  - eapply holds_lines_frame; [exact Hh|]. intros l Hl.
    apply Hsame. eapply holds_lines_dom; eauto.
Qed.

Lemma holds_state_same (h h' : heap) (self : loc) (s : StonehengeState) :
  holds_state h self s ->
  (forall l, l ∈ dom h -> h' !! l = h !! l) ->
  holds_state h' self s.
Proof.
  intros (st & Hself & T1 & T2 & T3 & T4 & FH & FR & FL & Hpm) Hsame.
  exists st. split; [rewrite Hsame; [assumption | apply elem_of_dom; eauto]|].
  repeat (split; [assumption|]).
  split; [eauto using holds_family_same|].
  split; [eauto using holds_family_same|].
  split; [eauto using holds_family_same|].
  rewrite Hsame; [assumption | apply elem_of_dom; eauto].
Qed.

Lemma py_remove_fuel (x : string) (l : list string) : py_remove x l <> NoFuel.
Proof.
  induction l as [|y l IH]; simpl; [discriminate|].
  destruct (String.eqb y x); [discriminate|].
  destruct (py_remove x l); simpl; congruence.
Qed.

Lemma make_move_steps (s : StonehengeState) (m : string)
  (ps1 ps2 ps3 : StonehengeState) :
  change_letter Hoz m
    (StonehengeState_init (p1_turn s) (b_length s) (p1_score s)
       (p2_score s) (h_lines s) (r_lines s) (l_lines s)) = Ret ps1 ->
  change_letter RightDiag m ps1 = Ret ps2 ->
  change_letter LeftDiag m ps2 = Ret ps3 ->
  make_move s m
  = (let* moves := py_remove m (possible_moves s) in
     Ret (finish_move moves ps3)).
Proof.
  intros H1 H2 H3. unfold make_move. rewrite H1. simpl. rewrite H2. simpl.
  rewrite H3. simpl. unfold get_possible_moves.
  destruct (py_remove m (possible_moves s)); simpl; try reflexivity.
  unfold finish_move. simpl. now destruct (_ || _).
Qed.

Lemma ext_dom (h h' : heap) (l : loc) : ext h h' -> l ∈ dom h -> l ∈ dom h'.
Proof.
  intros He Hl. apply elem_of_dom in Hl as [o Ho]. apply elem_of_dom. eauto.
Qed.

Lemma ext_same (h h' : heap) (l : loc) :
  ext h h' -> l ∈ dom h -> h' !! l = h !! l.
Proof.
  intros He Hl. apply elem_of_dom in Hl as [o Ho]. rewrite Ho. auto.
Qed.

(** The state object once [make_move] has set its moves and flipped its
    turn holds the state that [finish_move] builds. *)
Lemma finish_holds (h8 hF : heap) (ss mvF : loc) (st8 : sfields)
  (fam : family -> list loc * list loc) (ps3 s' : StonehengeState)
  (msF : list string) :
  holds_copy h8 ss st8 fam ps3 ->
  hF !! ss
  = Some (OState (set_so_moves mvF (set_so_turn (negb (so_turn st8)) st8))) ->
  hF !! mvF = Some (OLetters msF) ->
  (forall l, l ∈ dom h8 -> l <> ss -> hF !! l = h8 !! l) ->
  (forall f, lines f s' = lines f ps3) ->
  p1_score s' = p1_score ps3 -> p2_score s' = p2_score ps3 ->
  b_length s' = b_length ps3 -> p1_turn s' = negb (p1_turn ps3) ->
  possible_moves s' = msF ->
  holds_state hF ss s'.
Proof.
  intros (Hss & T1 & T2 & T3 & T4 & Hfam & Hnd) HssF HmvF Hsame
    Hlines S1 S2 S3 S4 S5.
  destruct (owned_facts _ _ _ Hnd) as (O1 & O2 & O3).
  assert (Hf : forall f, holds_family hF (sel f st8) (lines f s')).
  { intros f. destruct (Hfam f) as [Hl Hh]. rewrite Hlines.
    exists (fam f).1, (fam f).2.
    specialize (O1 f). specialize (O2 f). unfold group in O1, O2.
    apply NoDup_cons in O2 as [O2 O2']. split; [|split; [|assumption]].
    - rewrite Hsame; [assumption | apply elem_of_dom; eauto | set_solver].
    - eapply holds_lines_frame; [exact Hh|]. intros l Hl0.
      apply Hsame; [eapply holds_lines_dom; eauto | set_solver]. }
  eexists. split; [exact HssF|]. simpl.
  split; [congruence|]. split; [congruence|]. split; [congruence|].
  split; [congruence|]. split; [exact (Hf Hoz)|].
  split; [exact (Hf RightDiag)|]. split; [exact (Hf LeftDiag)|].
  now rewrite S5.
Qed.

Lemma make_move_refines_wpe (h0 : heap) (self : loc) (s : StonehengeState)
  (m : string) :
  holds_state h0 self s ->
  wpe (Heap.make_move self m)
      (fun ss h' =>
         exists s',
           make_move s m = Ret s'
           /\ holds_state h' ss s' /\ holds_state h' self s
           /\ (ss ∉ dom h0)
           /\ forall l, l ∈ dom h0 -> h' !! l = h0 !! l)
      (fun e => make_move s m = Raise e) h0.
Proof.
  intros Hs. pose proof Hs as (st0 & Hself & T1 & T2 & T3 & T4 & FH & FR & FL & Hpm).
  unfold Heap.make_move.
  apply wpe_bind. eapply wp_load_state; [exact Hself|].
  apply wpe_bind.
  eapply wp_mono; [apply (deepcopy_lines_copy h0 _ _ FH)|].
  intros hl h1 (ys_h & lts_h & Hhl & Hh_h & Hnd_h & Hfr_h & He1).
  apply wpe_bind.
  eapply wp_mono;
    [apply (deepcopy_lines_copy h1 _ _ (holds_family_ext _ _ _ _ FL He1))|].
  intros ll h2 (ys_l & lts_l & Hll & Hh_l & Hnd_l & Hfr_l & He2).
  pose proof (ext_trans _ _ _ He1 He2) as He02.
  apply wpe_bind.
  eapply wp_mono;
    [apply (deepcopy_lines_copy h2 _ _ (holds_family_ext _ _ _ _ FR He02))|].
  intros rl h3 (ys_r & lts_r & Hrl & Hh_r & Hnd_r & Hfr_r & He3).
  pose proof (ext_trans _ _ _ He02 He3) as He03.
  apply wpe_bind. unfold Heap.StonehengeState_init.
  apply wp_bind. apply wp_alloc. intros pm Hpm'.
  apply wp_alloc. intros ss Hss'.
  set (o4 := OLetters (py_slice_to _ _)) in *.
  set (h4 := <[pm := o4]> h3) in *.
  set (st5 := mkFields (so_turn st0) (so_len st0) (so_p1 st0) (so_p2 st0)
                hl rl ll pm).
  set (h5 := <[ss := OState st5]> h4).
  pose proof (ext_insert h3 pm o4 Hpm') as He4. fold h4 in He4.
  pose proof (ext_insert h4 ss (OState st5) Hss') as He5. fold h5 in He5.
  pose proof (ext_trans _ _ _ He03 (ext_trans _ _ _ He4 He5)) as He05.
  set (fam := fun f => match f with
                       | Hoz => (ys_h, lts_h)
                       | RightDiag => (ys_r, lts_r)
                       | LeftDiag => (ys_l, lts_l)
                       end).
  set (ps0 := StonehengeState_init (p1_turn s) (b_length s) (p1_score s)
                (p2_score s) (h_lines s) (r_lines s) (l_lines s)).
  assert (GH : forall l, l ∈ group st5 fam Hoz -> l ∈ dom h1 /\ l ∉ dom h0).
  { intros l Hl. split; [|now apply Hfr_h].
    apply elem_of_cons in Hl as [->|Hl]; [apply elem_of_dom; eauto|].
    eapply holds_lines_dom; eauto. }
  assert (GL : forall l, l ∈ group st5 fam LeftDiag -> l ∈ dom h2 /\ l ∉ dom h1).
  { intros l Hl. split; [|now apply Hfr_l].
    apply elem_of_cons in Hl as [->|Hl]; [apply elem_of_dom; eauto|].
    eapply holds_lines_dom; eauto. }
  assert (GR : forall l, l ∈ group st5 fam RightDiag -> l ∈ dom h3 /\ l ∉ dom h2).
  { intros l Hl. split; [|now apply Hfr_r].
    apply elem_of_cons in Hl as [->|Hl]; [apply elem_of_dom; eauto|].
    eapply holds_lines_dom; eauto. }
  assert (Hown0 : forall l, l ∈ owned ss st5 fam -> l ∉ dom h0).
  { intros l Hl Hd. unfold owned in Hl.
    apply elem_of_cons in Hl as [->|Hl].
    - apply Hss'. apply (ext_dom h0 h4); eauto using ext_trans.
    - rewrite !elem_of_app in Hl. destruct Hl as [Hl|[Hl|Hl]].
      + apply (proj2 (GR l Hl)). eapply ext_dom; eauto.
      + apply (proj2 (GL l Hl)). eapply ext_dom; eauto.
      + exact (proj2 (GH l Hl) Hd). }
  assert (HC5 : holds_copy h5 ss st5 fam ps0).
  { split; [apply lookup_insert_eq|]. repeat (split; [assumption|]). split.
    - intros []; simpl.
      + split; [apply He5, He4, He3, He2, Hhl|].
        eapply holds_lines_ext; [exact Hh_h|]. eauto using ext_trans.
      + split; [apply He5, He4, Hrl|].
        eapply holds_lines_ext; [exact Hh_r|]. eauto using ext_trans.
      + split; [apply He5, He4, He3, Hll|].
        eapply holds_lines_ext; [exact Hh_l|]. eauto using ext_trans.
    - unfold owned. apply NoDup_cons. split.
      + intros Hl. apply Hss'. rewrite !elem_of_app in Hl.
        destruct Hl as [Hl|[Hl|Hl]].
        * apply (ext_dom h3 h4 _ He4), (proj1 (GR _ Hl)).
        * apply (ext_dom h2 h4 _ (ext_trans _ _ _ He3 He4)), (proj1 (GL _ Hl)).
        * apply (ext_dom h1 h4 _ (ext_trans _ _ _ He2 (ext_trans _ _ _ He3 He4))),
            (proj1 (GH _ Hl)).
      + apply NoDup_app. split; [exact Hnd_r|]. split.
        * intros l Hl Hl'. apply (proj2 (GR l Hl)).
          rewrite elem_of_app in Hl'. destruct Hl' as [Hl'|Hl'].
          -- apply (proj1 (GL _ Hl')).
          -- apply (ext_dom h1 h2 _ He2), (proj1 (GH _ Hl')).
        * apply NoDup_app. split; [exact Hnd_l|]. split; [|exact Hnd_h].
          intros l Hl Hl'. apply (proj2 (GL l Hl)), (proj1 (GH _ Hl')). }
  assert (Old5 : forall l, l ∈ dom h0 -> h5 !! l = h0 !! l).
  { intros l Hl. now apply ext_same. }
  apply wpe_bind.
  eapply wp_mono; [apply (change_family_refines Hoz h5 ss st5 fam ps0 m HC5)|].
  intros _ h6 (c1 & ps1 & P1 & HC6 & D6 & F6).
  apply wpe_bind.
  eapply wp_mono; [apply (change_family_refines RightDiag h6 ss _ fam ps1 m HC6)|].
  intros _ h7 (c2 & ps2 & P2 & HC7 & D7 & F7).
  apply wpe_bind.
  eapply wp_mono; [apply (change_family_refines LeftDiag h7 ss _ fam ps2 m HC7)|].
  intros _ h8 (c3 & ps3 & P3 & HC8 & D8 & F8).
  rewrite !owned_bump in *.
  set (st8 := bump c3 (bump c2 (bump c1 st5))) in *.
  pose proof (make_move_steps s m ps1 ps2 ps3 P1 P2 P3) as Hmm.
  assert (Hss8 : h8 !! ss = Some (OState st8)) by apply HC8.
  assert (Hssd : ss ∈ dom h8) by (apply elem_of_dom; eauto).
  assert (Hss0 : ss ∉ dom h0).
  { apply Hown0. unfold owned. set_solver. }
  assert (Old8 : forall l, l ∈ dom h0 -> h8 !! l = h0 !! l).
  { intros l Hl. pose proof (ext_dom _ _ _ He05 Hl) as Hl5.
    assert (Hno : l ∉ owned ss st5 fam) by (intros H; exact (Hown0 l H Hl)).
    rewrite F8, F7, F6; auto. }
  assert (Hself8 : h8 !! self = Some (OState st0)).
  { rewrite Old8; [assumption | apply elem_of_dom; eauto]. }
  assert (Hpm8 : h8 !! so_moves st0 = Some (OLetters (possible_moves s))).
  { rewrite Old8; [assumption | apply elem_of_dom; eauto]. }
  apply wpe_bind. unfold Heap.get_possible_moves.
  apply wp_bind. eapply wp_load_state; [exact Hself8|].
  unfold slice_letters.
  apply wp_bind. eapply wp_load_letters; [exact Hpm8|].
  apply wp_alloc. intros m0 Hm0.
  apply wpe_bind. apply wp_bind.
  eapply wp_load_letters; [apply lookup_insert_eq|].
  apply wp_alloc. intros mv Hmv.
  set (ms := possible_moves s) in *.
  set (h9 := <[m0 := OLetters ms]> h8) in *.
  set (h10 := <[mv := OLetters ms]> h9).
  assert (Hmv8 : (mv ∉ dom h8) /\ mv <> m0).
  { unfold h9 in Hmv. rewrite dom_insert_L in Hmv. set_solver. }
  destruct Hmv8 as [Hmv8 Hmvm0].
  assert (Hssm0 : ss <> m0) by (intros ->; contradiction).
  assert (Hssmv : ss <> mv) by (intros ->; contradiction).
  assert (Hss10 : h10 !! ss = Some (OState st8)).
  { unfold h10, h9. now rewrite !lookup_insert_ne by auto. }
  apply wpe_bind. unfold update_state.
  apply wp_bind. eapply wp_load_state; [exact Hss10|].
  eapply wp_store; [exact Hss10|].
  set (h11 := <[ss := OState (set_so_moves mv st8)]> h10).
  assert (Hmv11 : h11 !! mv = Some (OLetters ms)).
  { unfold h11, h10. rewrite lookup_insert_ne by auto.
    apply lookup_insert_eq. }
  apply wpe_bind_e. apply wpe_bind.
  eapply wp_load_state; [unfold h11; apply lookup_insert_eq|].
  apply wpe_bind. eapply wp_load_letters; [exact Hmv11|].
  apply wpe_lift_bind.
  destruct (py_remove m ms) as [ms'|e|] eqn:Erm;
    [|now rewrite Hmm | exact (py_remove_fuel _ _ Erm)].
  simpl in Hmm.
  apply wpe_of_wp. eapply wp_store; [exact Hmv11|].
  set (h12 := <[mv := OLetters ms']> h11).
  assert (Hss12 : h12 !! ss = Some (OState (set_so_moves mv st8))).
  { unfold h12, h11. rewrite lookup_insert_ne by auto.
    apply lookup_insert_eq. }
  apply wpe_bind. apply wp_bind. eapply wp_load_state; [exact Hss12|].
  eapply wp_store; [exact Hss12|].
  set (st13 := set_so_turn (negb (so_turn (set_so_moves mv st8)))
                 (set_so_moves mv st8)).
  set (h13 := <[ss := OState st13]> h12).
  apply wpe_bind. eapply wp_load_state; [unfold h13; apply lookup_insert_eq|].
  destruct (finish_move_fields ms' ps3) as (Zl & Z1 & Z2 & Zb & Zt & Zm).
  set (s' := finish_move ms' ps3) in *. simpl in Zl, Z1, Z2, Zb, Zt, Zm.
  pose proof HC8 as (_ & T1' & T2' & T3' & T4' & _).
  assert (Hover : (win_threshold (so_len st13) <=? so_p1 st13)
                  || (win_threshold (so_len st13) <=? so_p2 st13)
                  = over s').
  { unfold over. rewrite Zb, Z1, Z2. simpl. now rewrite T2', T3', T4'. }
  rewrite Hover.
  assert (Hdom13 : dom h13 = {[m0; mv]} ∪ dom h8).
  { unfold h13, h12, h11, h10, h9. rewrite !dom_insert_L. set_solver. }
  destruct (over s') eqn:Eo; rewrite ?Eo in Zm.
  - apply wpe_bind. apply wp_alloc. intros e He.
    change (e ∉ dom h13) in He. rewrite Hdom13 in He.
    assert (Hsse : ss <> e) by set_solver.
    apply wpe_bind. apply wp_bind. eapply wp_load_state.
    { rewrite lookup_insert_ne by set_solver. unfold h13.
      apply lookup_insert_eq. }
    eapply wp_store.
    { rewrite lookup_insert_ne by set_solver. unfold h13.
      apply lookup_insert_eq. }
    apply wpe_ret.
    set (hF := <[ss := OState (set_so_moves e st13)]>
                 (<[e := OLetters []]> h13)).
    assert (HsF : forall l, l ∈ dom h8 -> l <> ss -> hF !! l = h8 !! l).
    { intros l Hl Hne. unfold hF, h13, h12, h11, h10, h9.
      rewrite !lookup_insert_ne by set_solver. reflexivity. }
    exists s'. split; [assumption|]. split; [|split; [|split]].
    + apply (finish_holds h8 hF ss e st8 fam ps3 s' [] HC8);
        [| | exact HsF | exact Zl | exact Z1 | exact Z2 | exact Zb
         | exact Zt | exact Zm].
      * unfold hF. apply lookup_insert_eq.
      * unfold hF. rewrite lookup_insert_ne by auto.
        apply lookup_insert_eq.
    + apply (holds_state_same h0); [assumption|]. intros l Hl.
      rewrite HsF; [now apply Old8 | | intros ->; contradiction].
      apply elem_of_dom. rewrite Old8 by assumption. now apply elem_of_dom.
    + assumption.
    + intros l Hl.
      rewrite HsF; [now apply Old8 | | intros ->; contradiction].
      apply elem_of_dom. rewrite Old8 by assumption. now apply elem_of_dom.
  - apply wpe_ret.
    assert (HsF : forall l, l ∈ dom h8 -> l <> ss -> h13 !! l = h8 !! l).
    { intros l Hl Hne. unfold h13, h12, h11, h10, h9.
      rewrite !lookup_insert_ne by set_solver. reflexivity. }
    exists s'. split; [assumption|]. split; [|split; [|split]].
    + apply (finish_holds h8 h13 ss mv st8 fam ps3 s' ms' HC8);
        [| | exact HsF | exact Zl | exact Z1 | exact Z2 | exact Zb
         | exact Zt | exact Zm].
      * unfold h13. apply lookup_insert_eq.
      * unfold h13, h12. rewrite lookup_insert_ne by auto.
        apply lookup_insert_eq.
    + apply (holds_state_same h0); [assumption|]. intros l Hl.
      rewrite HsF; [now apply Old8 | | intros ->; contradiction].
      apply elem_of_dom. rewrite Old8 by assumption. now apply elem_of_dom.
    + assumption.
    + intros l Hl.
      rewrite HsF; [now apply Old8 | | intros ->; contradiction].
      apply elem_of_dom. rewrite Old8 by assumption. now apply elem_of_dom.
Qed.

End MakeMove.

Section Build.

Lemma ext_notin (h h' : heap) (l : loc) : ext h h' -> l ∉ dom h' -> l ∉ dom h.
Proof. intros He Hl Hd. apply Hl. eapply ext_dom; eauto. Qed.

(** [put_lines] allocates the leylines in objects of their own. *)
Lemma wp_put_lines (ls : list Leyline) (h : heap) :
  wp (put_lines ls)
     (fun xs h' =>
        ext h h'
        /\ exists lts, holds_lines h' xs lts ls /\ NoDup (xs ++ lts)
                        /\ forall l, l ∈ xs ++ lts -> l ∉ dom h) h.
Proof.
  revert h. induction ls as [|ley rest IH]; intros h; simpl.
  - apply wp_ret. split; [intros l o; auto|]. exists [].
    split; [constructor|]. split; [constructor | set_solver].
  - apply wp_bind. apply wp_alloc. intros lt Hlt.
    apply wp_bind. apply wp_alloc. intros x Hx.
    apply wp_bind. eapply wp_mono; [apply IH|].
    intros xs h' (He & lts & Hh & Hnd & Hnew). apply wp_ret.
    set (h1 := <[lt := OLetters (letters ley)]> h) in *.
    set (h2 := <[x := OLeyline (value ley) lt]> h1) in *.
    assert (Hxlt : x <> lt).
    { intros ->. apply Hx. unfold h1. rewrite dom_insert_L. set_solver. }
    assert (Hd2 : dom h2 = {[x; lt]} ∪ dom h).
    { unfold h2, h1. rewrite !dom_insert_L. set_solver. }
    split.
    + eapply ext_trans; [|exact He].
      eapply ext_trans; [apply ext_insert; exact Hlt|].
      apply ext_insert. exact Hx.
    + exists (lt :: lts). split; [|split].
      * constructor; [| |assumption].
        -- apply He. unfold h2. apply lookup_insert_eq.
        -- apply He. unfold h2, h1. rewrite lookup_insert_ne by auto.
           apply lookup_insert_eq.
      * apply NoDup_two_cons. split; [assumption|].
        split; [|split; [|assumption]].
        -- intros Hin. apply (Hnew _ Hin). rewrite Hd2. set_solver.
        -- intros Hin. apply (Hnew _ Hin). rewrite Hd2. set_solver.
      * intros l Hl.
        assert (l = x \/ l = lt \/ l ∈ xs ++ lts) as [->|[->|Hin]]
          by set_solver.
        -- intros Hd. apply Hx. unfold h1. rewrite dom_insert_L. set_solver.
        -- assumption.
        -- specialize (Hnew _ Hin). rewrite Hd2 in Hnew. set_solver.
Qed.

(** [put_lines] followed by the allocation of the list object gives an
    object that holds the family. *)
Lemma wp_put_family {B : Type} (ls : list Leyline) (k : loc -> M B)
  (h : heap) (Q : B -> heap -> Prop) :
  (forall x h', ext h h' -> x ∉ dom h -> holds_family h' x ls ->
                wp (k x) Q h') ->
  wp (let! xs := put_lines ls in let! x := alloc (OLines xs) in k x) Q h.
Proof.
  intros HQ. apply wp_bind. eapply wp_mono; [apply wp_put_lines|].
  intros xs h' (He & lts & Hh & Hnd & Hnew). apply wp_bind.
  apply wp_alloc. intros x Hx.
  apply HQ.
  - eapply ext_trans; [exact He|]. now apply ext_insert.
  - eapply ext_notin; eauto.
  - exists xs, lts. split; [apply lookup_insert_eq|]. split; [|assumption].
    eapply holds_lines_ext; [exact Hh|]. now apply ext_insert.
Qed.

(** [put_state] builds an object that holds the state. *)
Lemma wp_put_state (s : StonehengeState) (h : heap) :
  wp (put_state s)
     (fun x h' => ext h h' /\ (x ∉ dom h) /\ holds_state h' x s) h.
Proof.
  unfold put_state.
  apply wp_put_family. intros xh h1 E1 _ H1.
  apply wp_put_family. intros xr h2 E2 _ H2.
  apply wp_put_family. intros xl h3 E3 _ H3.
  apply wp_bind. apply wp_alloc. intros mv Hmv.
  apply wp_alloc. intros x Hx.
  set (h4 := <[mv := OLetters (possible_moves s)]> h3) in *.
  assert (E4 : ext h3 h4) by now apply ext_insert.
  set (h5 := <[x := _]> h4).
  assert (E5 : ext h4 h5) by now apply ext_insert.
  pose proof (ext_trans _ _ _ E4 E5) as E35.
  pose proof (ext_trans _ _ _ E3 E35) as E25.
  pose proof (ext_trans _ _ _ E2 E25) as E15.
  pose proof (ext_trans _ _ _ E1 E15) as E05.
  split; [assumption|]. split.
  - intros Hd. apply Hx.
    apply (ext_dom _ _ _ (ext_trans _ _ _ E1 (ext_trans _ _ _ E2
             (ext_trans _ _ _ E3 E4))) Hd).
  - eexists. split; [apply lookup_insert_eq|]. simpl.
    repeat (split; [reflexivity|]).
    split; [|split; [|split]].
    + eapply holds_family_ext; eauto.
    + eapply holds_family_ext; eauto.
    + eapply holds_family_ext; eauto.
    + apply E5. unfold h4. apply lookup_insert_eq.
Qed.

(** The store built from a state holds it. *)
Lemma store_of_holds (s : StonehengeState) :
  holds_state (store_of s).2 (store_of s).1 s.
Proof.
  destruct (wp_put_state s ∅) as (x & h' & Hp & _ & _ & Hh).
  unfold store_of. now rewrite Hp.
Qed.

End Build.

Section Agreement.

(** What an object holds is what [get_state] reads from it. *)
Lemma holds_lines_get (h : heap) (xs lts : list loc) (ls : list Leyline) :
  holds_lines h xs lts ls -> mapM (get_leyline h) xs = Some ls.
Proof.
  induction 1 as [|x lt ley xs lts ls Hx Hlt _ IH]; [reflexivity|].
  assert (Hg : get_leyline h x = Some ley).
  { unfold get_leyline. rewrite Hx, Hlt. now destruct ley. }
  cbn. now rewrite Hg, IH.
Qed.

Lemma holds_family_get (h : heap) (x : loc) (ls : list Leyline) :
  holds_family h x ls -> get_lines h x = Some ls.
Proof.
  intros (xs & lts & Hx & Hh & _). unfold get_lines. rewrite Hx.
  eapply holds_lines_get; eauto.
Qed.

Lemma holds_state_get (h : heap) (x : loc) (s : StonehengeState) :
  holds_state h x s -> get_state h x = Some s.
Proof.
  intros (st & Hx & T1 & T2 & T3 & T4 & Hh & Hr & Hl & Hm).
  unfold get_state. rewrite Hx.
  rewrite (holds_family_get _ _ _ Hh), (holds_family_get _ _ _ Hr),
    (holds_family_get _ _ _ Hl), Hm, T1, T2, T3, T4.
  now destruct s.
Qed.

(** X17: [Heap.make_move] on an object that holds the state [s] does
    what [make_move s] does: it raises the same exception, or it returns a
    new object that holds the new state, the receiver and all the objects
    of the store before the call being as they were. *)
Theorem make_move_refines (h : heap) (self : loc) (s : StonehengeState)
  (m : string) :
  holds_state h self s ->
  match Heap.make_move self m h with
  | Ret (ss, h') =>
      exists s', make_move s m = Ret s'
                 /\ get_state h' ss = Some s' /\ get_state h' self = Some s
                 /\ (ss ∉ dom h) /\ forall l, l ∈ dom h -> h' !! l = h !! l
  | Raise e => make_move s m = Raise e
  | NoFuel => False
  end.
Proof.
  intros Hs. pose proof (make_move_refines_wpe h self s m Hs) as H.
  unfold wpe in H. destruct (Heap.make_move self m h) as [[ss h']|e|];
    [|assumption..].
  destruct H as (s' & Hm & H1 & H2 & H3 & H4). exists s'.
  split; [assumption|]. split; [now apply holds_state_get|].
  split; [now apply holds_state_get|]. auto.
Qed.

(** In particular on the store built from [s]. *)
Corollary make_move_refines_store (s : StonehengeState) (m : string) :
  match Heap.make_move (store_of s).1 m (store_of s).2 with
  | Ret (ss, h') =>
      exists s', make_move s m = Ret s'
                 /\ get_state h' ss = Some s'
                 /\ get_state h' (store_of s).1 = Some s
  | Raise e => make_move s m = Raise e
  | NoFuel => False
  end.
Proof.
  pose proof (make_move_refines_wpe _ _ s m (store_of_holds s)) as H.
  unfold wpe in H.
  destruct (Heap.make_move _ m _) as [[ss h']|e|]; [|assumption..].
  destruct H as (s' & Hm & H1 & H2 & _). exists s'.
  split; [assumption|]. split; now apply holds_state_get.
Qed.

Lemma make_move_refines_witness :
  match Heap.make_move (store_of (current_state (new_game true 1))).1 "A"
          (store_of (current_state (new_game true 1))).2 with
  | Ret (ss, h') =>
      exists s', make_move (current_state (new_game true 1)) "A" = Ret s'
                 /\ get_state h' ss = Some s'
                 /\ get_state h'
                      (store_of (current_state (new_game true 1))).1
                    = Some (current_state (new_game true 1))
                 /\ (ss ∉ dom (store_of (current_state (new_game true 1))).2)
                 /\ forall l,
                      l ∈ dom (store_of (current_state (new_game true 1))).2 ->
                      h' !! l
                      = (store_of (current_state (new_game true 1))).2 !! l
  | Raise e => make_move (current_state (new_game true 1)) "A" = Raise e
  | NoFuel => False
  end.
Proof.
  exact (make_move_refines _ _ _ "A"
           (store_of_holds (current_state (new_game true 1)))).
Defined.

(** X18: [get_possible_moves] hands out a copy: it returns a new list
    object holding the moves of the state and changes no object of the
    store, and a later write to the returned list leaves every object
    that the store held before the call as it was. *)
Theorem get_possible_moves_copy (h : heap) (self : loc) (st : sfields)
  (ms : list string) :
  h !! self = Some (OState st) ->
  h !! so_moves st = Some (OLetters ms) ->
  exists l,
    Heap.get_possible_moves self h = Ret (l, <[l := OLetters ms]> h)
    /\ (l ∉ dom h)
    /\ forall o (h' : heap),
         store l o (<[l := OLetters ms]> h) = Ret (tt, h') ->
         forall x, x ∈ dom h -> h' !! x = h !! x.
Proof.
  intros Hself Hms. exists (fresh (dom h)).
  assert (Hf : fresh (dom h) ∉ dom h) by apply is_fresh.
  split; [|split; [exact Hf|]].
  - unfold Heap.get_possible_moves, load_state, slice_letters, load_letters,
      mbind, load, alloc. rewrite Hself. simpl. now rewrite Hms.
  - intros o h' Hst x Hx. unfold store in Hst.
    rewrite lookup_insert_eq in Hst. injection Hst as <-.
    rewrite insert_insert_eq.
    apply lookup_insert_ne. intros E. apply Hf. now rewrite E.
Qed.

Lemma get_possible_moves_copy_witness :
  exists l,
    Heap.get_possible_moves (store_of (current_state (new_game true 1))).1
      (store_of (current_state (new_game true 1))).2
    = Ret (l, <[l := OLetters ["A"; "B"; "C"]]>
                (store_of (current_state (new_game true 1))).2).
Proof.
  assert (H1 : (store_of (current_state (new_game true 1))).2
               !! (store_of (current_state (new_game true 1))).1
               = Some (OState (mkFields true 1 0 0 5 10 15 16)))
    by (vm_compute; reflexivity).
  assert (H2 : (store_of (current_state (new_game true 1))).2
               !! so_moves (mkFields true 1 0 0 5 10 15 16)
               = Some (OLetters ["A"; "B"; "C"]))
    by (vm_compute; reflexivity).
  destruct (get_possible_moves_copy _ _ _ _ H1 H2) as (l & Hl & _).
  exists l. exact Hl.
Defined.

End Agreement.

End Refinement.

Module HeapExamples.

Import Repr.

Lemma typed_b_sound (h : Store.heap) : Store.typed_b h = true -> Store.typed h.
Proof.
  unfold Store.typed_b. intros H. apply bool_decide_eq_true_1 in H.
  intros a o b k Ho Hb. specialize (H a o Ho). simpl in H.
  rewrite Forall_forall in H. apply list_elem_of_In in Hb.
  specialize (H _ Hb). simpl in H. apply fmap_Some in H as (o' & Ho' & ->).
  exists o'. auto.
Qed.

Lemma make_move_frame_witness :
  Store.typed (store_of (current_state (new_game true 1))).2
  /\ (store_of (current_state (new_game true 1))).2
       !! (store_of (current_state (new_game true 1))).1
     = Some (Store.OState (Store.mkFields true 1 0 0 5 10 15 16))
  /\ (store_of (current_state (new_game true 1))).2 !! 16%positive
     = Some (Store.OLetters ["A"; "B"; "C"])
  /\ In "A" ["A"; "B"; "C"]
  /\ exists ss h',
       Heap.make_move (store_of (current_state (new_game true 1))).1 "A"
         (store_of (current_state (new_game true 1))).2 = Ret (ss, h')
       /\ (ss ∉ dom (store_of (current_state (new_game true 1))).2)
       /\ (forall l, l ∈ dom (store_of (current_state (new_game true 1))).2 ->
             h' !! l = (store_of (current_state (new_game true 1))).2 !! l).
Proof.
  assert (Ht : Store.typed (store_of (current_state (new_game true 1))).2).
  { apply typed_b_sound. vm_compute. reflexivity. }
  match goal with |- _ /\ ?S /\ ?P /\ ?I /\ _ =>
    assert (Hs : S) by (vm_compute; reflexivity);
    assert (Hp : P) by (vm_compute; reflexivity);
    assert (Hi : I) by (simpl; tauto) end.
  split; [exact Ht|]. split; [exact Hs|]. split; [exact Hp|].
  split; [exact Hi|].
  destruct (HeapFacts.make_move_frame _ _ "A" _ _ Ht Hs Hp Hi)
    as (ss & h' & H1 & H2 & _ & H3 & _).
  exists ss, h'. split; [exact H1|]. split; [exact H2 | exact H3].
Defined.

(** On the stores that hold one state and nothing else, the state read
    back from the object that [Heap.make_move] returns is the state that
    [make_move] returns, and the receiver reads back unchanged. *)
Example make_move_agrees_board2 :
  let s := current_state (new_game true 2) in
  match Heap.make_move (store_of s).1 "D" (store_of s).2 with
  | Ret (ss, h') =>
      Ret <$> get_state h' ss = Some (make_move s "D")
      /\ get_state h' (store_of s).1 = Some s
  | _ => False
  end.
Proof. vm_compute. split; reflexivity. Qed.

Example make_move_agrees_board1 :
  let s := current_state (new_game true 1) in
  match Heap.make_move (store_of s).1 "A" (store_of s).2 with
  | Ret (ss, h') =>
      Ret <$> get_state h' ss = Some (make_move s "A")
      /\ get_state h' (store_of s).1 = Some s
  | _ => False
  end.
Proof. vm_compute. split; reflexivity. Qed.

End HeapExamples.
